(** * Chava: obligations, evidence chain, scope algebra, KMS and pointer index

    A shallow embedding of the Python package [chava] (modules [core],
    [algebra], [kms], [indexes], and the registry of [verifiers]) together
    with the properties its specification states about them.

    Conventions of the embedding.
    - A Python [str] is a [string]; the character with code [n] stands for the
      code point [n], so the model covers text over U+0000..U+00FF.
    - Python [bytes] are [list byte].
    - A Python exception is a constructor of [PyException]; a function that
      may raise returns a [Result].
    - The wall clock [time.time()] is an explicit argument [now].
    - Library code the package calls ([hashlib.sha256], [json.dumps],
      [str] of a list, [sorted], PBKDF2-HMAC) is written out here so that the
      embedding runs; [jsonpointer.resolve_pointer] is an argument of the
      functions that call it. *)

From Stdlib Require Import ZArith List String Ascii DecimalString OrdersEx.
From Stdlib.Strings Require Import Byte.
From stdpp Require Import gmap strings list sorting.

Set Warnings "-register-all".

Local Open Scope string_scope.
Local Open Scope Z_scope.
Local Open Scope list_scope.

(* ===================================================================== *)
(** * Python strings and bytes *)
(* ===================================================================== *)

Definition bytes := list byte.

Definition code (c : ascii) : Z := Z.of_N (N_of_ascii c).

Definition byte_of_Z (z : Z) : byte :=
  match Byte.of_N (Z.to_N (z mod 256)) with
  | Some b => b
  | None => x00
  end.

Definition Z_of_byte (b : byte) : Z := Z.of_N (Byte.to_N b).

Definition chr (z : Z) : ascii := ascii_of_N (Z.to_N z).

(** [s.lstrip('/')]: every leading slash is removed. *)
Fixpoint lstrip_slash (s : string) : string :=
  match s with
  | String c rest => if Ascii.eqb c "/" then lstrip_slash rest else s
  | EmptyString => EmptyString
  end.

(** [s.startswith(p)]. *)
Definition startswith (s p : string) : bool := String.prefix p s.

(** [s[n:]]. *)
Fixpoint drop_chars (n : nat) (s : string) : string :=
  match n, s with
  | O, _ => s
  | S m, String _ rest => drop_chars m rest
  | S _, EmptyString => EmptyString
  end.

(** [s.split('/')]: the pieces between slashes; the empty string gives one
    empty piece. *)
Fixpoint split_slash_aux (cur : string) (s : string) : list string :=
  match s with
  | EmptyString => [String.rev cur]
  | String c rest =>
      if Ascii.eqb c "/" then String.rev cur :: split_slash_aux EmptyString rest
      else split_slash_aux (String c cur) rest
  end.

Definition split_slash (s : string) : list string := split_slash_aux EmptyString s.

(** [s.encode()]: UTF-8 of code points below 256. *)
Fixpoint encode (s : string) : bytes :=
  match s with
  | EmptyString => []
  | String c rest =>
      let n := code c in
      if n <? 128 then byte_of_Z n :: encode rest
      else byte_of_Z (Z.lor 192 (Z.shiftr n 6))
           :: byte_of_Z (Z.lor 128 (Z.land n 63)) :: encode rest
  end.

Definition hex_digit (n : Z) : ascii :=
  if n <? 10 then chr (48 + n) else chr (87 + n).

(** Two lower-case hexadecimal digits of a value below 256. *)
Definition hex2 (n : Z) : string :=
  String (hex_digit (Z.shiftr n 4)) (String (hex_digit (Z.land n 15)) EmptyString).

Definition hexlify (b : bytes) : string :=
  fold_right (fun x acc => hex2 (Z_of_byte x) +:+ acc) EmptyString b.

(* ===================================================================== *)
(** * hashlib.sha256 (FIPS 180-4) *)
(* ===================================================================== *)

Module SHA256.

Definition wrap (x : Z) : Z := x mod 2 ^ 32.
Definition plus (x y : Z) : Z := wrap (x + y).
Definition rotr (n x : Z) : Z :=
  Z.lor (Z.shiftr x n) (wrap (Z.shiftl x (32 - n))).
Definition compl (x : Z) : Z := Z.lxor x (2 ^ 32 - 1).

Definition Ch (x y z : Z) : Z := Z.lxor (Z.land x y) (Z.land (compl x) z).
Definition Maj (x y z : Z) : Z :=
  Z.lxor (Z.lxor (Z.land x y) (Z.land x z)) (Z.land y z).
Definition bsig0 (x : Z) : Z := Z.lxor (Z.lxor (rotr 2 x) (rotr 13 x)) (rotr 22 x).
Definition bsig1 (x : Z) : Z := Z.lxor (Z.lxor (rotr 6 x) (rotr 11 x)) (rotr 25 x).
Definition ssig0 (x : Z) : Z := Z.lxor (Z.lxor (rotr 7 x) (rotr 18 x)) (Z.shiftr x 3).
Definition ssig1 (x : Z) : Z := Z.lxor (Z.lxor (rotr 17 x) (rotr 19 x)) (Z.shiftr x 10).

(** The round constants are the first 32 bits of the fractional parts of
    the cube roots of the first 64 primes, the initial state those of the
    square roots of the first 8; both are computed rather than typed in. *)
Definition no_divisor (p : Z) : bool :=
  forallb (fun d => negb (p mod d =? 0))
          (List.map Z.of_nat (List.seq 2 (Z.to_nat p - 2))).

Definition primes : list Z :=
  List.filter no_divisor (List.map Z.of_nat (List.seq 2 310)).

Fixpoint cube_root_bits (n : nat) (x r : Z) : Z :=
  match n with
  | O => r
  | S k =>
      let c := r + 2 ^ Z.of_nat k in
      if c * c * c <=? x then cube_root_bits k x c else cube_root_bits k x r
  end.

Definition K : list Z :=
  Eval vm_compute in
    List.map (fun p => wrap (cube_root_bits 40 (p * 2 ^ 96) 0)) primes.

Definition H0 : list Z :=
  Eval vm_compute in
    List.map (fun p => wrap (Z.sqrt (p * 2 ^ 64))) (firstn 8 primes).

(** Big-endian bytes of a value, [n] of them. *)
Fixpoint be_bytes (n : nat) (x : Z) : bytes :=
  match n with
  | O => []
  | S k => byte_of_Z (Z.shiftr x (8 * Z.of_nat k)) :: be_bytes k x
  end.

Definition be_value (b : bytes) : Z :=
  fold_left (fun acc x => acc * 256 + Z_of_byte x) b 0.

(** Padding: the bit 1, then zeros up to 56 modulo 64, then the bit length
    on 8 bytes. *)
Definition pad (msg : bytes) : bytes :=
  let len := Z.of_nat (List.length msg) in
  let zeros := Z.to_nat ((55 - len) mod 64) in
  msg ++ x80 :: List.repeat x00 zeros ++ be_bytes 8 (8 * len).

Fixpoint words (n : nat) (b : bytes) : list Z :=
  match n with
  | O => []
  | S k => be_value (firstn 4 b) :: words k (skipn 4 b)
  end.

(** Message schedule: [w] holds W_0 .. W_(t-1); [n] more words are added. *)
Fixpoint schedule (n : nat) (w : list Z) : list Z :=
  match n with
  | O => w
  | S k =>
      let t := List.length w in
      let at_ i := nth (t - i) w 0 in
      schedule k (w ++ [plus (plus (ssig1 (at_ 2%nat)) (at_ 7%nat))
                             (plus (ssig0 (at_ 15%nat)) (at_ 16%nat))])
  end.

Definition round (s : list Z) (kw : Z * Z) : list Z :=
  match s with
  | [a; b; c; d; e; f; g; h] =>
      let t1 := plus (plus (plus h (bsig1 e)) (plus (Ch e f g) kw.1)) kw.2 in
      let t2 := plus (bsig0 a) (Maj a b c) in
      [plus t1 t2; a; b; c; plus d t1; e; f; g]
  | _ => s
  end.

Definition compress (h : list Z) (block : bytes) : list Z :=
  let w := schedule 48 (words 16 block) in
  let s := fold_left round (combine K w) h in
  List.map (fun p => plus p.1 p.2) (combine h s).

Fixpoint blocks (n : nat) (h : list Z) (b : bytes) : list Z :=
  match n with
  | O => h
  | S k => blocks k (compress h (firstn 64 b)) (skipn 64 b)
  end.

Definition digest (msg : bytes) : bytes :=
  let p := pad msg in
  flat_map (be_bytes 4) (blocks (List.length p / 64) H0 p).

Definition hexdigest (msg : bytes) : string := hexlify (digest msg).

End SHA256.

(* ===================================================================== *)
(** * PBKDF2-HMAC-SHA-256 (RFC 2104, RFC 8018) *)
(* ===================================================================== *)

Definition xor_bytes (a b : bytes) : bytes :=
  List.map (fun p => byte_of_Z (Z.lxor (Z_of_byte p.1) (Z_of_byte p.2))) (combine a b).

Definition hmac_sha256 (key msg : bytes) : bytes :=
  let k := if (64 <? List.length key)%nat then SHA256.digest key else key in
  let k := k ++ List.repeat x00 (64 - List.length k) in
  let ipad := xor_bytes k (List.repeat x36 64) in
  let opad := xor_bytes k (List.repeat x5c 64) in
  SHA256.digest (opad ++ SHA256.digest (ipad ++ msg)).

(** Block [i] of the derived key: the exclusive-or of [iterations] chained
    HMAC values. *)
Definition pbkdf2_block (password salt : bytes) (iterations : N) (i : Z) : bytes :=
  let u1 := hmac_sha256 password (salt ++ SHA256.be_bytes 4 i) in
  snd (N.iter (iterations - 1)
         (fun st => let u := hmac_sha256 password st.1 in (u, xor_bytes st.2 u))
         (u1, u1)).

(** [PBKDF2HMAC(algorithm=SHA256(), length, salt, iterations).derive(key_material)]. *)
Definition PBKDF2HMAC (length : nat) (salt : bytes) (iterations : N)
    (key_material : bytes) : bytes :=
  firstn length
    (flat_map (fun i => pbkdf2_block key_material salt iterations (Z.of_nat i))
              (List.seq 1 ((length + 31) / 32))).

(* ===================================================================== *)
(** * JSON values and json.dumps *)
(* ===================================================================== *)

(** A JSON number: an integer, or a float given by its [repr] (the token
    [json.dumps] writes for it). *)
Inductive Number :=
  | Int (z : Z)
  | Float (repr : string).

#[global] Instance Number_eq_dec : EqDecision Number.
Proof. solve_decision. Defined.

(** The value field of an object: a JSON tree. Python's [None] is [VNull];
    a [dict] keeps its items in insertion order. *)
Inductive Value :=
  | VNull
  | VBool (b : bool)
  | VNum (n : Number)
  | VStr (s : string)
  | VList (items : list Value)
  | VDict (items : list (string * Value)).

Definition dquote : string := String (chr 34) "".
Definition backslash : string := String (chr 92) "".

Definition hex4 (n : Z) : string := hex2 (Z.shiftr n 8) +:+ hex2 (Z.land n 255).

(** One character of a string under [ensure_ascii=True]. *)
Definition json_escape_char (c : ascii) : string :=
  let n := code c in
  if n =? 34 then backslash +:+ dquote
  else if n =? 92 then backslash +:+ backslash
  else if n =? 10 then backslash +:+ "n"
  else if n =? 13 then backslash +:+ "r"
  else if n =? 9 then backslash +:+ "t"
  else if n =? 8 then backslash +:+ "b"
  else if n =? 12 then backslash +:+ "f"
  else if (n <? 32) || (126 <? n) then backslash +:+ "u" +:+ hex4 n
  else String c "".

Fixpoint json_escape (s : string) : string :=
  match s with
  | EmptyString => EmptyString
  | String c rest => json_escape_char c +:+ json_escape rest
  end.

Definition dumps_str (s : string) : string := dquote +:+ json_escape s +:+ dquote.

Definition dumps_number (n : Number) : string :=
  match n with
  | Int z => NilZero.string_of_int (Z.to_int z)
  | Float repr => repr
  end.

(** [sep.join(parts)]. *)
Fixpoint join (sep : string) (parts : list string) : string :=
  match parts with
  | [] => ""
  | [p] => p
  | p :: rest => p +:+ sep +:+ join sep rest
  end.

Definition str_le (a b : string) : Prop := String.leb a b = true.

#[global] Instance str_le_dec a b : Decision (str_le a b).
Proof. unfold str_le. apply _. Defined.

Definition key_le (a b : string * string) : Prop := str_le a.1 b.1.

#[global] Instance key_le_dec a b : Decision (key_le a b).
Proof. unfold key_le. apply _. Defined.

(** [json.dumps(v, sort_keys=sort_keys)] with the default separators
    [", "] and [": "], or with given ones. *)
Section Dumps.
Variable sort_keys : bool.
Variables item_separator key_separator : string.

Fixpoint dumps_with (v : Value) : string :=
  match v with
  | VNull => "null"
  | VBool true => "true"
  | VBool false => "false"
  | VNum n => dumps_number n
  | VStr s => dumps_str s
  | VList items =>
      "[" +:+ join item_separator (List.map dumps_with items) +:+ "]"
  | VDict items =>
      let rendered := List.map (fun kv => (kv.1, dumps_with kv.2)) items in
      let ordered := if sort_keys then merge_sort key_le rendered else rendered in
      "{" +:+ join item_separator
                (List.map (fun kv => dumps_str kv.1 +:+ key_separator +:+ kv.2) ordered)
          +:+ "}"
  end.
End Dumps.

Definition json_dumps (sort_keys : bool) (v : Value) : string :=
  dumps_with sort_keys ", " ": " v.

(* ===================================================================== *)
(** * repr of a string and str of a list of pairs *)
(* ===================================================================== *)

Definition contains_char (n : Z) (s : string) : bool :=
  existsb (fun c => code c =? n) (list_ascii_of_string s).

(** [str.isprintable] on the code points below 256. *)
Definition printable (n : Z) : bool :=
  negb ((n <? 32) || ((127 <=? n) && (n <=? 160)) || (n =? 173)).

Definition repr_char (quote : Z) (c : ascii) : string :=
  let n := code c in
  if (n =? quote) || (n =? 92) then backslash +:+ String c ""
  else if n =? 9 then backslash +:+ "t"
  else if n =? 10 then backslash +:+ "n"
  else if n =? 13 then backslash +:+ "r"
  else if printable n then String c ""
  else backslash +:+ "x" +:+ hex2 n.

(** [repr(s)]: single quotes unless the text has a single quote and no
    double quote. *)
Definition repr_str (s : string) : string :=
  let quote := if contains_char 39 s && negb (contains_char 34 s) then 34 else 39 in
  let q := String (chr quote) "" in
  q +:+ String.concat "" (List.map (repr_char quote) (list_ascii_of_string s)) +:+ q.

(** [str(l)] for a list of pairs of strings. *)
Definition str_pairs (l : list (string * string)) : string :=
  "[" +:+ join ", " (List.map (fun p => "(" +:+ repr_str p.1 +:+ ", " +:+ repr_str p.2 +:+ ")") l)
      +:+ "]".

(** Order of Python tuples of two strings: by the first component, then by
    the second. *)
Definition tuple_le (a b : string * string) : Prop :=
  match String.compare a.1 b.1 with
  | Lt => True
  | Eq => str_le a.2 b.2
  | Gt => False
  end.

#[global] Instance tuple_le_dec a b : Decision (tuple_le a b).
Proof. unfold tuple_le. destruct (String.compare a.1 b.1); apply _. Defined.

(** [sorted(l)] on such tuples. *)
Definition sorted (l : list (string * string)) : list (string * string) :=
  merge_sort tuple_le l.

(* ===================================================================== *)
(** * Python dictionaries, exceptions *)
(* ===================================================================== *)

(** A [dict] as the list of its items in insertion order, keys distinct. *)
Section PyDict.
Context {K V : Type} `{EqDecision K}.

(** [d.get(k)]. *)
Fixpoint dict_get (d : list (K * V)) (k : K) : option V :=
  match d with
  | [] => None
  | (k', v) :: rest => if decide (k' = k) then Some v else dict_get rest k
  end.

(** [d[k] = v]: replaces the value of a present key where it stands, adds
    an absent key at the end. *)
Fixpoint dict_set (d : list (K * V)) (k : K) (v : V) : list (K * V) :=
  match d with
  | [] => [(k, v)]
  | (k', v') :: rest =>
      if decide (k' = k) then (k', v) :: rest else (k', v') :: dict_set rest k v
  end.
End PyDict.

Inductive PyException :=
  | ValueError (msg : string)
  | KeyError (msg : string)
  | ObligationViolation (remaining_kinds : gset string).

Inductive Result (A : Type) :=
  | Return (a : A)
  | Raise (e : PyException).
Arguments Return {A} a.
Arguments Raise {A} e.

#[global] Instance Result_bind : MBind Result := fun A B f r =>
  match r with
  | Return a => f a
  | Raise e => Raise e
  end.

(** [l.remove(x)]: the first occurrence goes; [ValueError] when there is none. *)
Fixpoint list_remove {A} `{EqDecision A} (x : A) (l : list A) : Result (list A) :=
  match l with
  | [] => Raise (ValueError "list.remove(x): x not in list")
  | y :: rest =>
      if decide (y = x) then Return rest
      else rest' ← list_remove x rest; Return (y :: rest')
  end.

(* ===================================================================== *)
(** * chava/core.py *)
(* ===================================================================== *)

(** An evidence record is a [dict]; the keys read with [.get] may be missing. *)
Record EvidenceRecord := {
  verifier_id : string;
  result : string;
  timestamp : Number;
  prev_hash : option string;
  kind : option string;
  scope : option string;
  hash : option string
}.

#[global] Instance EvidenceRecord_eq_dec : EqDecision EvidenceRecord.
Proof. solve_decision. Defined.

Record ChavaObject := {
  value : Value;
  obligations : list (string * string);
  evidence : list EvidenceRecord
}.

(** [ChavaObject.__init__]: the obligations are copied, then each kind is
    checked to be a non-empty string. *)
Definition ChavaObject_init (value : Value) (obligations : list (string * string))
    (evidence : list EvidenceRecord) : Result ChavaObject :=
  match List.find (fun o => String.eqb o.1 "") obligations with
  | Some o => Raise (ValueError ("Invalid obligation kind: " +:+ o.1))
  | None =>
      Return {| value := value;
                obligations := List.map (fun o => (o.1, o.2)) obligations;
                evidence := evidence |}
  end.

(** [obj.copy()]. *)
Definition copy (self : ChavaObject) : Result ChavaObject :=
  ChavaObject_init self.(value)
    (List.map (fun o => (o.1, o.2)) self.(obligations))
    (List.map (fun e => e) self.(evidence)).

Definition compute_evidence_hash (evidence_record : EvidenceRecord) : string :=
  let canonical_str :=
    json_dumps true
      (VDict [("ver", VStr evidence_record.(verifier_id));
              ("res", VStr evidence_record.(result));
              ("ts", VNum evidence_record.(timestamp));
              ("prev", VStr (default "" evidence_record.(prev_hash)))]) in
  SHA256.hexdigest (encode canonical_str).

(** The loop of [verify_evidence_chain] from index [i] on; [rest] is
    [evidence[i:]]. *)
Fixpoint verify_from (evidence : list EvidenceRecord) (i : nat)
    (rest : list EvidenceRecord) : bool :=
  match rest with
  | [] => true
  | record :: rest' =>
      let calculated_hash := compute_evidence_hash record in
      if negb (bool_decide (record.(hash) = Some calculated_hash)) then false
      else if (0 <? i)%nat
              && negb (String.eqb (default "" record.(prev_hash))
                         (default "" (e ← evidence !! (i - 1)%nat; e.(hash))))
      then false
      else verify_from evidence (S i) rest'
  end.

Definition verify_evidence_chain (evidence : list EvidenceRecord) : bool :=
  match evidence with
  | [] => true
  | _ => verify_from evidence 0 evidence
  end.

(** First loop of [has_conflict]: the results of each kind, in order. *)
Definition group_verdict (latest_verdicts : list (option string * list string))
    (record : EvidenceRecord) : list (option string * list string) :=
  let kind := record.(kind) in
  let result := record.(result) in
  let latest_verdicts :=
    match dict_get latest_verdicts kind with
    | None => dict_set latest_verdicts kind []
    | Some _ => latest_verdicts
    end in
  dict_set latest_verdicts kind (default [] (dict_get latest_verdicts kind) ++ [result]).

(** Inner loop of [has_conflict] over one group: [true] when it returns. *)
Fixpoint reject_then_accept (reject_found : bool) (results : list string) : bool :=
  match results with
  | [] => false
  | result :: rest =>
      if String.eqb result "reject" then reject_then_accept true rest
      else if String.eqb result "accept" && reject_found then true
      else reject_then_accept reject_found rest
  end.

Definition has_conflict (evidence : list EvidenceRecord) : bool :=
  let latest_verdicts := fold_left group_verdict evidence [] in
  existsb (fun kr => reject_then_accept false kr.2) latest_verdicts.

Definition is_cleared (obj : ChavaObject) : bool :=
  (List.length obj.(obligations) =? 0)%nat && negb (has_conflict obj.(evidence)).

Definition unwrap (obj : ChavaObject) : Result Value :=
  if negb (is_cleared obj) then
    let remaining_kinds : gset string := list_to_set (List.map fst obj.(obligations)) in
    Raise (ObligationViolation remaining_kinds)
  else Return obj.(value).

(** A verifier takes the scoped value and the scope and gives its verdict. *)
Definition Verifier := Value → string → string.

(** [VerifierRegistry.get_verifier]. *)
Definition get_verifier (_registry : gmap string Verifier) (kind : string)
    : Result Verifier :=
  match _registry !! kind with
  | None => Raise (KeyError ("No verifier registered for kind: " +:+ kind))
  | Some verifier => Return verifier
  end.

Section WithPointerResolver.

(** [jsonpointer.resolve_pointer(doc, pointer)]; [None] stands for
    [JsonPointerException]. *)
Variable resolve_pointer : Value → string → option Value.

Definition discharge (obj : ChavaObject) (kind scope : string)
    (registry : gmap string Verifier) (verifier_id : string) (now : Number)
    : Result ChavaObject :=
  new_obj ← copy obj;
  let target_obligation := (kind, scope) in
  if negb (bool_decide (target_obligation ∈ new_obj.(obligations))) then Return new_obj
  else
    verifier ← get_verifier registry kind;
    let scoped_value :=
      if String.eqb scope "" then new_obj.(value)
      else match resolve_pointer new_obj.(value) scope with
           | Some v => v
           | None => VNull
           end in
    let result := verifier scoped_value scope in
    let prev_hash :=
      match last new_obj.(evidence) with
      | Some e => default "" e.(hash)
      | None => ""
      end in
    let evidence_record :=
      Build_EvidenceRecord verifier_id result now (Some prev_hash)
        (Some kind) (Some scope) None in
    let record_hash := compute_evidence_hash evidence_record in
    let evidence_record :=
      Build_EvidenceRecord verifier_id result now (Some prev_hash)
        (Some kind) (Some scope) (Some record_hash) in
    let new_evidence := new_obj.(evidence) ++ [evidence_record] in
    new_obligations ←
      (if String.eqb result "accept"
       then list_remove target_obligation new_obj.(obligations)
       else Return new_obj.(obligations));
    Return {| value := new_obj.(value);
              obligations := new_obligations;
              evidence := new_evidence |}.

End WithPointerResolver.

(* ===================================================================== *)
(** * chava/algebra.py *)
(* ===================================================================== *)

Definition relscope (scope path : string) : string :=
  if String.eqb scope "" then ""
  else
    let scope := lstrip_slash scope in
    let path := lstrip_slash path in
    if startswith scope path then
      let remaining := lstrip_slash (drop_chars (String.length path) scope) in
      if negb (String.eqb remaining "") then "/" +:+ remaining else ""
    else "".

(** Body of the loop of [project] over the obligations. *)
Definition project_step (path : string) (new_obligations : list (string * string))
    (o : string * string) : list (string * string) :=
  let kind := o.1 in
  let scope := o.2 in
  if String.eqb scope "" || String.eqb scope path || startswith scope (path +:+ "/")
  then
    let new_scope := relscope scope path in
    new_obligations ++ [(kind, new_scope)]
  else if startswith path (scope +:+ "/") then new_obligations ++ [(kind, "")]
  else new_obligations.

Section WithPointerResolver.

Variable resolve_pointer : Value → string → option Value.

Definition project (obj : ChavaObject) (path : string) : Result ChavaObject :=
  match resolve_pointer obj.(value) path with
  | None =>
      let new_obligations := obj.(obligations) ++ [("invalid_path", "")] in
      ChavaObject_init VNull new_obligations obj.(evidence)
  | Some extracted_value =>
      let new_obligations := fold_left (project_step path) obj.(obligations) [] in
      ChavaObject_init extracted_value new_obligations obj.(evidence)
  end.

End WithPointerResolver.

(* ===================================================================== *)
(** * chava/kms.py *)
(* ===================================================================== *)

Module KeyManagementService.

Record t := { server_secret : bytes }.

Definition derive_key (self : t) (obligations : list (string * string))
    (server_secret : bytes) : bytes :=
  let norm := List.map (fun o => (o.1, o.2)) obligations in
  let obl_str := str_pairs (sorted norm) in
  let obl_hash := SHA256.digest (encode obl_str) in
  PBKDF2HMAC 32 obl_hash 100000 server_secret.

Definition verify_and_release_key (self : t) (obj : ChavaObject) : option bytes :=
  if (0 <? List.length obj.(obligations))%nat then None
  else if negb (verify_evidence_chain obj.(evidence)) then None
  else if has_conflict obj.(evidence) then None
  else
    let cleared_key := derive_key self [] self.(server_secret) in
    Some cleared_key.

End KeyManagementService.

(* ===================================================================== *)
(** * chava/indexes.py *)
(* ===================================================================== *)

Module HierarchicalPointerIndex.

Inductive TrieNode :=
  | Node (children : list (string * TrieNode)) (object_ids : gset string).

Definition children (n : TrieNode) : list (string * TrieNode) :=
  match n with Node c _ => c end.
Definition object_ids (n : TrieNode) : gset string :=
  match n with Node _ ids => ids end.

(** [TrieNode()]. *)
Definition TrieNode_init : TrieNode := Node [] ∅.

Record t := { root : TrieNode }.

Definition init : t := {| root := TrieNode_init |}.

Definition _split_path (path : string) : list string :=
  if String.eqb path "" then []
  else
    let path := lstrip_slash path in
    if String.eqb path "" then [] else split_slash path.

(** The walk of [add] below [node] along [components], creating the
    missing nodes, with [obj_id] recorded at the node reached. *)
Fixpoint add_at (components : list string) (obj_id : string) (node : TrieNode)
    : TrieNode :=
  match components with
  | [] => Node (children node) (object_ids node ∪ {[obj_id]})
  | comp :: rest =>
      let children :=
        match dict_get (children node) comp with
        | None => dict_set (children node) comp TrieNode_init
        | Some _ => children node
        end in
      let child := default TrieNode_init (dict_get children comp) in
      Node (dict_set children comp (add_at rest obj_id child)) (object_ids node)
  end.

Definition add (self : t) (obj_id : string) (obligations : list (string * string)) : t :=
  fold_left
    (fun self o =>
       let scope := o.2 in
       if String.eqb scope "" then
         {| root := Node (children self.(root)) (object_ids self.(root) ∪ {[obj_id]}) |}
       else
         let components := _split_path scope in
         {| root := add_at components obj_id self.(root) |})
    obligations self.

(** First loop of [get_objects_at_path]: down along [components], stopping
    ([break]) at the first one that has no node. *)
Fixpoint descend (components : list string) (node : TrieNode) : TrieNode :=
  match components with
  | [] => node
  | comp :: rest =>
      match dict_get (children node) comp with
      | Some child => descend rest child
      | None => node
      end
  end.

Fixpoint node_count (n : TrieNode) : nat :=
  match n with
  | Node c _ => S (list_sum (List.map (fun kv => node_count kv.2) c))
  end.

(** The [while stack] loop. The head of [stack] is the end of the Python
    list, where [pop] takes and [extend] adds. Each turn pops one node, so
    the number of nodes at and below the stack bounds the turns. *)
Fixpoint collect (turns : nat) (stack : list TrieNode) (result : gset string)
    : gset string :=
  match turns, stack with
  | S turns', current_node :: stack' =>
      collect turns'
        (rev (List.map snd (children current_node)) ++ stack')
        (result ∪ object_ids current_node)
  | _, _ => result
  end.

Definition get_objects_at_path (self : t) (path : string) : gset string :=
  let components := _split_path path in
  let node := descend components self.(root) in
  let result := object_ids node in
  collect (node_count node) [node] result.

(** For the statements about the index: the node at the end of a path, if
    there is one; the components [descend] goes down before it stops; tries
    whose dictionaries have distinct keys; the index a sequence of [add]
    calls builds, and the scopes these calls record, by object id and
    split into components. *)
Fixpoint walk (components : list string) (node : TrieNode) : option TrieNode :=
  match components with
  | [] => Some node
  | comp :: rest => child ← dict_get (children node) comp; walk rest child
  end.

Fixpoint found (components : list string) (node : TrieNode) : list string :=
  match components with
  | [] => []
  | comp :: rest =>
      match dict_get (children node) comp with
      | Some child => comp :: found rest child
      | None => []
      end
  end.

Definition ids_at (q : list string) (n : TrieNode) : option (gset string) :=
  object_ids <$> walk q n.

Inductive distinct_keys : TrieNode → Prop :=
  | distinct_keys_node c ids :
      NoDup c.*1 → Forall (fun kv => distinct_keys kv.2) c →
      distinct_keys (Node c ids).

Definition build (calls : list (string * list (string * string))) : t :=
  fold_left (fun self call => add self call.1 call.2) calls init.

Definition recorded (calls : list (string * list (string * string)))
    : list (string * list string) :=
  flat_map (fun call => List.map (fun o => (call.1, _split_path o.2)) call.2) calls.

End HierarchicalPointerIndex.

(* ===================================================================== *)
(** * The specification's wording, for comparison with the code *)
(* ===================================================================== *)

(** [relscope] as the specification words it: both inputs lose their leading
    slashes; an empty scope, a scope equal to the base, and any scope that
    does not begin with the base followed by a slash give the empty scope;
    otherwise the result is a slash and what follows the base and its slash. *)
Definition relscope_as_specified (scope base : string) : string :=
  if String.eqb scope "" then ""
  else
    let s := lstrip_slash scope in
    let b := lstrip_slash base in
    if String.eqb s b then ""
    else if startswith s (b +:+ "/")
    then "/" +:+ drop_chars (String.length b + 1) s
    else "".

(** The canonical form as the specification words it: keys sorted and no
    insignificant whitespace. *)
Definition canonical_as_specified (r : EvidenceRecord) : string :=
  dumps_with true "," ":"
    (VDict [("ver", VStr r.(verifier_id));
            ("res", VStr r.(result));
            ("ts", VNum r.(timestamp));
            ("prev", VStr (default "" r.(prev_hash)))]).

Definition evidence_hash_as_specified (r : EvidenceRecord) : string :=
  SHA256.hexdigest (encode (canonical_as_specified r)).

(** The rewriting of one obligation by [project] as the specification words
    it: a scope that is empty, equal to the pointer or below it is
    re-anchored; a scope strictly above the pointer becomes the whole-value
    scope; any other obligation is dropped. *)
Definition rewrite_as_specified (p : string) (o : string * string)
    : option (string * string) :=
  if decide (o.2 = "" ∨ o.2 = p ∨ startswith o.2 (p +:+ "/") = true)
  then Some (o.1, relscope o.2 p)
  else if decide (startswith p (o.2 +:+ "/") = true) then Some (o.1, "")
  else None.

(** The group of a kind in an evidence list: the results of the records of
    that kind, in their order. The records without a kind form the group of
    [None]. *)
Definition verdicts_of (k : option string) (E : list EvidenceRecord) : list string :=
  List.map result (filter (fun r => r.(kind) = k) E).

(** The conflict as positions in the evidence list. *)
Definition reject_before_accept (E : list EvidenceRecord) : Prop :=
  ∃ (i j : nat) (ri rj : EvidenceRecord),
    (i < j)%nat ∧ E !! i = Some ri ∧ E !! j = Some rj ∧
    ri.(kind) = rj.(kind) ∧ ri.(result) = "reject" ∧ rj.(result) = "accept".

(** What the constructor checks: no obligation has an empty kind. *)
Definition well_formed (o : ChavaObject) : Prop :=
  Forall (fun ob => ob.1 ≠ "") o.(obligations).

(** [l.count(x)]. *)
Definition count {A} `{EqDecision A} (x : A) (l : list A) : nat :=
  List.length (filter (fun y => y = x) l).

(* ===================================================================== *)
(** * A pointer resolver for the closed examples *)
(* ===================================================================== *)

(** Members of dictionaries by key, one per segment of the pointer; the empty
    pointer is the whole document. Enough of RFC 6901 for the examples
    below, which need one resolver to run. *)
Fixpoint walk_members (doc : Value) (parts : list string) : option Value :=
  match parts with
  | [] => Some doc
  | part :: rest =>
      match doc with
      | VDict items => v ← dict_get items part; walk_members v rest
      | _ => None
      end
  end.

Definition member_pointer (doc : Value) (pointer : string) : option Value :=
  match split_slash pointer with
  | first :: parts => if String.eqb first "" then walk_members doc parts else None
  | [] => None
  end.

(* ===================================================================== *)
(** * Sample data for the closed examples *)
(* ===================================================================== *)

Definition sample_value : Value :=
  VDict [("comment", VStr "hello"); ("other", VStr "data")].

Definition sample_reject : EvidenceRecord :=
  {| verifier_id := "sql_verifier"; result := "reject"; timestamp := Int 100;
     prev_hash := Some ""; kind := Some "sql_safe"; scope := Some "";
     hash := None |}.

Definition sample_accept : EvidenceRecord :=
  {| verifier_id := "sql_verifier"; result := "accept"; timestamp := Int 200;
     prev_hash := Some ""; kind := Some "sql_safe"; scope := Some "";
     hash := None |}.

(** One record, chained to nothing, with the hash the code computes for it. *)
Definition sample_chained : EvidenceRecord :=
  {| verifier_id := "v1"; result := "accept"; timestamp := Int 1234567890;
     prev_hash := Some ""; kind := Some "sql_safe"; scope := Some "";
     hash := Some "fc6a2e9bec651a706c88cbfe8b5a6bd34727350888e792f7fb9f6aea0272eed9" |}.

(** The same record with another hash in its [hash] field. *)
Definition sample_tampered : EvidenceRecord :=
  {| verifier_id := "v1"; result := "accept"; timestamp := Int 1234567890;
     prev_hash := Some ""; kind := Some "sql_safe"; scope := Some "";
     hash := Some "tampered" |}.

Definition sample_kms : KeyManagementService.t :=
  {| KeyManagementService.server_secret := encode "test_secret" |}.

(** A record that agrees with [sample_chained] on the verifier, the result,
    the timestamp and the previous hash, with another kind and scope. *)
Definition sample_rescoped : EvidenceRecord :=
  {| verifier_id := "v1"; result := "accept"; timestamp := Int 1234567890;
     prev_hash := Some ""; kind := Some "pii_clean"; scope := Some "/comment";
     hash := None |}.

Definition accept_all : Verifier := fun _ _ => "accept".
Definition reject_all : Verifier := fun _ _ => "reject".

Definition sample_registry : gmap string Verifier :=
  <["pii_clean" := accept_all]> (<["sql_safe" := reject_all]> ∅).

Definition sample_object : ChavaObject :=
  {| value := sample_value;
     obligations := [("pii_clean", "/comment"); ("sql_safe", ""); ("pii_clean", "/comment")];
     evidence := [sample_chained] |}.

Definition sample_nested : Value :=
  VDict [("user_id", VNum (Int 123));
         ("comment", VDict [("text", VStr "Call me at 555-1234"); ("lang", VStr "en")]);
         ("other", VStr "data")].

Definition sample_scoped : ChavaObject :=
  {| value := sample_nested;
     obligations := [("schema_ok", ""); ("pii_clean", "/comment/text");
                     ("sql_safe", "/comment"); ("other_check", "/other");
                     ("lang_ok", "/comment/lang")];
     evidence := [sample_chained] |}.

(** A record of the given kind and result; [None] is a record without kind. *)
Definition verdict (k : option string) (res : string) : EvidenceRecord :=
  {| verifier_id := "v"; result := res; timestamp := Int 1; prev_hash := None;
     kind := k; scope := None; hash := None |}.

(** The index of the test suite: three objects under [/user] and [/query]. *)
Definition sample_index : HierarchicalPointerIndex.t :=
  HierarchicalPointerIndex.add
    (HierarchicalPointerIndex.add
       (HierarchicalPointerIndex.add HierarchicalPointerIndex.init
          "obj1" [("pii_clean", "/user/comment")])
       "obj2" [("pii_clean", "/user/profile/email")])
    "obj3" [("sql_safe", "/query")].


(* ===================================================================== *)
(** * Further code of the package *)
(* ===================================================================== *)

(** ** chava/core.py *)

Definition safe_consume {A : Type} (obj : ChavaObject) (consumer_fn : Value → A)
    : Result A :=
  value ← unwrap obj; Return (consumer_fn value).

(** ** chava/algebra.py *)

(** Body of the two loops of [merge]: the scope goes under the position
    [prefix] ([/0] or [/1]) of its object in the merged list. *)
Definition merge_step (prefix : string) (merged_obligations : list (string * string))
    (o : string * string) : list (string * string) :=
  let kind := o.1 in
  let scope := o.2 in
  let new_scope := if String.eqb scope "" then prefix else prefix +:+ scope in
  merged_obligations ++ [(kind, new_scope)].

Definition merge (obj1 obj2 : ChavaObject) : Result ChavaObject :=
  let merged_value := VList [obj1.(value); obj2.(value)] in
  let merged_obligations := fold_left (merge_step "/0") obj1.(obligations) [] in
  let merged_obligations :=
    fold_left (merge_step "/1") obj2.(obligations) merged_obligations in
  let merged_evidence := obj1.(evidence) ++ obj2.(evidence) in
  ChavaObject_init merged_value merged_obligations merged_evidence.

(** ** For the statements about evidence chains *)

(** A record carries the hash the code computes for it. *)
Definition record_ok (r : EvidenceRecord) : Prop :=
  r.(hash) = Some (compute_evidence_hash r).

(** The record [r] names the hash of [prev] as its previous hash; a missing
    field reads as the empty string on either side. *)
Definition linked (prev r : EvidenceRecord) : Prop :=
  default "" r.(prev_hash) = default "" prev.(hash).

(** Every record is [record_ok] and linked to the one before it, [prev]
    being the record before the first, if any. *)
Fixpoint chained (prev : option EvidenceRecord) (E : list EvidenceRecord) : Prop :=
  match E with
  | [] => True
  | r :: E' =>
      record_ok r ∧ (∀ p, prev = Some p → linked p r) ∧ chained (Some r) E'
  end.

(** The record [discharge] appends. *)
Definition discharge_record (o : ChavaObject) (k s : string) (verdict id : string)
    (now : Number) : EvidenceRecord :=
  let prev_hash :=
    match last o.(evidence) with
    | Some e => default "" e.(hash)
    | None => ""
    end in
  {| verifier_id := id; result := verdict; timestamp := now;
     prev_hash := Some prev_hash; kind := Some k; scope := Some s;
     hash := Some (compute_evidence_hash
                     {| verifier_id := id; result := verdict; timestamp := now;
                        prev_hash := Some prev_hash; kind := Some k;
                        scope := Some s; hash := None |}) |}.

(** What the verifier is called on. *)
Definition scoped_value (resolve_pointer : Value → string → option Value)
    (o : ChavaObject) (s : string) : Value :=
  if String.eqb s "" then o.(value)
  else default VNull (resolve_pointer o.(value) s).

(** A pointer with one leading slash and no empty first segment, or the
    empty pointer. *)
Definition pointer_shaped (s : string) : Prop :=
  s = "" ∨ ∃ c t, s = String "/" (String c t) ∧ c ≠ "/"%char.

#[global] Instance well_formed_dec (o : ChavaObject) : Decision (well_formed o).
Proof. unfold well_formed. apply _. Defined.

(** ** Further sample data *)

(** An object with one obligation, a reject for it in its evidence. *)
Definition sample_rejected : ChavaObject :=
  {| value := sample_value;
     obligations := [("pii_clean", "/comment")];
     evidence := [verdict (Some "pii_clean") "reject"] |}.

(** An object with one obligation and a one-record chain of another kind. *)
Definition sample_pending : ChavaObject :=
  {| value := sample_value;
     obligations := [("pii_clean", "/comment")];
     evidence := [sample_chained] |}.

(** An object built around an empty kind, as an assignment to the
    [obligations] attribute can leave it. *)
Definition sample_malformed : ChavaObject :=
  {| value := sample_value; obligations := [("", "/comment")]; evidence := [] |}.

(** A resolver for the closed examples on merged values: the positions [/0]
    and [/1] of a list, members of dictionaries otherwise. *)
Definition position_pointer (doc : Value) (pointer : string) : option Value :=
  match doc with
  | VList items =>
      if String.eqb pointer "/0" then items !! 0%nat
      else if String.eqb pointer "/1" then items !! 1%nat
      else None
  | _ => member_pointer doc pointer
  end.

(** ** chava/indexes.py, the rest of the two obligation indexes *)

Section PyDictDel.
Context {K V : Type} `{EqDecision K}.

(** [del d[k]] for a key that is present. *)
Fixpoint dict_del (d : list (K * V)) (k : K) : list (K * V) :=
  match d with
  | [] => []
  | (k', v) :: rest => if decide (k' = k) then rest else (k', v) :: dict_del rest k
  end.
End PyDictDel.

Module InvertedObligationIndex.

(** [index] is a [defaultdict(set)]: reading a missing kind with
    [index[kind]] creates the empty set there. *)
Record t := { index : gmap string (gset string) }.

Definition init : t := {| index := ∅ |}.

Definition add (self : t) (obj_id : string) (obligations : list (string * string)) : t :=
  fold_left
    (fun self o =>
       let kind := o.1 in
       {| index := <[kind := default ∅ (self.(index) !! kind) ∪ {[obj_id]}]> self.(index) |})
    obligations self.

(** The list is in the iteration order of the set, which Python leaves
    open; [elements] fixes one. *)
Definition get_objects_with_kind (self : t) (kind : string) : list string :=
  elements (default (∅ : gset string) (self.(index) !! kind)).

Definition remove_obligation (self : t) (obj_id kind scope : string) : t :=
  match self.(index) !! kind with
  | Some ids =>
      if decide (obj_id ∈ ids) then
        let ids := ids ∖ {[obj_id]} in
        if decide (ids = ∅) then {| index := delete kind self.(index) |}
        else {| index := <[kind := ids]> self.(index) |}
      else self
  | None => self
  end.

(** No kind is left with an empty set. *)
Definition no_empty_bucket (self : t) : Prop :=
  ∀ kind ids, self.(index) !! kind = Some ids → ids ≠ ∅.

End InvertedObligationIndex.

(** [HierarchicalPointerIndex.remove_obligation] and [_remove_from_path]. *)
Module PointerIndexRemoval.
Import HierarchicalPointerIndex.

Definition is_empty_node (n : TrieNode) : bool :=
  bool_decide (object_ids n = ∅) && match children n with [] => true | _ => false end.

(** The node [node] after the call; the child is changed in place, and
    deleted when it is left without ids and without children. *)
Fixpoint _remove_from_path (obj_id : string) (components : list string)
    (node : TrieNode) : TrieNode :=
  match components with
  | [] => Node (children node) (object_ids node ∖ {[obj_id]})
  | comp :: rest =>
      match dict_get (children node) comp with
      | Some child_node =>
          let child_node := _remove_from_path obj_id rest child_node in
          if is_empty_node child_node
          then Node (dict_del (children node) comp) (object_ids node)
          else Node (dict_set (children node) comp child_node) (object_ids node)
      | None => node
      end
  end.

Definition remove_obligation (self : t) (obj_id scope : string) : t :=
  if String.eqb scope "" then
    {| root := Node (children self.(root)) (object_ids self.(root) ∖ {[obj_id]}) |}
  else
    let components := _split_path scope in
    {| root := _remove_from_path obj_id components self.(root) |}.

(** The ids recorded at the node of a path; none where there is no node. *)
Definition stored (self : t) (q : list string) : gset string :=
  default ∅ (ids_at q self.(root)).

(** No node other than the root is without ids and without children. *)
Inductive pruned : TrieNode → Prop :=
  | pruned_node c ids :
      Forall (fun kv => is_empty_node kv.2 = false ∧ pruned kv.2) c →
      pruned (Node c ids).

(** The indexes a program can hold: built from the empty one by [add] and
    [remove_obligation]. *)
Inductive reachable : t → Prop :=
  | reachable_init : reachable init
  | reachable_add self obj_id obligations :
      reachable self → reachable (add self obj_id obligations)
  | reachable_remove self obj_id scope :
      reachable self → reachable (remove_obligation self obj_id scope).

End PointerIndexRemoval.

(** ** chava/verifiers.py *)

(** [VerifierRegistry.register]. *)
Definition register (_registry : gmap string Verifier) (kind : string)
    (verifier_fn : Verifier) : gmap string Verifier :=
  <[kind := verifier_fn]> _registry.

(** [repr(v)] and [str(v)] of a JSON tree; a float is written by its
    [repr], a string inside a list or a dictionary by [repr] as well. *)
Fixpoint py_repr (v : Value) : string :=
  match v with
  | VNull => "None"
  | VBool true => "True"
  | VBool false => "False"
  | VNum n => dumps_number n
  | VStr s => repr_str s
  | VList items => "[" +:+ join ", " (List.map py_repr items) +:+ "]"
  | VDict items =>
      "{" +:+ join ", " (List.map (fun kv => repr_str kv.1 +:+ ": " +:+ py_repr kv.2) items)
          +:+ "}"
  end.

Definition py_str (v : Value) : string :=
  match v with
  | VStr s => s
  | _ => py_repr v
  end.

(** [str.lower] on the code points below 256: the letters A to Z, and the
    accented capitals from 192 to 222, the sign at 215 apart. *)
Definition lower_char (c : ascii) : ascii :=
  let n := code c in
  if ((65 <=? n) && (n <=? 90)) || ((192 <=? n) && (n <=? 222) && negb (n =? 215))
  then chr (n + 32) else c.

Fixpoint lower (s : string) : string :=
  match s with
  | EmptyString => EmptyString
  | String c rest => String (lower_char c) (lower rest)
  end.

(** [str.isspace] on the code points below 256. *)
Definition is_space (c : ascii) : bool :=
  let n := code c in
  ((9 <=? n) && (n <=? 13)) || ((28 <=? n) && (n <=? 32)) || (n =? 133) || (n =? 160).

Fixpoint lstrip (s : string) : string :=
  match s with
  | EmptyString => EmptyString
  | String c rest => if is_space c then lstrip rest else s
  end.

Definition strip (s : string) : string :=
  let reversed s := string_of_list_ascii (rev (list_ascii_of_string s)) in
  reversed (lstrip (reversed (lstrip s))).

Definition dangerous_patterns : list string :=
  ["\bdrop\s+table\b";
   "\btruncate\s+\w+\b";
   "\balter\s+table\b";
   "\bdelete\s+from\s+\w+\b";
   "\bupdate\s+\w+\s+set\b.*\bwhere\b\s*$";
   "\bexec\b";
   "\bsp_.*\b";
   "\binsert\s+into\s+\w+\s+values\b.*\bselect\b"].

Definition injection_patterns : list string :=
  ["';\s*";
   ";\s*drop";
   ";\s*truncate";
   ";\s*alter";
   "\bunion\s+select\b"].

Definition pii_patterns : list string :=
  ["\b\d{3}-\d{3}-\d{4}\b";
   "\b\(\d{3}\)\s*\d{3}-\d{4}\b";
   "\b\d{10}\b";
   "\b[a-zA-Z0-9._%+-]+@[a-zA-Z0-9.-]+\.[a-zA-Z]{2,}\b";
   "\b\d{3}-\d{2}-\d{4}\b";
   "\b\d{4}[\s-]?\d{4}[\s-]?\d{4}[\s-]?\d{4}\b"].

(** [isinstance(v, int)] holds of the integers and of the booleans, [bool]
    being a subclass of [int]. *)
Definition isinstance_int (v : Value) : bool :=
  match v with
  | VNum (Int _) | VBool _ => true
  | _ => false
  end.

Definition isinstance_str (v : Value) : bool :=
  match v with
  | VStr _ => true
  | _ => false
  end.

Definition required_fields : list (string * (Value → bool)) :=
  [("id", isinstance_int); ("name", isinstance_str)].

Fixpoint schema_loop (fields : list (string * (Value → bool)))
    (value : list (string * Value)) : string :=
  match fields with
  | [] => "accept"
  | (field_name, expected_type) :: rest =>
      match dict_get value field_name with
      | None => "reject"
      | Some field =>
          if negb (expected_type field) then "reject" else schema_loop rest value
      end
  end.

Definition schema_validator : Verifier := fun value scope =>
  match value with
  | VDict items => schema_loop required_fields items
  | _ => "reject"
  end.

Section WithRegex.

(** [re.search(pattern, text)] read as a truth value: whether there is a
    match. *)
Variable re_search : string → string → bool.

Definition sql_safe_verifier : Verifier := fun value scope =>
  match value with
  | VNull => "reject"
  | _ =>
      let sql_lower := strip (lower (py_str value)) in
      if existsb (fun pattern => re_search pattern sql_lower) dangerous_patterns
      then "reject"
      else if existsb (fun pattern => re_search pattern sql_lower) injection_patterns
      then "reject"
      else "accept"
  end.

Definition pii_clean_verifier : Verifier := fun value scope =>
  match value with
  | VNull => "accept"
  | _ =>
      let text := py_str value in
      if existsb (fun pattern => re_search pattern text) pii_patterns
      then "reject"
      else "accept"
  end.

Definition get_default_registry : gmap string Verifier :=
  let registry := ∅ in
  let registry := register registry "sql_safe" sql_safe_verifier in
  let registry := register registry "pii_clean" pii_clean_verifier in
  let registry := register registry "schema_ok" schema_validator in
  registry.

End WithRegex.

(** ** chava/operators.py *)

Definition filter_cleared (objects : list ChavaObject) : list ChavaObject :=
  List.filter is_cleared objects.

Section Operators.

Variable resolve_pointer : Value → string → option Value.

(** The loop of [inject_verification] from the object at position [i] on;
    [now i] is the clock as the object at position [i] is discharged. *)
Fixpoint inject_loop (objects : list ChavaObject) (kind : string)
    (registry : gmap string Verifier) (verifier_id : string) (now : nat → Number)
    (i : nat) (results : list ChavaObject) : Result (list ChavaObject) :=
  match objects with
  | [] => Return results
  | obj :: rest =>
      let has_kind := existsb (fun o => String.eqb o.1 kind) obj.(obligations) in
      if has_kind then
        discharged_obj ← discharge resolve_pointer obj kind "" registry verifier_id (now i);
        inject_loop rest kind registry verifier_id now (S i) (results ++ [discharged_obj])
      else inject_loop rest kind registry verifier_id now (S i) (results ++ [obj])
  end.

Definition inject_verification (objects : list ChavaObject) (kind : string)
    (registry : gmap string Verifier) (verifier_id : string) (now : nat → Number)
    : Result (list ChavaObject) :=
  inject_loop objects kind registry verifier_id now 0 [].

End Operators.

(** A matcher for the closed examples: it finds no match. *)
Definition no_match : string → string → bool := fun _ _ => false.

(** An object whose obligations all have a scope. *)
Definition sample_all_scoped : ChavaObject :=
  {| value := sample_nested;
     obligations := [("pii_clean", "/comment/text"); ("sql_safe", "/comment")];
     evidence := [] |}.

(** ** chava/kms.py, the storage *)

(** [b.decode()]: UTF-8 read back into the code points below 256. [None]
    stands for [UnicodeDecodeError], and for the bytes of a character above
    255, which the strings here do not hold; [encode] writes none. *)
Fixpoint decode (b : bytes) : option string :=
  match b with
  | [] => Some EmptyString
  | x :: rest =>
      let n := Z_of_byte x in
      if n <? 128 then String (chr n) <$> decode rest
      else
        match rest with
        | y :: rest' =>
            let m := Z_of_byte y in
            if ((n =? 194) || (n =? 195)) && (128 <=? m) && (m <? 192)
            then String (chr (Z.lor (Z.shiftl (Z.land n 31) 6) (Z.land m 63)))
                   <$> decode rest'
            else None
        | [] => None
        end
  end.

(** What [retrieve] can raise: an exception of the core, its own
    [CryptographicException], [InvalidTag] of the cipher, or
    [UnicodeDecodeError]. *)
Inductive StorageException :=
  | Core (e : PyException)
  | CryptographicException (msg : string)
  | InvalidTag
  | UnicodeDecodeError.

Module ObligationKeyedStorage.

Definition Entry : Type := bytes * list (string * string) * list EvidenceRecord.

Record t := {
  kms : KeyManagementService.t;
  storage : list (string * Entry)
}.

Definition init (kms : KeyManagementService.t) : t := {| kms := kms; storage := [] |}.

Section WithCipher.

(** [AESGCM(key).encrypt(nonce, data, None)] and
    [AESGCM(key).decrypt(nonce, data, None)]; [None] stands for
    [InvalidTag]. *)
Variable AESGCM_encrypt : bytes → bytes → bytes → bytes.
Variable AESGCM_decrypt : bytes → bytes → bytes → option bytes.

(** [nonce] is what [os.urandom(12)] returns in the call. *)
Definition store (self : t) (obj_id : string) (obj : ChavaObject) (nonce : bytes) : t :=
  let encryption_key :=
    KeyManagementService.derive_key self.(kms) obj.(obligations)
      self.(kms).(KeyManagementService.server_secret) in
  let value_bytes := encode (py_str obj.(value)) in
  let encrypted_value := AESGCM_encrypt encryption_key nonce value_bytes in
  let stored_data := nonce ++ encrypted_value in
  {| kms := self.(kms);
     storage := dict_set self.(storage) obj_id
                  (stored_data, obj.(obligations), obj.(evidence)) |}.

Definition retrieve (self : t) (obj_id : string) : StorageException + ChavaObject :=
  match dict_get self.(storage) obj_id with
  | None => inl (Core (KeyError ("Object " +:+ obj_id +:+ " not found")))
  | Some (stored_data, obligations, evidence) =>
      match ChavaObject_init VNull obligations evidence with
      | Raise e => inl (Core e)
      | Return temp_obj =>
          match KeyManagementService.verify_and_release_key self.(kms) temp_obj with
          | None =>
              inl (CryptographicException
                     ("Cannot decrypt object " +:+ obj_id
                      +:+ ": not cleared or verification failed"))
          | Some key =>
              let nonce := firstn 12 stored_data in
              let ciphertext := skipn 12 stored_data in
              match AESGCM_decrypt key nonce ciphertext with
              | None => inl InvalidTag
              | Some decrypted_value =>
                  match decode decrypted_value with
                  | None => inl UnicodeDecodeError
                  | Some text =>
                      match ChavaObject_init (VStr text) obligations evidence with
                      | Raise e => inl (Core e)
                      | Return obj => inr obj
                      end
                  end
              end
          end
      end
  end.

End WithCipher.

End ObligationKeyedStorage.

(** A stand-in cipher for the closed examples: the data reversed, whatever
    the key and the nonce. *)
Definition sample_encrypt (key nonce data : bytes) : bytes := rev data.
Definition sample_decrypt (key nonce data : bytes) : option bytes := Some (rev data).

Definition sample_nonce : bytes := List.repeat x2a 12.


(** ** The library models against known values *)

Example sha256_constants :
  nth 0 SHA256.K 0 = 0x428a2f98 /\ nth 63 SHA256.K 0 = 0xc67178f2 /\
  List.length SHA256.K = 64%nat /\
  nth 0 SHA256.H0 0 = 0x6a09e667 /\ nth 7 SHA256.H0 0 = 0x5be0cd19.
Proof. vm_compute. repeat split. Qed.

Example sha256_abc :
  SHA256.hexdigest (encode "abc")
  = "ba7816bf8f01cfea414140de5dae2223b00361a396177a9cb410ff61f20015ad".
Proof. vm_compute. reflexivity. Qed.

Example sha256_empty :
  SHA256.hexdigest []
  = "e3b0c44298fc1c149afbf4c8996fb92427ae41e4649b934ca495991b7852b855".
Proof. vm_compute. reflexivity. Qed.

Example sha256_two_blocks :
  SHA256.hexdigest (encode "abcdbcdecdefdefgefghfghighijhijkijkljklmklmnlmnomnopnopq")
  = "248d6a61d20638b8e5c026930c3e6039a33ce45964ff2167f6ecedd419db06c1".
Proof. vm_compute. reflexivity. Qed.

Example hmac_example :
  hexlify (hmac_sha256 (encode "key") (encode "The quick brown fox jumps over the lazy dog"))
  = "f7bc83f430538424b13298e6aa6fb143ef4d59a14946175997479dbc2d1a3cd8".
Proof. vm_compute. reflexivity. Qed.

Example pbkdf2_examples :
  hexlify (PBKDF2HMAC 32 (encode "salt") 1 (encode "password"))
  = "120fb6cffcf8b32c43e7225256c4f837a86548c92ccc35480805987cb70be17b" /\
  hexlify (PBKDF2HMAC 32 (encode "salt") 2 (encode "password"))
  = "ae4d0c95af6b46d32d0adff928f06dd02a303f8ef3c251dfd6e2d85a95474c43".
Proof. vm_compute. split; reflexivity. Qed.

Example json_dumps_example :
  json_dumps true (VList [VNum (Int 1);
     VDict [("b", VNull); ("a", VList [VBool true; VBool false; VNum (Float "1.5")])]])
  = "[1, {" +:+ dquote +:+ "a" +:+ dquote +:+ ": [true, false, 1.5], "
     +:+ dquote +:+ "b" +:+ dquote +:+ ": null}]".
Proof. vm_compute. reflexivity. Qed.

Example str_pairs_example :
  str_pairs (sorted [("b", "/x"); ("a", "/y"); ("a", "")])
  = "[('a', ''), ('a', '/y'), ('b', '/x')]".
Proof. vm_compute. reflexivity. Qed.

Example dumps_str_example :
  dumps_str ("tab" +:+ String (chr 9) (String (chr 233) (String (chr 127) "")))
  = dquote +:+ "tab\t\u00e9\u007f" +:+ dquote.
Proof. vm_compute. reflexivity. Qed.

Example repr_str_examples :
  repr_str "it's" = dquote +:+ "it's" +:+ dquote ∧
  repr_str (String (chr 160) (String (chr 233) (String (chr 10) "")))
  = "'\xa0" +:+ String (chr 233) "" +:+ "\n'".
Proof. vm_compute. split; reflexivity. Qed.

Example salt_of_no_obligation :
  SHA256.hexdigest (encode (str_pairs (sorted [])))
  = "4f53cda18c2baa0c0354bb5f9a3ecbe5ed12ab4d8e11ba873c2f11161202b945".
Proof. vm_compute. reflexivity. Qed.

(** ** The embedding on the cases of the test suite *)

Example relscope_basic :
  relscope "/comment/text" "/comment" = "/text" ∧
  relscope "/comment" "/comment" = "" ∧
  relscope "" "/any/path" = "" ∧
  relscope "/a/b/c" "/a" = "/b/c".
Proof. repeat split. Qed.

Example hash_chain_integrity :
  verify_evidence_chain [] = true ∧
  verify_evidence_chain [sample_chained] = true ∧
  verify_evidence_chain [sample_tampered] = false.
Proof. vm_compute. repeat split. Qed.

Example discharge_keeps_chain :
  ∃ o', discharge member_pointer sample_object "sql_safe" "" sample_registry
                  "sql_verifier" (Float "1700000000.25") = Return o' ∧
        List.length o'.(evidence) = 2%nat ∧
        verify_evidence_chain o'.(evidence) = true.
Proof. eexists. split; [reflexivity|]. vm_compute. split; reflexivity. Qed.

(* ===================================================================== *)
(** * Properties of unwrap and of the KMS release *)
(* ===================================================================== *)

Lemma is_cleared_iff (o : ChavaObject) :
  is_cleared o = true ↔ o.(obligations) = [] ∧ has_conflict o.(evidence) = false.
Proof.
  unfold is_cleared. destruct (obligations o) as [|ob obs]; simpl.
  - destruct (has_conflict (evidence o)); simpl; intuition congruence.
  - intuition congruence.
Qed.

Lemma unwrap_of_cleared (o : ChavaObject) :
  is_cleared o = true → unwrap o = Return o.(value).
Proof. unfold unwrap. by intros ->. Qed.

Lemma unwrap_of_uncleared (o : ChavaObject) :
  is_cleared o = false →
  unwrap o = Raise (ObligationViolation (list_to_set (List.map fst o.(obligations)))).
Proof. unfold unwrap. by intros ->. Qed.

(** C1. [unwrap o] returns [o.value] exactly when [o] is cleared, that is when
    it has no obligation and its evidence has no reject-then-accept conflict;
    with an obligation left or with such a conflict it raises
    [ObligationViolation] carrying the set of the kinds of the obligations
    left. A value it returns is therefore never partially verified. *)
Theorem unwrap_cleared_or_violation (o : ChavaObject) :
  (is_cleared o = true ↔ o.(obligations) = [] ∧ has_conflict o.(evidence) = false) ∧
  (is_cleared o = true → unwrap o = Return o.(value)) ∧
  (o.(obligations) ≠ [] ∨ has_conflict o.(evidence) = true →
   unwrap o = Raise (ObligationViolation (list_to_set (List.map fst o.(obligations))))) ∧
  (∀ v, unwrap o = Return v →
        v = o.(value) ∧ o.(obligations) = [] ∧ has_conflict o.(evidence) = false).
Proof.
  split; [apply is_cleared_iff|]. split; [apply unwrap_of_cleared|]. split.
  - intros H. apply unwrap_of_uncleared.
    destruct (is_cleared o) eqn:Hc; [|done].
    apply is_cleared_iff in Hc as [Ho Hh]. destruct H; congruence.
  - intros v Hv. destruct (is_cleared o) eqn:Hc.
    + rewrite (unwrap_of_cleared o Hc) in Hv.
      apply is_cleared_iff in Hc as [Ho Hh]. by simplify_eq.
    + by rewrite (unwrap_of_uncleared o Hc) in Hv.
Qed.

Lemma unwrap_cleared_or_violation_witness :
  unwrap {| value := sample_value; obligations := []; evidence := [sample_accept] |}
  = Return sample_value ∧
  unwrap {| value := sample_value;
            obligations := [("pii_clean", "/comment"); ("sql_safe", "")];
            evidence := [] |}
  = Raise (ObligationViolation {["pii_clean"; "sql_safe"]}) ∧
  unwrap {| value := sample_value; obligations := [];
            evidence := [sample_reject; sample_accept] |}
  = Raise (ObligationViolation ∅).
Proof.
  split; [|split].
  - apply (unwrap_cleared_or_violation
             {| value := sample_value; obligations := []; evidence := [sample_accept] |}).
    vm_compute. reflexivity.
  - etransitivity.
    + apply (unwrap_cleared_or_violation
               {| value := sample_value;
                  obligations := [("pii_clean", "/comment"); ("sql_safe", "")];
                  evidence := [] |}).
      left. discriminate.
    + vm_compute. reflexivity.
  - apply (unwrap_cleared_or_violation
             {| value := sample_value; obligations := [];
                evidence := [sample_reject; sample_accept] |}).
    right. vm_compute. reflexivity.
Defined.

Import KeyManagementService.

Lemma release_refused (kms : KeyManagementService.t) (o : ChavaObject) :
  o.(obligations) ≠ [] ∨ verify_evidence_chain o.(evidence) = false
  ∨ has_conflict o.(evidence) = true →
  verify_and_release_key kms o = None.
Proof.
  unfold verify_and_release_key. intros [H | [H | H]].
  - destruct (obligations o); [congruence | reflexivity].
  - rewrite H. simpl. by destruct (0 <? _)%nat.
  - rewrite H. destruct (0 <? _)%nat; [done|]. by destruct (negb _).
Qed.

Lemma release_granted (kms : KeyManagementService.t) (o : ChavaObject) :
  o.(obligations) = [] → verify_evidence_chain o.(evidence) = true →
  has_conflict o.(evidence) = false →
  verify_and_release_key kms o = Some (derive_key kms [] kms.(server_secret)).
Proof. unfold verify_and_release_key. by intros -> -> ->. Qed.

(** C2. [verify_and_release_key] gives nothing ([None]) for an object with an
    obligation left, or whose evidence chain does not verify, or whose
    evidence has a conflict; for every other object it gives the cleared key
    [derive_key [] σ], σ the secret of the service. *)
Theorem verify_and_release_key_gated (kms : KeyManagementService.t) (o : ChavaObject) :
  (o.(obligations) ≠ [] ∨ verify_evidence_chain o.(evidence) = false
   ∨ has_conflict o.(evidence) = true →
   verify_and_release_key kms o = None) ∧
  (o.(obligations) = [] → verify_evidence_chain o.(evidence) = true →
   has_conflict o.(evidence) = false →
   verify_and_release_key kms o = Some (derive_key kms [] kms.(server_secret))).
Proof. split; [apply release_refused | apply release_granted]. Qed.

Lemma verify_and_release_key_gated_witness :
  verify_and_release_key sample_kms
    {| value := VNull; obligations := []; evidence := [sample_chained] |}
  = Some (derive_key sample_kms [] (encode "test_secret")) ∧
  verify_and_release_key sample_kms
    {| value := VNull; obligations := [("sql_safe", "")]; evidence := [] |}
  = None.
Proof.
  split.
  - apply (verify_and_release_key_gated sample_kms
             {| value := VNull; obligations := []; evidence := [sample_chained] |});
      vm_compute; reflexivity.
  - apply (verify_and_release_key_gated sample_kms
             {| value := VNull; obligations := [("sql_safe", "")]; evidence := [] |}).
    left. discriminate.
Defined.

(** [has_conflict] reads the [kind] and the [result] of the records and
    nothing else. *)
Lemma group_verdict_reads (d : list (option string * list string)) (r1 r2 : EvidenceRecord) :
  r1.(kind) = r2.(kind) → r1.(result) = r2.(result) →
  group_verdict d r1 = group_verdict d r2.
Proof. unfold group_verdict. by intros -> ->. Qed.

Lemma has_conflict_reads (e1 e2 : list EvidenceRecord) :
  Forall2 (fun r1 r2 => r1.(kind) = r2.(kind) ∧ r1.(result) = r2.(result)) e1 e2 →
  has_conflict e1 = has_conflict e2.
Proof.
  intros H. unfold has_conflict. f_equal.
  generalize (@nil (option string * list string)).
  induction H as [|r1 r2 e1 e2 [Hk Hr] _ IH]; intros d; simpl; [done|].
  rewrite (group_verdict_reads d r1 r2 Hk Hr). apply IH.
Qed.

(** C10. An object with no obligation and conflict-free evidence is unwrapped
    to its value whatever the state of its hash chain: [unwrap] gives the
    same outcome for any other [hash] and [prev_hash] fields in the evidence,
    so also when [verify_evidence_chain] fails, and in that case only the
    release of the key by the KMS is refused. *)
Theorem unwrap_ignores_chain (kms : KeyManagementService.t) (o : ChavaObject) :
  o.(obligations) = [] → has_conflict o.(evidence) = false →
  unwrap o = Return o.(value) ∧
  (∀ e', Forall2 (fun r r' => r.(kind) = r'.(kind) ∧ r.(result) = r'.(result))
                 o.(evidence) e' →
         unwrap {| value := o.(value); obligations := o.(obligations); evidence := e' |}
         = unwrap o) ∧
  (verify_evidence_chain o.(evidence) = false → verify_and_release_key kms o = None).
Proof.
  intros Ho Hc. split; [|split].
  - apply unwrap_of_cleared, is_cleared_iff. done.
  - intros e' He. unfold unwrap, is_cleared. simpl.
    by rewrite (has_conflict_reads _ _ He).
  - intros Hv. apply release_refused. auto.
Qed.

Lemma unwrap_ignores_chain_witness :
  verify_evidence_chain [sample_tampered] = false ∧
  unwrap {| value := sample_value; obligations := []; evidence := [sample_tampered] |}
  = Return sample_value ∧
  verify_and_release_key sample_kms
    {| value := sample_value; obligations := []; evidence := [sample_tampered] |}
  = None.
Proof.
  pose proof (unwrap_ignores_chain sample_kms
    {| value := sample_value; obligations := []; evidence := [sample_tampered] |}
    eq_refl ltac:(vm_compute; reflexivity)) as (Hu & _ & Hk).
  assert (Hv : verify_evidence_chain [sample_tampered] = false)
    by (vm_compute; reflexivity).
  exact (conj Hv (conj Hu (Hk Hv))).
Defined.

(* ===================================================================== *)
(** * Properties of relscope *)
(* ===================================================================== *)

Lemma str_prefix_refl (s : string) : String.prefix s s = true.
Proof. induction s as [|c s IH]; simpl; [done|]. by destruct (ascii_dec c c). Qed.

Lemma str_prefix_empty (s : string) : String.prefix "" s = true.
Proof. by destruct s. Qed.

Lemma str_prefix_app_l (a c s : string) :
  String.prefix (a +:+ c) s = true → String.prefix a s = true.
Proof.
  revert s. induction a as [|x a IH]; intros [|y s]; simpl; try done.
  destruct (ascii_dec x y); [apply IH | done].
Qed.

Lemma drop_chars_all (s : string) : drop_chars (String.length s) s = "".
Proof. induction s; simpl; done. Qed.

Lemma drop_chars_prefix (b : string) (c : ascii) (s : string) :
  String.prefix (b +:+ String c "") s = true →
  drop_chars (String.length b) s = String c (drop_chars (String.length b + 1) s).
Proof.
  revert s. induction b as [|x b IH]; intros [|y s]; simpl; try done.
  - destruct (ascii_dec c y) as [->|]; [|done]. by destruct s.
  - destruct (ascii_dec x y); [apply IH | done].
Qed.

Lemma lstrip_slash_idemp (s : string) : lstrip_slash (lstrip_slash s) = lstrip_slash s.
Proof.
  induction s as [|c s IH]; simpl; [done|].
  destruct (Ascii.eqb c "/") eqn:E; [done|]. simpl. by rewrite E.
Qed.

Lemma eqb_empty (s : string) : String.eqb s "" = true ↔ s = "".
Proof. apply String.eqb_eq. Qed.

(** C4, as the code has it. With [s] and [b] the scope and the base without
    their leading slashes: [relscope] gives the empty scope for an empty
    scope, for [s = b], and whenever [s] does not begin with [b]; when [s]
    begins with [b] and a slash it gives a slash and the remainder without
    its leading slashes, or the empty scope when nothing remains; and when
    [b] is empty (the base is the root) it gives a slash and [s]. Nothing is
    said of an [s] that begins with a non-empty [b] with no slash after it. *)
Theorem relscope_cases (scope base : string) :
  (scope = "" → relscope scope base = "") ∧
  (lstrip_slash scope = lstrip_slash base → relscope scope base = "") ∧
  (startswith (lstrip_slash scope) (lstrip_slash base) = false →
   relscope scope base = "") ∧
  (startswith (lstrip_slash scope) (lstrip_slash base +:+ "/") = true →
   relscope scope base =
     let remainder :=
       lstrip_slash (drop_chars (String.length (lstrip_slash base) + 1)
                                (lstrip_slash scope)) in
     if String.eqb remainder "" then "" else "/" +:+ remainder) ∧
  (lstrip_slash base = "" → lstrip_slash scope ≠ "" →
   relscope scope base = "/" +:+ lstrip_slash scope).
Proof.
  unfold relscope, startswith. repeat split.
  - by intros ->.
  - intros <-. destruct (String.eqb scope ""); [done|].
    rewrite str_prefix_refl, drop_chars_all. done.
  - intros ->. by destruct (String.eqb scope "").
  - intros H. destruct (String.eqb scope "") eqn:E.
    { apply eqb_empty in E as ->. simpl in H.
      by destruct (lstrip_slash base). }
    rewrite (str_prefix_app_l _ _ _ H), (drop_chars_prefix _ _ _ H). simpl.
    by destruct (String.eqb (lstrip_slash _) "").
  - intros -> Hs. destruct (String.eqb scope "") eqn:E.
    { apply eqb_empty in E as ->. by simpl in Hs. }
    simpl. rewrite str_prefix_empty, lstrip_slash_idemp.
    destruct (String.eqb (lstrip_slash scope) "") eqn:E'; [|done].
    by apply eqb_empty in E'.
Qed.

Lemma relscope_cases_witness :
  relscope "" "/any/path" = "" ∧
  relscope "/comment" "/comment" = "" ∧
  relscope "/a" "/a/b" = "" ∧
  relscope "/a/b/c" "/a" = "/b/c" ∧
  relscope "/x" "" = "/x".
Proof.
  split; [|split; [|split; [|split]]].
  - destruct (relscope_cases "" "/any/path") as (H & _). by apply H.
  - destruct (relscope_cases "/comment" "/comment") as (_ & H & _). by apply H.
  - destruct (relscope_cases "/a" "/a/b") as (_ & _ & H & _). by apply H.
  - destruct (relscope_cases "/a/b/c" "/a") as (_ & _ & _ & H & _). by apply H.
  - destruct (relscope_cases "/x" "") as (_ & _ & _ & _ & H). by apply H.
Defined.

(** C4, as it is worded, fails on the code: against the root a scope keeps
    its path where the wording gives the empty scope, and a base that is a
    prefix of the scope's first segment ([/a] of [/ab]) is cut off it. *)
Lemma relscope_not_as_specified :
  relscope "/x" "" = "/x" ∧ relscope_as_specified "/x" "" = "" ∧
  relscope "/x" "" ≠ relscope_as_specified "/x" "" ∧
  relscope "/ab" "/a" = "/b" ∧ relscope_as_specified "/ab" "/a" = "" ∧
  relscope "/ab" "/a" ≠ "".
Proof. repeat split; discriminate. Qed.

(* ===================================================================== *)
(** * Properties of the evidence hash *)
(* ===================================================================== *)

(** The string [compute_evidence_hash] hashes. *)
Lemma canonical_str_layout (r : EvidenceRecord) :
  json_dumps true
    (VDict [("ver", VStr r.(verifier_id)); ("res", VStr r.(result));
            ("ts", VNum r.(timestamp)); ("prev", VStr (default "" r.(prev_hash)))])
  = "{" +:+ join ", "
              [dumps_str "prev" +:+ ": " +:+ dumps_str (default "" r.(prev_hash));
               dumps_str "res" +:+ ": " +:+ dumps_str r.(result);
               dumps_str "ts" +:+ ": " +:+ dumps_number r.(timestamp);
               dumps_str "ver" +:+ ": " +:+ dumps_str r.(verifier_id)]
        +:+ "}".
Proof. reflexivity. Qed.

(** C7, as the code has it. The hash of a record is the hexadecimal SHA-256
    of the JSON object of its four fields under the keys [prev], [res],
    [ts], [ver], in that (sorted) order, written as [json.dumps] writes by
    default: a comma and a space between the items, a colon and a space
    after each key. No other field enters: records that agree on the
    verifier, the result, the timestamp and the previous hash have the same
    hash, whatever their kind and scope. *)
Theorem compute_evidence_hash_fields (r : EvidenceRecord) :
  compute_evidence_hash r
  = SHA256.hexdigest (encode
      ("{" +:+ join ", "
                 [dumps_str "prev" +:+ ": " +:+ dumps_str (default "" r.(prev_hash));
                  dumps_str "res" +:+ ": " +:+ dumps_str r.(result);
                  dumps_str "ts" +:+ ": " +:+ dumps_number r.(timestamp);
                  dumps_str "ver" +:+ ": " +:+ dumps_str r.(verifier_id)]
           +:+ "}")) ∧
  ∀ r' : EvidenceRecord,
    r'.(verifier_id) = r.(verifier_id) → r'.(result) = r.(result) →
    r'.(timestamp) = r.(timestamp) →
    default "" r'.(prev_hash) = default "" r.(prev_hash) →
    compute_evidence_hash r' = compute_evidence_hash r.
Proof.
  split.
  - unfold compute_evidence_hash. by rewrite canonical_str_layout.
  - intros r' Hv Hr Ht Hp. unfold compute_evidence_hash.
    by rewrite Hv, Hr, Ht, Hp.
Qed.

Lemma compute_evidence_hash_fields_witness :
  compute_evidence_hash sample_rescoped = compute_evidence_hash sample_chained.
Proof.
  by apply (proj2 (compute_evidence_hash_fields sample_chained) sample_rescoped).
Defined.

(** C7, as it is worded, fails on the code: the serialization the code hashes
    has a space after each comma and colon, so its hash is not that of the
    form without whitespace. *)
Lemma compute_evidence_hash_not_compact :
  compute_evidence_hash sample_chained
  = "fc6a2e9bec651a706c88cbfe8b5a6bd34727350888e792f7fb9f6aea0272eed9" ∧
  evidence_hash_as_specified sample_chained
  = "3f18aef98553dcc45deb5740b5b515108df280d7e2355103aa5427288c9628eb" ∧
  compute_evidence_hash sample_chained ≠ evidence_hash_as_specified sample_chained.
Proof.
  assert (H1 : compute_evidence_hash sample_chained
    = "fc6a2e9bec651a706c88cbfe8b5a6bd34727350888e792f7fb9f6aea0272eed9")
    by (vm_compute; reflexivity).
  assert (H2 : evidence_hash_as_specified sample_chained
    = "3f18aef98553dcc45deb5740b5b515108df280d7e2355103aa5427288c9628eb")
    by (vm_compute; reflexivity).
  split; [done|]. split; [done|]. rewrite H1, H2. discriminate.
Qed.

(* ===================================================================== *)
(** * Properties of derive_key *)
(* ===================================================================== *)

Lemma compare_refl (s : string) : String.compare s s = Eq.
Proof.
  pose proof (String.compare_antisym s s) as H.
  by destruct (String.compare s s).
Qed.

Lemma compare_lt_trans (a b c : string) :
  String.compare a b = Lt → String.compare b c = Lt → String.compare a c = Lt.
Proof.
  intros H1 H2.
  exact (@StrictOrder_Transitive _ _ String_as_OT.lt_strorder a b c H1 H2).
Qed.

Lemma str_le_trans (a b c : string) : str_le a b → str_le b c → str_le a c.
Proof.
  unfold str_le, String.leb. intros H1 H2.
  destruct (String.compare a b) eqn:Eab; [| |done].
  - apply String.compare_eq_iff in Eab as ->. done.
  - destruct (String.compare b c) eqn:Ebc; [| |done].
    + apply String.compare_eq_iff in Ebc as <-. by rewrite Eab.
    + by rewrite (compare_lt_trans a b c Eab Ebc).
Qed.

#[global] Instance tuple_le_total : Total tuple_le.
Proof.
  intros a b. unfold tuple_le.
  rewrite (String.compare_antisym b.1 a.1).
  destruct (String.compare a.1 b.1); simpl; auto.
  apply String.leb_total.
Qed.

#[global] Instance tuple_le_antisym : AntiSymm (=) tuple_le.
Proof.
  intros [a1 a2] [b1 b2]. unfold tuple_le. simpl.
  rewrite (String.compare_antisym b1 a1).
  destruct (String.compare a1 b1) eqn:E; simpl; try done.
  apply String.compare_eq_iff in E as ->. intros H1 H2.
  f_equal. by apply String.leb_antisym.
Qed.

#[global] Instance tuple_le_trans : Transitive tuple_le.
Proof.
  intros [a1 a2] [b1 b2] [c1 c2]. unfold tuple_le. simpl.
  destruct (String.compare a1 b1) eqn:Eab; [| |done].
  - apply String.compare_eq_iff in Eab as ->.
    destruct (String.compare b1 c1); [|done|done]. apply str_le_trans.
  - destruct (String.compare b1 c1) eqn:Ebc; [| |done].
    + apply String.compare_eq_iff in Ebc as <-. by rewrite Eab.
    + by rewrite (compare_lt_trans a1 b1 c1 Eab Ebc).
Qed.

Lemma sorted_is_sorted (l : list (string * string)) :
  Sorted tuple_le (sorted l) ∧ sorted l ≡ₚ l.
Proof.
  split; [apply (Sorted_merge_sort _) | apply merge_sort_Permutation].
Qed.

Lemma sorted_of_permutation (l1 l2 : list (string * string)) :
  l1 ≡ₚ l2 → sorted l1 = sorted l2.
Proof.
  intros H. apply (Sorted_unique tuple_le); try apply sorted_is_sorted.
  by rewrite !(proj2 (sorted_is_sorted _)).
Qed.

Lemma map_pair_id (l : list (string * string)) :
  List.map (fun o => (o.1, o.2)) l = l.
Proof. induction l as [|[k s] l IH]; simpl; by f_equal. Qed.

(** C8. The key depends on the obligations as a multiset only: the list of
    pairs is sorted by kind, then by scope; the salt is the SHA-256 of the
    text of the sorted list; and two lists that are permutations of each
    other give the same key under every secret. *)
Theorem derive_key_order_independent (kms : KeyManagementService.t)
    (l1 l2 : list (string * string)) (σ : bytes) :
  l1 ≡ₚ l2 →
  derive_key kms l1 σ = derive_key kms l2 σ ∧
  derive_key kms l1 σ
  = PBKDF2HMAC 32 (SHA256.digest (encode (str_pairs (sorted l1)))) 100000 σ ∧
  Sorted tuple_le (sorted l1) ∧ sorted l1 ≡ₚ l1.
Proof.
  intros H. unfold derive_key. rewrite !map_pair_id.
  rewrite (sorted_of_permutation l1 l2 H).
  split; [done|]. split; [done|].
  rewrite <- (sorted_of_permutation l1 l2 H). split; [apply sorted_is_sorted|].
  apply sorted_is_sorted.
Qed.

Lemma derive_key_order_independent_witness :
  derive_key sample_kms [("sql_safe", ""); ("pii_clean", "/comment")] (encode "test_secret")
  = derive_key sample_kms [("pii_clean", "/comment"); ("sql_safe", "")] (encode "test_secret").
Proof.
  apply (derive_key_order_independent sample_kms
           [("sql_safe", ""); ("pii_clean", "/comment")]
           [("pii_clean", "/comment"); ("sql_safe", "")] (encode "test_secret")).
  apply perm_swap.
Defined.

(* ===================================================================== *)
(** * Properties of discharge *)
(* ===================================================================== *)

Lemma init_well_formed (v : Value) (obs : list (string * string))
    (ev : list EvidenceRecord) :
  Forall (fun ob => ob.1 ≠ "") obs →
  ChavaObject_init v obs ev = Return {| value := v; obligations := obs; evidence := ev |}.
Proof.
  intros H. unfold ChavaObject_init.
  destruct (List.find _ obs) as [ob|] eqn:E.
  - apply find_some in E as [Hin E]. apply String.eqb_eq in E.
    rewrite Forall_forall in H. apply list_elem_of_In in Hin. by apply H in Hin.
  - by rewrite map_pair_id.
Qed.

Lemma copy_well_formed (o : ChavaObject) : well_formed o → copy o = Return o.
Proof.
  intros H. unfold copy. rewrite map_pair_id, List.map_id.
  rewrite (init_well_formed _ _ _ H). by destruct o.
Qed.

Lemma list_remove_first {A} `{EqDecision A} (x : A) (l : list A) :
  x ∈ l →
  ∃ l1 l2, l = l1 ++ x :: l2 ∧ (x ∉ l1) ∧ list_remove x l = Return (l1 ++ l2).
Proof.
  induction l as [|y l IH]; intros Hin; [by apply elem_of_nil in Hin|].
  simpl. destruct (decide (y = x)) as [->|Hne].
  - exists [], l. split; [done|]. split; [apply not_elem_of_nil | done].
  - apply elem_of_cons in Hin as [->|Hin]; [done|].
    destruct (IH Hin) as (l1 & l2 & -> & Hn & ->).
    exists (y :: l1), l2. split; [done|]. split; [|done].
    rewrite elem_of_cons. intros [->|?]; done.
Qed.

Lemma count_app {A} `{EqDecision A} (x : A) (l1 l2 : list A) :
  count x (l1 ++ l2) = (count x l1 + count x l2)%nat.
Proof. unfold count. by rewrite filter_app, length_app. Qed.

Lemma count_cons {A} `{EqDecision A} (x y : A) (l : list A) :
  count x (y :: l) = ((if decide (y = x) then 1 else 0) + count x l)%nat.
Proof. unfold count. rewrite filter_cons. by destruct (decide (y = x)). Qed.

(** C3. Let [o] be an object as the constructor builds them, holding the
    obligation [(k, s)], and let the registry hold a verifier for [k].
    Then [discharge] returns an object with the same value whose evidence
    is that of [o] followed by exactly one record, the one of this verdict.
    When the verdict is accept, the first occurrence of [(k, s)] and
    nothing else leaves the obligations: its count and the length drop by
    one and every other count stays. With any other verdict (reject,
    conditional) the obligations are those of [o]. *)
Theorem discharge_verdict (resolve_pointer : Value → string → option Value)
    (o : ChavaObject) (k s : string) (registry : gmap string Verifier)
    (verifier : Verifier) (id : string) (now : Number) :
  well_formed o → (k, s) ∈ o.(obligations) → registry !! k = Some verifier →
  let verdict :=
    verifier (if String.eqb s "" then o.(value)
              else default VNull (resolve_pointer o.(value) s)) s in
  ∃ (o' : ChavaObject) (record : EvidenceRecord),
    discharge resolve_pointer o k s registry id now = Return o' ∧
    o'.(value) = o.(value) ∧
    o'.(evidence) = o.(evidence) ++ [record] ∧
    List.length o'.(evidence) = S (List.length o.(evidence)) ∧
    record.(result) = verdict ∧ record.(verifier_id) = id ∧
    record.(kind) = Some k ∧ record.(scope) = Some s ∧ record.(timestamp) = now ∧
    record.(prev_hash)
    = Some (match last o.(evidence) with Some e => default "" e.(hash) | None => "" end) ∧
    record.(hash) = Some (compute_evidence_hash record) ∧
    (verdict = "accept" →
       (∃ l1 l2, o.(obligations) = l1 ++ (k, s) :: l2 ∧ ((k, s) ∉ l1) ∧
                 o'.(obligations) = l1 ++ l2) ∧
       S (count (k, s) o'.(obligations)) = count (k, s) o.(obligations) ∧
       S (List.length o'.(obligations)) = List.length o.(obligations) ∧
       ∀ other, other ≠ (k, s) →
                count other o'.(obligations) = count other o.(obligations)) ∧
    (verdict ≠ "accept" → o'.(obligations) = o.(obligations)).
Proof.
  intros Hwf Hin Hreg verdict.
  unfold discharge. rewrite (copy_well_formed o Hwf). simpl.
  rewrite (bool_decide_eq_true_2 _ Hin). simpl.
  unfold get_verifier. rewrite Hreg. simpl.
  replace (match resolve_pointer (value o) s with Some v => v | None => VNull end)
    with (default VNull (resolve_pointer (value o) s))
    by (by destruct (resolve_pointer (value o) s)).
  fold verdict.
  destruct (String.eqb verdict "accept") eqn:E.
  - apply String.eqb_eq in E.
    destruct (list_remove_first _ _ Hin) as (l1 & l2 & Hl & Hn & Hrm).
    rewrite Hrm. simpl. eexists _, _. split_and!; try reflexivity; simpl.
    + rewrite length_app. simpl. lia.
    + intros _. rewrite Hl. split_and!.
      * by exists l1, l2.
      * rewrite !count_app, !count_cons, decide_True by done. lia.
      * rewrite !length_app. simpl. lia.
      * intros other Hne. rewrite !count_app, !count_cons.
        by rewrite decide_False.
    + congruence.
  - apply String.eqb_neq in E. simpl.
    eexists _, _. split_and!; try reflexivity; simpl.
    + rewrite length_app. simpl. lia.
    + congruence.
Qed.

Lemma discharge_verdict_witness :
  (∃ o', discharge member_pointer sample_object "pii_clean" "/comment"
                   sample_registry "pii_verifier" (Int 1700000000) = Return o' ∧
         o'.(obligations) = [("sql_safe", ""); ("pii_clean", "/comment")] ∧
         List.length o'.(evidence) = 2%nat) ∧
  (∃ o', discharge member_pointer sample_object "sql_safe" ""
                   sample_registry "sql_verifier" (Int 1700000000) = Return o' ∧
         o'.(obligations) = sample_object.(obligations) ∧
         List.length o'.(evidence) = 2%nat).
Proof.
  assert (Hwf : well_formed sample_object) by (by repeat constructor).
  split.
  - destruct (discharge_verdict member_pointer sample_object "pii_clean" "/comment"
                sample_registry accept_all "pii_verifier" (Int 1700000000) Hwf)
      as (o' & record & Hd & _ & _ & Hlen & _ & _ & _ & _ & _ & _ & _ & Hacc & _).
    { apply elem_of_cons. by left. }
    { reflexivity. }
    exists o'. split; [exact Hd|]. split; [|exact Hlen].
    destruct (Hacc eq_refl) as ((l1 & l2 & Hl & Hn & ->) & _).
    destruct l1 as [|x l1]; simpl in Hl.
    + by injection Hl as <-.
    + exfalso. apply Hn. inversion Hl. apply elem_of_cons. by left.
  - destruct (discharge_verdict member_pointer sample_object "sql_safe" ""
                sample_registry reject_all "sql_verifier" (Int 1700000000) Hwf)
      as (o' & record & Hd & _ & _ & Hlen & _ & _ & _ & _ & _ & _ & _ & _ & Hrej).
    { apply elem_of_cons. right. apply elem_of_cons. by left. }
    { reflexivity. }
    exists o'. split; [exact Hd|]. split; [|exact Hlen].
    apply Hrej. discriminate.
Defined.

(* ===================================================================== *)
(** * Properties of project *)
(* ===================================================================== *)

Lemma str_prefix_length (a b : string) :
  String.prefix a b = true → (String.length a ≤ String.length b)%nat.
Proof.
  revert b. induction a as [|x a IH]; intros [|y b]; simpl; try done; try lia.
  destruct (ascii_dec x y); [|done]. intros H. apply IH in H. lia.
Qed.

Lemma str_length_append (a b : string) :
  String.length (a +:+ b) = (String.length a + String.length b)%nat.
Proof. induction a as [|x a IH]; simpl; [done|]. by rewrite IH. Qed.

Lemma not_below_itself (p : string) : startswith p (p +:+ "/") = false.
Proof.
  unfold startswith. destruct (String.prefix _ p) eqn:E; [|done].
  apply str_prefix_length in E. rewrite str_length_append in E. simpl in E. lia.
Qed.

Lemma not_below_each_other (s p : string) :
  startswith s (p +:+ "/") = true → startswith p (s +:+ "/") = true → False.
Proof.
  unfold startswith. intros H1 H2.
  apply str_prefix_length in H1, H2. rewrite str_length_append in H1, H2.
  simpl in H1, H2. lia.
Qed.

Lemma project_step_rewrites (p : string) (acc : list (string * string))
    (ob : string * string) :
  project_step p acc ob
  = acc ++ match rewrite_as_specified p ob with Some ob' => [ob'] | None => [] end.
Proof.
  unfold project_step, rewrite_as_specified. destruct ob as [k s]. cbn [fst snd].
  destruct (String.eqb_spec s "") as [->|Hs]; cbn [orb].
  { by rewrite decide_True by auto. }
  destruct (String.eqb_spec s p) as [->|Hp]; cbn [orb].
  { by rewrite decide_True by auto. }
  destruct (startswith s (p +:+ "/")) eqn:E1.
  { by rewrite decide_True by auto. }
  rewrite decide_False by (intros [?|[?|?]]; done).
  destruct (startswith p (s +:+ "/")) eqn:E2.
  - by rewrite decide_True.
  - rewrite decide_False by done. by rewrite app_nil_r.
Qed.

Lemma project_loop_rewrites (p : string) (obs acc : list (string * string)) :
  fold_left (project_step p) obs acc = acc ++ omap (rewrite_as_specified p) obs.
Proof.
  revert acc. induction obs as [|ob obs IH]; intros acc; simpl.
  - by rewrite app_nil_r.
  - rewrite IH, project_step_rewrites.
    destruct (rewrite_as_specified p ob); simpl; by rewrite <- app_assoc.
Qed.

Lemma rewrite_keeps_kind (p : string) (ob ob' : string * string) :
  rewrite_as_specified p ob = Some ob' → ob'.1 = ob.1.
Proof.
  unfold rewrite_as_specified. repeat case_decide; intros Hrw; by simplify_eq.
Qed.

(** C5. Let [o] be an object as the constructor builds them. If the pointer
    does not resolve in the value, [project] returns (and raises nothing)
    the object of value null, of the obligations of [o] followed by
    [("invalid_path", "")], and of the evidence of [o]. Otherwise it returns
    the resolved value, the evidence of [o] unchanged, and the obligations
    of [o] rewritten one by one in their order: [(k, s)] with [s] empty,
    equal to [p] or below [p] becomes [(k, relscope s p)]; with [s] strictly
    above [p] it becomes [(k, "")]; any other obligation is dropped. *)
Theorem project_rewrites (resolve_pointer : Value → string → option Value)
    (o : ChavaObject) (p : string) :
  well_formed o →
  (resolve_pointer o.(value) p = None →
   project resolve_pointer o p
   = Return {| value := VNull;
               obligations := o.(obligations) ++ [("invalid_path", "")];
               evidence := o.(evidence) |}) ∧
  (∀ v', resolve_pointer o.(value) p = Some v' →
   project resolve_pointer o p
   = Return {| value := v';
               obligations := omap (rewrite_as_specified p) o.(obligations);
               evidence := o.(evidence) |}) ∧
  (∀ k s, s = "" ∨ s = p ∨ startswith s (p +:+ "/") = true →
          rewrite_as_specified p (k, s) = Some (k, relscope s p)) ∧
  (∀ k s, startswith p (s +:+ "/") = true →
          rewrite_as_specified p (k, s) = Some (k, "")) ∧
  (∀ k s, s ≠ "" → s ≠ p → startswith s (p +:+ "/") = false →
          startswith p (s +:+ "/") = false →
          rewrite_as_specified p (k, s) = None).
Proof.
  intros Hwf. unfold project. split_and!.
  - intros ->. apply init_well_formed. apply Forall_app. split; [done|].
    by repeat constructor.
  - intros v' ->. rewrite project_loop_rewrites. simpl.
    apply init_well_formed. apply Forall_forall. intros ob' Hin.
    apply list_elem_of_omap in Hin as (ob & Hin & Hrw).
    rewrite (rewrite_keeps_kind _ _ _ Hrw).
    unfold well_formed in Hwf. rewrite Forall_forall in Hwf. by apply Hwf.
  - intros k s H. unfold rewrite_as_specified. cbn [fst snd]. by rewrite decide_True.
  - intros k s H. unfold rewrite_as_specified. cbn [fst snd].
    destruct (decide (s = "" ∨ s = p ∨ startswith s (p +:+ "/") = true))
      as [[->|[->|H']]|_].
    + done.
    + by rewrite not_below_itself in H.
    + destruct (not_below_each_other s p H' H).
    + by rewrite decide_True.
  - intros k s H1 H2 H3 H4. unfold rewrite_as_specified. cbn [fst snd].
    rewrite decide_False by (intros [?|[?|?]]; congruence).
    rewrite decide_False by congruence. done.
Qed.

Lemma project_rewrites_witness :
  project member_pointer sample_scoped "/comment/text"
  = Return {| value := VStr "Call me at 555-1234";
              obligations := [("schema_ok", ""); ("pii_clean", ""); ("sql_safe", "")];
              evidence := [sample_chained] |} ∧
  project member_pointer sample_scoped "/comment"
  = Return {| value := VDict [("text", VStr "Call me at 555-1234"); ("lang", VStr "en")];
              obligations := [("schema_ok", ""); ("pii_clean", "/text"); ("sql_safe", "");
                              ("lang_ok", "/lang")];
              evidence := [sample_chained] |} ∧
  project member_pointer sample_scoped "/nonexistent"
  = Return {| value := VNull;
              obligations := sample_scoped.(obligations) ++ [("invalid_path", "")];
              evidence := [sample_chained] |}.
Proof.
  assert (Hwf : well_formed sample_scoped) by (by repeat constructor).
  split_and!.
  - by apply (proj1 (proj2 (project_rewrites member_pointer sample_scoped
                                "/comment/text" Hwf))).
  - by apply (proj1 (proj2 (project_rewrites member_pointer sample_scoped
                                "/comment" Hwf))).
  - by apply (proj1 (project_rewrites member_pointer sample_scoped
                       "/nonexistent" Hwf)).
Defined.

(* ===================================================================== *)
(** * Properties of has_conflict *)
(* ===================================================================== *)

Section PyDictFacts.
Context {K V : Type} `{EqDecision K}.
Implicit Types (d : list (K * V)) (k : K) (v : V).

Lemma dict_get_set d k v k' :
  dict_get (dict_set d k v) k' = if decide (k' = k) then Some v else dict_get d k'.
Proof.
  induction d as [|[k0 v0] d IH]; simpl.
  - destruct (decide (k = k')), (decide (k' = k)); congruence.
  - destruct (decide (k0 = k)) as [->|Hne]; simpl.
    + destruct (decide (k = k')), (decide (k' = k)); congruence.
    + destruct (decide (k0 = k')) as [->|]; [|apply IH].
      by rewrite decide_False.
Qed.

Lemma dict_get_elem d k v : dict_get d k = Some v → (k, v) ∈ d.
Proof.
  induction d as [|[k0 v0] d IH]; simpl; [done|].
  destruct (decide (k0 = k)) as [->|].
  - intros [= ->]. apply elem_of_cons. by left.
  - intros H'. apply elem_of_cons. right. by apply IH.
Qed.

Lemma dict_set_keys d k v k' :
  k' ∈ (dict_set d k v).*1 → k' = k ∨ k' ∈ d.*1.
Proof.
  induction d as [|[k0 v0] d IH]; simpl.
  - intros Hin. apply list_elem_of_singleton in Hin. by left.
  - destruct (decide (k0 = k)) as [->|]; simpl; [by right|].
    intros Hin. apply elem_of_cons in Hin as [->|Hin].
    + right. apply elem_of_cons. by left.
    + destruct (IH Hin); [by left|]. right. apply elem_of_cons. by right.
Qed.

Lemma dict_set_NoDup d k v : NoDup d.*1 → NoDup (dict_set d k v).*1.
Proof.
  induction d as [|[k0 v0] d IH]; simpl; intros Hnd.
  - apply NoDup_singleton.
  - apply NoDup_cons in Hnd as [Hn Hnd].
    destruct (decide (k0 = k)) as [->|]; simpl; apply NoDup_cons; split; auto.
    intros Hin. apply dict_set_keys in Hin as [->|Hin]; done.
Qed.

Lemma dict_elem_get d k v : NoDup d.*1 → (k, v) ∈ d → dict_get d k = Some v.
Proof.
  induction d as [|[k0 v0] d IH]; simpl; intros Hnd Hin.
  - by apply elem_of_nil in Hin.
  - apply NoDup_cons in Hnd as [Hn Hnd].
    apply elem_of_cons in Hin as [[= -> ->]|Hin].
    + by rewrite decide_True.
    + destruct (decide (k0 = k)) as [->|]; [|by apply IH].
      exfalso. apply Hn. apply list_elem_of_fmap. by exists (k, v).
Qed.
End PyDictFacts.

Lemma get_group_verdict (d : list (option string * list string))
    (r : EvidenceRecord) (k : option string) :
  dict_get (group_verdict d r) k
  = if decide (k = r.(kind))
    then Some (default [] (dict_get d k) ++ [r.(result)])
    else dict_get d k.
Proof.
  unfold group_verdict. destruct (dict_get d (kind r)) as [rs|] eqn:E.
  - rewrite dict_get_set, E. by destruct (decide (k = kind r)) as [->|]; [rewrite E|].
  - rewrite !dict_get_set. rewrite (decide_True (P := kind r = kind r)) by done.
    by destruct (decide (k = kind r)) as [->|]; [rewrite E|].
Qed.

Lemma group_verdict_NoDup (d : list (option string * list string)) (r : EvidenceRecord) :
  NoDup d.*1 → NoDup (group_verdict d r).*1.
Proof.
  intros H. unfold group_verdict. apply dict_set_NoDup.
  destruct (dict_get d (kind r)); [done|]. by apply dict_set_NoDup.
Qed.

Lemma verdicts_of_cons (k : option string) (r : EvidenceRecord) (E : list EvidenceRecord) :
  verdicts_of k (r :: E)
  = if decide (r.(kind) = k) then r.(result) :: verdicts_of k E else verdicts_of k E.
Proof. unfold verdicts_of. rewrite filter_cons. by destruct (decide (kind r = k)). Qed.

Lemma verdicts_of_app (k : option string) (E1 E2 : list EvidenceRecord) :
  verdicts_of k (E1 ++ E2) = verdicts_of k E1 ++ verdicts_of k E2.
Proof. unfold verdicts_of. by rewrite filter_app, List.map_app. Qed.

(** The first loop builds, for each kind, its group. *)
Lemma get_grouped (E : list EvidenceRecord) (d : list (option string * list string))
    (k : option string) :
  dict_get (fold_left group_verdict E d) k
  = match dict_get d k, verdicts_of k E with
    | None, [] => None
    | o, g => Some (default [] o ++ g)
    end.
Proof.
  revert d. induction E as [|r E IH]; intros d; simpl.
  - unfold verdicts_of. simpl. destruct (dict_get d k); [|done].
    simpl. by rewrite app_nil_r.
  - rewrite IH, get_group_verdict, verdicts_of_cons.
    destruct (decide (k = kind r)) as [->|Hne].
    + rewrite decide_True by done. simpl.
      rewrite <- app_assoc. simpl.
      by destruct (dict_get d (kind r)).
    + by rewrite decide_False.
Qed.

Lemma grouped_NoDup (E : list EvidenceRecord) (d : list (option string * list string)) :
  NoDup d.*1 → NoDup (fold_left group_verdict E d).*1.
Proof.
  revert d. induction E as [|r E IH]; intros d H; simpl; [done|].
  by apply IH, group_verdict_NoDup.
Qed.

Lemma accept_after_reject (rs : list string) :
  reject_then_accept true rs = true ↔ "accept" ∈ rs.
Proof.
  induction rs as [|x rs IH]; simpl.
  - split; [done|]. intros H. by apply elem_of_nil in H.
  - rewrite elem_of_cons. destruct (String.eqb_spec x "reject") as [->|Hr].
    + rewrite IH. split; [by right|]. by intros [|].
    + destruct (String.eqb_spec x "accept") as [->|Ha]; simpl.
      * split; [by left|done].
      * rewrite IH. split; [by right|]. intros [|]; [congruence|done].
Qed.

Lemma reject_then_accept_split (rs : list string) :
  reject_then_accept false rs = true
  ↔ ∃ l1 l2, rs = l1 ++ "reject" :: l2 ∧ "accept" ∈ l2.
Proof.
  induction rs as [|x rs IH]; simpl.
  - split; [done|]. intros (l1 & l2 & H & _). by destruct l1.
  - destruct (String.eqb_spec x "reject") as [->|Hr].
    + rewrite accept_after_reject. split.
      * intros H. by exists [], rs.
      * intros (l1 & l2 & H & Ha). destruct l1 as [|y l1]; simpl in H.
        -- by injection H as ->.
        -- injection H as -> ->. apply elem_of_app. right.
           apply elem_of_cons. by right.
    + rewrite andb_false_r, IH. split.
      * intros (l1 & l2 & -> & Ha). by exists (x :: l1), l2.
      * intros (l1 & l2 & H & Ha). destruct l1 as [|y l1]; simpl in H.
        -- by injection H as ->.
        -- injection H as -> ->. by exists l1, l2.
Qed.

Lemma has_conflict_groups (E : list EvidenceRecord) :
  has_conflict E = true ↔ ∃ k, reject_then_accept false (verdicts_of k E) = true.
Proof.
  unfold has_conflict. rewrite existsb_exists. split.
  - intros ([k rs] & Hin & Hrs). exists k. simpl in Hrs.
    apply list_elem_of_In in Hin.
    apply dict_elem_get in Hin; [|apply grouped_NoDup, NoDup_nil_2].
    rewrite get_grouped in Hin. simpl in Hin.
    destruct (verdicts_of k E); by simplify_eq.
  - intros (k & Hk). exists (k, verdicts_of k E). split; [|done].
    apply list_elem_of_In, dict_get_elem. rewrite get_grouped. simpl.
    by destruct (verdicts_of k E).
Qed.

Lemma verdicts_of_split (k : option string) (E : list EvidenceRecord)
    (l1 : list string) (x : string) (l2 : list string) :
  verdicts_of k E = l1 ++ x :: l2 →
  ∃ E1 r E2, E = E1 ++ r :: E2 ∧ r.(kind) = k ∧ r.(result) = x ∧
             verdicts_of k E2 = l2.
Proof.
  revert l1. induction E as [|r0 E IH]; intros l1.
  - intros H. by destruct l1.
  - rewrite verdicts_of_cons. destruct (decide (kind r0 = k)) as [Hk|Hk].
    + destruct l1 as [|y l1]; simpl.
      * intros [= <- <-]. by exists [], r0, E.
      * intros [= _ H]. destruct (IH _ H) as (E1 & r & E2 & -> & ? & ? & ?).
        by exists (r0 :: E1), r, E2.
    + intros H. destruct (IH _ H) as (E1 & r & E2 & -> & ? & ? & ?).
      by exists (r0 :: E1), r, E2.
Qed.

Lemma verdicts_of_elem (k : option string) (E : list EvidenceRecord) (x : string) :
  x ∈ verdicts_of k E ↔ ∃ r, r ∈ E ∧ r.(kind) = k ∧ r.(result) = x.
Proof.
  unfold verdicts_of. rewrite list_elem_of_fmap. split.
  - intros (r & -> & Hin). apply list_elem_of_filter in Hin as [? ?]. by exists r.
  - intros (r & Hin & Hk & <-). exists r. split; [done|].
    by apply list_elem_of_filter.
Qed.

Lemma has_conflict_positions (E : list EvidenceRecord) :
  has_conflict E = true ↔ reject_before_accept E.
Proof.
  rewrite has_conflict_groups. split.
  - intros (k & Hk). apply reject_then_accept_split in Hk as (l1 & l2 & Hs & Ha).
    apply verdicts_of_split in Hs as (E1 & ri & E2 & -> & Hki & Hri & <-).
    apply verdicts_of_elem in Ha as (rj & Hin & Hkj & Hrj).
    apply list_elem_of_lookup in Hin as (j' & Hj').
    exists (List.length E1), (List.length E1 + S j')%nat, ri, rj. split_and!; try done.
    + lia.
    + by apply list_lookup_middle.
    + rewrite lookup_app_r by lia.
      replace (List.length E1 + S j' - List.length E1)%nat with (S j') by lia. done.
    + congruence.
  - intros (i & j & ri & rj & Hij & Hi & Hj & Hk & Hri & Hrj).
    exists ri.(kind). apply reject_then_accept_split.
    apply list_elem_of_split_length in Hi as (E1 & E2 & -> & ->).
    rewrite lookup_app_r in Hj by lia.
    destruct (j - List.length E1)%nat as [|j'] eqn:Ej; [lia|]. simpl in Hj.
    exists (verdicts_of ri.(kind) E1), (verdicts_of ri.(kind) E2). split.
    + rewrite verdicts_of_app, verdicts_of_cons, decide_True by done.
      by rewrite Hri.
    + apply verdicts_of_elem. exists rj. split; [|done].
      apply list_elem_of_lookup. by exists j'.
Qed.

(** C6. [has_conflict E] holds exactly when two records of one kind (the
    records without a kind counting as one kind) stand in [E] with a reject
    before an accept. Hence a conflict found stays under any records added at
    the end; adding an accept to a kind that already has a reject gives a
    conflict; and there is none when the records of each kind all have the
    same result. *)
Theorem has_conflict_reject_then_accept (E : list EvidenceRecord) :
  (has_conflict E = true ↔
   ∃ (i j : nat) (ri rj : EvidenceRecord),
     (i < j)%nat ∧ E !! i = Some ri ∧ E !! j = Some rj ∧
     ri.(kind) = rj.(kind) ∧ ri.(result) = "reject" ∧ rj.(result) = "accept") ∧
  (∀ E', has_conflict E = true → has_conflict (E ++ E') = true) ∧
  (∀ r a, r ∈ E → r.(result) = "reject" →
          a.(kind) = r.(kind) → a.(result) = "accept" →
          has_conflict (E ++ [a]) = true) ∧
  ((∀ r1 r2, r1 ∈ E → r2 ∈ E → r1.(kind) = r2.(kind) → r1.(result) = r2.(result)) →
   has_conflict E = false).
Proof.
  split_and!.
  - apply has_conflict_positions.
  - intros E'. rewrite !has_conflict_positions.
    intros (i & j & ri & rj & Hij & Hi & Hj & H).
    exists i, j, ri, rj. split; [done|].
    split; [by apply lookup_app_l_Some|]. split; [by apply lookup_app_l_Some|done].
  - intros r a Hin Hr Hk Ha. apply has_conflict_positions.
    apply list_elem_of_lookup in Hin as (i & Hi).
    exists i, (List.length E), r, a. split_and!; try done.
    + by apply lookup_lt_Some in Hi.
    + by apply lookup_app_l_Some.
    + by apply list_lookup_middle.
  - intros Hsame. destruct (has_conflict E) eqn:Hc; [|done].
    apply has_conflict_positions in Hc
      as (i & j & ri & rj & Hij & Hi & Hj & Hk & Hri & Hrj).
    assert (result ri = result rj) as Heq.
    { apply Hsame; [by eapply list_elem_of_lookup_2 ..|done]. }
    congruence.
Qed.

Lemma has_conflict_reject_then_accept_witness :
  has_conflict [verdict (Some "sql_safe") "reject"; verdict (Some "pii_clean") "accept";
                verdict (Some "sql_safe") "accept"] = true ∧
  has_conflict [verdict None "reject"; verdict None "conditional"; verdict None "accept"]
  = true ∧
  has_conflict [verdict (Some "sql_safe") "reject"; verdict None "accept";
                verdict (Some "pii_clean") "accept"; verdict (Some "sql_safe") "reject"]
  = false.
Proof.
  split_and!.
  - destruct (has_conflict_reject_then_accept
                [verdict (Some "sql_safe") "reject"; verdict (Some "pii_clean") "accept";
                 verdict (Some "sql_safe") "accept"]) as (H & _).
    apply H.
    exists 0%nat, 2%nat, (verdict (Some "sql_safe") "reject"),
           (verdict (Some "sql_safe") "accept").
    split_and!; try done. lia.
  - destruct (has_conflict_reject_then_accept
                [verdict None "reject"; verdict None "conditional"])
      as (_ & _ & H & _).
    apply (H (verdict None "reject") (verdict None "accept")); try done.
    apply elem_of_cons. by left.
  - destruct (has_conflict_reject_then_accept
                [verdict (Some "sql_safe") "reject"; verdict None "accept";
                 verdict (Some "pii_clean") "accept"; verdict (Some "sql_safe") "reject"])
      as (_ & _ & _ & H).
    apply H. intros r1 r2 H1 H2.
    repeat (apply elem_of_cons in H1 as [->|H1]); try (by apply elem_of_nil in H1);
    repeat (apply elem_of_cons in H2 as [->|H2]); try (by apply elem_of_nil in H2);
    done.
Defined.

(* ===================================================================== *)
(** * Properties of the pointer index *)
(* ===================================================================== *)

Import HierarchicalPointerIndex.

Example get_objects_at_path_of_tests :
  get_objects_at_path sample_index "/user" = {["obj1"; "obj2"]} ∧
  get_objects_at_path sample_index "/user/profile" = {["obj2"]} ∧
  get_objects_at_path sample_index "" = {["obj1"; "obj2"; "obj3"]}.
Proof. split_and!; vm_compute; reflexivity. Qed.

(** ** What [get_objects_at_path] returns in general *)

Lemma add_steps (self : HierarchicalPointerIndex.t) (obj_id : string) (obligations : list (string * string)) :
  root (add self obj_id obligations)
  = fold_left (fun n o => add_at (_split_path o.2) obj_id n) obligations (root self).
Proof.
  unfold add. revert self.
  induction obligations as [|o obs IH]; intros self; simpl; [done|].
  rewrite IH. f_equal.
  destruct (String.eqb_spec o.2 "") as [->|]; done.
Qed.

Lemma build_steps (calls : list (string * list (string * string))) :
  root (build calls)
  = fold_left (fun n r => add_at r.2 r.1 n) (recorded calls) TrieNode_init.
Proof.
  unfold build, recorded.
  change TrieNode_init with (root init). generalize init.
  induction calls as [|call calls IH]; intros self; simpl; [done|].
  rewrite IH, fold_left_app, add_steps. f_equal.
  generalize (root self). induction call.2 as [|o obs IHo]; intros n; simpl; [done|].
  apply IHo.
Qed.

Lemma walk_app (q1 q2 : list string) (n : TrieNode) :
  walk (q1 ++ q2) n = walk q1 n ≫= walk q2.
Proof.
  revert n. induction q1 as [|c q1 IH]; intros n; simpl; [done|].
  destruct (dict_get (children n) c); simpl; [apply IH | done].
Qed.

Lemma walk_found (q : list string) (n : TrieNode) :
  walk (found q n) n = Some (descend q n).
Proof.
  revert n. induction q as [|c q IH]; intros n; simpl; [done|].
  destruct (dict_get (children n) c) as [child|] eqn:E; simpl; [|done].
  rewrite E. simpl. apply IH.
Qed.

Lemma found_prefix (q : list string) (n : TrieNode) : found q n `prefix_of` q.
Proof.
  revert n. induction q as [|c q IH]; intros n; simpl; [done|].
  destruct (dict_get (children n) c); [|apply prefix_nil].
  by apply prefix_cons.
Qed.

Lemma found_all (q : list string) (n : TrieNode) :
  found q n = q ↔ is_Some (walk q n).
Proof.
  revert n. induction q as [|c q IH]; intros n; simpl; [by split; eauto|].
  destruct (dict_get (children n) c) as [child|]; simpl.
  - rewrite <- IH. split; [by intros [= ->] | by intros ->].
  - split; [done|]. by intros [? ?].
Qed.

(** One [add_at]: the ids at each path afterwards. *)
Lemma ids_at_add_at (comps : list string) (obj_id : string) (n : TrieNode)
    (q : list string) :
  ids_at q (add_at comps obj_id n)
  = if decide (q `prefix_of` comps)
    then Some (default ∅ (ids_at q n) ∪ (if decide (q = comps) then {[obj_id]} else ∅))
    else ids_at q n.
Proof.
  unfold ids_at. revert n q.
  induction comps as [|c0 rest IH]; intros n q.
  - destruct q as [|c q]; simpl; done.
  - destruct q as [|c q]; cbn [add_at walk children object_ids].
    + rewrite decide_True by apply prefix_nil.
      rewrite decide_False by done. simpl. by rewrite union_empty_r_L.
    + rewrite dict_get_set. destruct (decide (c = c0)) as [->|Hne].
      * cbn [mbind option_bind]. rewrite IH.
        assert (Hcons : c0 :: q `prefix_of` c0 :: rest ↔ q `prefix_of` rest).
        { split; [apply prefix_cons_inv_2 | apply prefix_cons]. }
        assert (Heq : c0 :: q = c0 :: rest ↔ q = rest).
        { split; [by intros [= ->] | by intros ->]. }
        destruct (dict_get (children n) c0) as [child|] eqn:E.
        -- rewrite E. cbn [default mbind option_bind].
           repeat case_decide; try done; try tauto.
        -- rewrite dict_get_set, (decide_True (P := c0 = c0)) by done.
           cbn [default mbind option_bind fmap option_fmap option_map].
           destruct q as [|c q]; [|repeat case_decide; try done; tauto].
           cbn [walk TrieNode_init object_ids fmap option_fmap option_map default].
           repeat case_decide; try done; try tauto.
           exfalso. auto using prefix_nil.
      * rewrite decide_False by (intros H; by apply prefix_cons_inv_1 in H).
        destruct (dict_get (children n) c0); [done|].
        by rewrite dict_get_set, decide_False.
Qed.

Lemma ids_at_add_at_elem (comps : list string) (obj_id : string) (n : TrieNode)
    (q : list string) (x : string) :
  x ∈ default ∅ (ids_at q (add_at comps obj_id n))
  ↔ x ∈ default ∅ (ids_at q n) ∨ (x = obj_id ∧ q = comps).
Proof.
  rewrite ids_at_add_at. destruct (decide (q `prefix_of` comps)) as [Hp|Hp]; simpl.
  - rewrite elem_of_union. destruct (decide (q = comps)) as [->|Hne].
    + rewrite elem_of_singleton. tauto.
    + rewrite elem_of_empty. tauto.
  - split; [by left|]. intros [?|[_ ->]]; [done|]. by destruct Hp.
Qed.

Lemma ids_at_add_at_some (comps : list string) (obj_id : string) (n : TrieNode)
    (q : list string) :
  is_Some (ids_at q (add_at comps obj_id n))
  ↔ is_Some (ids_at q n) ∨ q `prefix_of` comps.
Proof.
  rewrite ids_at_add_at. destruct (decide (q `prefix_of` comps)) as [Hp|Hp].
  - split; [by right | by eauto].
  - split; [by left | by intros [?|?]].
Qed.

Lemma ids_at_recorded_elem (R : list (string * list string)) (n : TrieNode)
    (q : list string) (x : string) :
  x ∈ default ∅ (ids_at q (fold_left (fun n r => add_at r.2 r.1 n) R n))
  ↔ x ∈ default ∅ (ids_at q n) ∨ (x, q) ∈ R.
Proof.
  revert n. induction R as [|[y c] R IH]; intros n; simpl.
  - split; [by left|]. intros [?|H]; [done|]. by apply elem_of_nil in H.
  - rewrite IH, ids_at_add_at_elem, elem_of_cons. split.
    + intros [[?|[-> ->]]|?]; auto.
    + intros [?|[[= -> ->]|?]]; auto.
Qed.

Lemma ids_at_recorded_some (R : list (string * list string)) (n : TrieNode)
    (q : list string) :
  is_Some (ids_at q (fold_left (fun n r => add_at r.2 r.1 n) R n))
  ↔ is_Some (ids_at q n) ∨ ∃ r, r ∈ R ∧ q `prefix_of` r.2.
Proof.
  revert n. induction R as [|[y c] R IH]; intros n; simpl.
  - split; [by left|]. intros [?|(r & H & _)]; [done|]. by apply elem_of_nil in H.
  - rewrite IH, ids_at_add_at_some. split.
    + intros [[?|?]|(r & Hr & Hp)]; auto.
      * right. exists (y, c). split; [apply elem_of_cons; by left | done].
      * right. exists r. split; [apply elem_of_cons; by right | done].
    + intros [?|(r & Hr & Hp)]; auto.
      apply elem_of_cons in Hr as [->|Hr]; [by left; right|].
      right. by exists r.
Qed.

Lemma Forall_dict_set {V} (P : string * V → Prop) (d : list (string * V))
    (k : string) (v : V) :
  Forall P d → P (k, v) → Forall P (dict_set d k v).
Proof.
  intros Hd Hv. induction Hd as [|[k0 v0] d H0 Hd IH]; simpl.
  - by constructor.
  - destruct (decide (k0 = k)) as [->|]; by constructor.
Qed.

Lemma distinct_keys_init : distinct_keys TrieNode_init.
Proof. constructor; [apply NoDup_nil_2 | constructor]. Qed.

Lemma distinct_keys_add_at (comps : list string) (obj_id : string) (n : TrieNode) :
  distinct_keys n → distinct_keys (add_at comps obj_id n).
Proof.
  revert n. induction comps as [|c0 rest IH]; intros n Hn.
  - destruct Hn as [c ids Hnd Hall]. by constructor.
  - destruct Hn as [c ids Hnd Hall]. cbn [add_at children object_ids].
    set (c' := match dict_get c c0 with
               | Some _ => c
               | None => dict_set c c0 TrieNode_init
               end).
    assert (Hc : NoDup c'.*1 ∧ Forall (fun kv => distinct_keys kv.2) c').
    { subst c'. destruct (dict_get c c0); [done|]. split; [by apply dict_set_NoDup|].
      apply Forall_dict_set; [done|]. apply distinct_keys_init. }
    destruct Hc as [Hnd' Hall']. constructor; [by apply dict_set_NoDup|].
    apply Forall_dict_set; [done|]. cbn [snd]. apply IH.
    destruct (dict_get c' c0) as [child|] eqn:E; simpl; [|apply distinct_keys_init].
    apply dict_get_elem in E. rewrite Forall_forall in Hall'.
    by apply (Hall' (c0, child)).
Qed.

Lemma distinct_keys_recorded (R : list (string * list string)) (n : TrieNode) :
  distinct_keys n → distinct_keys (fold_left (fun n r => add_at r.2 r.1 n) R n).
Proof.
  revert n. induction R as [|r R IH]; intros n Hn; simpl; [done|].
  by apply IH, distinct_keys_add_at.
Qed.

Lemma distinct_keys_walk (q : list string) (n n' : TrieNode) :
  distinct_keys n → walk q n = Some n' → distinct_keys n'.
Proof.
  revert n. induction q as [|c q IH]; intros n Hn; simpl.
  - by intros [= <-].
  - destruct (dict_get (children n) c) as [child|] eqn:E; simpl; [|done].
    apply IH. destruct Hn as [ch ids Hnd Hall]. simpl in E.
    apply dict_get_elem in E. rewrite Forall_forall in Hall.
    by apply (Hall (c, child)).
Qed.

Lemma node_count_pos (n : TrieNode) : (0 < node_count n)%nat.
Proof. destruct n. simpl. lia. Qed.

Lemma elem_of_rev {A} (x : A) (l : list A) : x ∈ rev l ↔ x ∈ l.
Proof. rewrite !list_elem_of_In. symmetry. apply in_rev. Qed.

Lemma list_sum_rev (l : list nat) : list_sum (rev l) = list_sum l.
Proof.
  induction l as [|a l IH]; simpl; [done|].
  rewrite list_sum_app, IH. simpl. lia.
Qed.

(** The ids at and below a node: at the node, or at and below a child. *)
Lemma below_node (c : list (string * TrieNode)) (ids : gset string) (x : string) :
  NoDup c.*1 →
  (∃ q, x ∈ default ∅ (ids_at q (Node c ids)))
  ↔ x ∈ ids ∨ ∃ child, child ∈ c.*2 ∧ ∃ q, x ∈ default ∅ (ids_at q child).
Proof.
  intros Hnd. unfold ids_at. split.
  - intros ([|k q] & Hx); simpl in Hx; [by left|]. right.
    destruct (dict_get c k) as [child|] eqn:E; simpl in Hx.
    + exists child. split; [|by exists q].
      apply list_elem_of_fmap. exists (k, child). split; [done|].
      by apply dict_get_elem.
    + by apply elem_of_empty in Hx.
  - intros [Hx|(child & Hin & q & Hx)]; [by exists []|].
    apply list_elem_of_fmap in Hin as ([k ch] & -> & Hin). simpl in Hx.
    exists (k :: q). simpl. by rewrite (dict_elem_get _ _ _ Hnd Hin).
Qed.

(** The loop collects the ids at and below the nodes of the stack. *)
Lemma collect_below (turns : nat) (stack : list TrieNode) (result : gset string)
    (x : string) :
  Forall distinct_keys stack →
  (list_sum (List.map node_count stack) ≤ turns)%nat →
  x ∈ collect turns stack result
  ↔ x ∈ result ∨ ∃ n, n ∈ stack ∧ ∃ q, x ∈ default ∅ (ids_at q n).
Proof.
  revert stack result. induction turns as [|turns IH]; intros stack result Hwf Hle.
  - destruct stack as [|n stack]; simpl in *.
    + split; [by left|]. intros [?|(n & Hn & _)]; [done|]. by apply elem_of_nil in Hn.
    + pose proof (node_count_pos n). lia.
  - destruct stack as [|n stack]; simpl.
    + split; [by left|]. intros [?|(n & Hn & _)]; [done|]. by apply elem_of_nil in Hn.
    + apply Forall_cons in Hwf as [Hn Hwf]. destruct Hn as [c ids Hnd Hall].
      simpl in *. rewrite IH.
      * rewrite elem_of_union. split.
        -- intros [[?|?]|(n & Hn & Hq)]; auto.
           ++ right. exists (Node c ids). split; [apply elem_of_cons; by left|].
              apply below_node; auto.
           ++ apply elem_of_app in Hn as [Hn|Hn].
              ** right. exists (Node c ids). split; [apply elem_of_cons; by left|].
                 apply below_node; [done|]. right. exists n. split; [|done].
                 rewrite elem_of_rev in Hn. exact Hn.
              ** right. exists n. split; [apply elem_of_cons; by right | done].
        -- intros [?|(n & Hn & Hq)]; auto.
           apply elem_of_cons in Hn as [->|Hn].
           ++ apply below_node in Hq as [?|(child & Hin & Hq)]; auto.
              right. exists child. split; [|done].
              apply elem_of_app. left. rewrite elem_of_rev. exact Hin.
           ++ right. exists n. split; [|done]. apply elem_of_app. by right.
      * apply Forall_app. split; [|done]. apply Forall_rev.
        apply Forall_fmap. by apply (Forall_impl _ _ _ Hall).
      * rewrite List.map_app, list_sum_app, List.map_rev, list_sum_rev.
        rewrite List.map_map. lia.
Qed.

Lemma ids_at_init (q : list string) (x : string) :
  (x ∉ default ∅ (ids_at q TrieNode_init)) ∧ (is_Some (ids_at q TrieNode_init) ↔ q = []).
Proof.
  unfold ids_at. destruct q as [|c q]; simpl.
  - split; [apply not_elem_of_empty | by eauto].
  - split; [apply not_elem_of_empty|]. split; [by intros [? ?] | done].
Qed.

Lemma root_distinct_keys (calls : list (string * list (string * string))) :
  distinct_keys (root (build calls)).
Proof. rewrite build_steps. apply distinct_keys_recorded, distinct_keys_init. Qed.

(** The ids returned are those recorded at or below the deepest node found
    on the way to the path. *)
Theorem get_objects_at_path_found (calls : list (string * list (string * string)))
    (path : string) (x : string) :
  x ∈ get_objects_at_path (build calls) path
  ↔ ∃ comps, (x, comps) ∈ recorded calls ∧
             found (_split_path path) (root (build calls)) `prefix_of` comps.
Proof.
  unfold get_objects_at_path.
  pose proof (walk_found (_split_path path) (root (build calls))) as Hw.
  set (node := descend (_split_path path) (root (build calls))) in *.
  set (pre := found (_split_path path) (root (build calls))) in *.
  assert (Hq : ∀ q, ids_at q node = ids_at (pre ++ q) (root (build calls))).
  { intros q. unfold ids_at. by rewrite walk_app, Hw. }
  rewrite collect_below; cycle 1.
  { constructor; [|constructor].
    apply (distinct_keys_walk pre (root (build calls))); [|done].
    apply root_distinct_keys. }
  { simpl. lia. }
  split.
  - intros H.
    assert (∃ q, x ∈ default ∅ (ids_at q node)) as (q & Hx).
    { destruct H as [H|(n & Hn & H)]; [by exists []|].
      apply list_elem_of_singleton in Hn as ->. done. }
    rewrite Hq, build_steps, ids_at_recorded_elem in Hx.
    destruct Hx as [Hx|Hx]; [by apply ids_at_init in Hx|].
    exists (pre ++ q). split; [done|]. by exists q.
  - intros (comps & Hin & q & ->). right. exists node.
    split; [by apply list_elem_of_singleton|]. exists q.
    rewrite Hq, build_steps, ids_at_recorded_elem. by right.
Qed.

(** The whole path is found exactly when it is the root or some recorded
    scope is at or below it. *)
Theorem found_whole_path (calls : list (string * list (string * string)))
    (path : string) :
  found (_split_path path) (root (build calls)) = _split_path path
  ↔ _split_path path = [] ∨
    ∃ r, r ∈ recorded calls ∧ _split_path path `prefix_of` r.2.
Proof.
  rewrite found_all.
  assert (∀ q n, is_Some (walk q n) ↔ is_Some (ids_at q n)) as ->.
  { intros q n. unfold ids_at. by rewrite fmap_is_Some. }
  rewrite build_steps, ids_at_recorded_some.
  by rewrite (proj2 (ids_at_init _ "")).
Qed.

(** Where the path has a node, the ids returned are those recorded at the
    path or below it, as the specification has it. *)
Corollary get_objects_at_path_of_node (calls : list (string * list (string * string)))
    (path : string) (x : string) :
  _split_path path = [] ∨
  (∃ r, r ∈ recorded calls ∧ _split_path path `prefix_of` r.2) →
  x ∈ get_objects_at_path (build calls) path
  ↔ ∃ comps, (x, comps) ∈ recorded calls ∧ _split_path path `prefix_of` comps.
Proof.
  intros H. apply found_whole_path in H.
  by rewrite get_objects_at_path_found, H.
Qed.

(** C9 does not hold of the code. When no node stands at the path asked for,
    the walk stops at the deepest node it found and the ids at and below
    that node are returned ([get_objects_at_path_found]): an id recorded
    only at [/user], strictly above [/user/profile], is in the answer for
    [/user/profile], and a path that shares nothing with the index gets
    every id of the index. Where the path has a node the answer is the one
    the specification gives ([get_objects_at_path_of_node]). *)
Theorem get_objects_at_path_missing_node :
  get_objects_at_path (add init "obj1" [("pii_clean", "/user")]) "/user/profile"
  = {["obj1"]} ∧
  get_objects_at_path sample_index "/user/settings" = {["obj1"; "obj2"]} ∧
  get_objects_at_path sample_index "/nowhere" = {["obj1"; "obj2"; "obj3"]}.
Proof. split_and!; vm_compute; reflexivity. Qed.

(* ===================================================================== *)
(** * Further properties of discharge and of the evidence chain *)
(* ===================================================================== *)

Lemma verify_from_chained (E : list EvidenceRecord) (i : nat)
    (rest : list EvidenceRecord) :
  drop i E = rest →
  verify_from E i rest = true
  ↔ chained (match i with O => None | S j => E !! j end) rest.
Proof.
  revert i. induction rest as [|r rest IH]; intros i Hd; simpl; [done|].
  assert (Hr : E !! i = Some r).
  { replace i with (i + 0)%nat by lia. by rewrite <- lookup_drop, Hd. }
  assert (Hd' : drop (S i) E = rest).
  { by rewrite <- Nat.add_1_r, <- drop_drop, Hd. }
  specialize (IH (S i) Hd'). simpl in IH. rewrite Hr in IH.
  unfold record_ok, linked.
  destruct (bool_decide (hash r = Some (compute_evidence_hash r))) eqn:Hok; simpl.
  - apply bool_decide_eq_true in Hok. destruct i as [|j]; simpl.
    + rewrite IH. split; [by intros ?; split_and! | by intros (_ & _ & ?)].
    + replace (j - 0)%nat with j by lia.
      destruct (E !! j) as [p|] eqn:Hp; simpl.
      * destruct (String.eqb_spec (default "" (prev_hash r)) (default "" (hash p)))
          as [Heq|Hne]; simpl.
        -- rewrite IH. split; [|by intros (_ & _ & ?)].
           intros ?. split_and!; try done. by intros ? [= <-].
        -- split; [done|]. intros (_ & Hl & _). by specialize (Hl p eq_refl).
      * apply lookup_ge_None in Hp. apply lookup_lt_Some in Hr. lia.
  - apply bool_decide_eq_false in Hok. split; [done|]. by intros [? _].
Qed.

Lemma verify_chained (E : list EvidenceRecord) :
  verify_evidence_chain E = true ↔ chained None E.
Proof.
  unfold verify_evidence_chain. destruct E as [|r E]; [done|].
  by apply (verify_from_chained (r :: E) 0).
Qed.

Lemma chained_app (prev : option EvidenceRecord) (E1 E2 : list EvidenceRecord) :
  chained prev (E1 ++ E2)
  ↔ chained prev E1
    ∧ chained (match last E1 with Some r => Some r | None => prev end) E2.
Proof.
  revert prev. induction E1 as [|r E1 IH]; intros prev; simpl; [tauto|].
  rewrite IH. destruct E1 as [|r' E1]; simpl; [tauto|].
  change (last (r :: r' :: E1)) with (last (r' :: E1)).
  destruct (last (r' :: E1)) eqn:El; [tauto|].
  by apply last_None in El.
Qed.

Lemma chained_prev (p : EvidenceRecord) (E : list EvidenceRecord) :
  chained (Some p) E ↔ chained None E ∧ (∀ r, head E = Some r → linked p r).
Proof.
  destruct E as [|r E]; simpl; [by split; [split|]|]. split.
  - intros (Hok & Hl & Hc). split; [by split_and!|].
    intros ? [= <-]. by apply Hl.
  - intros ((Hok & _ & Hc) & Hl). split_and!; try done.
    intros ? [= <-]. by apply Hl.
Qed.

Lemma chained_positions (prev : option EvidenceRecord) (E : list EvidenceRecord) :
  chained prev E
  ↔ Forall record_ok E
    ∧ (∀ p r, prev = Some p → head E = Some r → linked p r)
    ∧ (∀ i a b, E !! i = Some a → E !! S i = Some b → linked a b).
Proof.
  revert prev. induction E as [|r E IH]; intros prev; simpl.
  - split; [|done]. intros _. split_and!; [constructor|done|done].
  - rewrite IH. split.
    + intros (Hok & Hl & Hall & Hh & Hadj). split_and!.
      * by constructor.
      * intros p ? -> [= <-]. by apply Hl.
      * intros [|i] a b Ha Hb; simpl in *.
        -- injection Ha as ->. apply (Hh a b); [done|]. by destruct E.
        -- by apply (Hadj i).
    + intros (Hall & Hh & Hadj). apply Forall_cons in Hall as [Hok Hall].
      split_and!; try done.
      * intros p ->. by apply Hh.
      * intros p b [= ->] Hb. apply (Hadj 0%nat p b); [done|]. by destruct E.
      * intros i a b Ha Hb. by apply (Hadj (S i)).
Qed.

(** X1. The chain verifies exactly when every record carries the hash computed
    for it and names the hash of the record before it as its previous hash
    (missing fields reading as the empty string); nothing is asked of the
    previous hash of the first record. *)
Theorem verify_evidence_chain_links (E : list EvidenceRecord) :
  verify_evidence_chain E = true
  ↔ (∀ r, r ∈ E → r.(hash) = Some (compute_evidence_hash r))
    ∧ (∀ i a b, E !! i = Some a → E !! S i = Some b →
                default "" b.(prev_hash) = default "" a.(hash)).
Proof.
  rewrite verify_chained, chained_positions, Forall_forall. split.
  - intros (Hok & _ & Hadj). by split.
  - intros (Hok & Hadj). by split_and!.
Qed.

Lemma verify_evidence_chain_app_iff (E1 E2 : list EvidenceRecord) :
  verify_evidence_chain (E1 ++ E2) = true
  ↔ verify_evidence_chain E1 = true ∧ verify_evidence_chain E2 = true
    ∧ (∀ a b, last E1 = Some a → head E2 = Some b →
              default "" b.(prev_hash) = default "" a.(hash)).
Proof.
  rewrite !verify_chained, chained_app.
  destruct (last E1) as [a|] eqn:El.
  - rewrite chained_prev. split.
    + intros (H1 & H2 & Hl). split_and!; try done. intros ? b [= <-]. apply Hl.
    + intros (H1 & H2 & Hl). split_and!; try done. intros b. by apply Hl.
  - split; [by intros [? ?]; split_and! | by intros (? & ? & _)].
Qed.

(** X2. The chain of two lists put end to end verifies exactly when both chains
    verify and the first record of the second names the hash of the last
    record of the first. *)
Theorem verify_evidence_chain_app (E1 E2 : list EvidenceRecord) :
  verify_evidence_chain (E1 ++ E2) = true
  ↔ verify_evidence_chain E1 = true ∧ verify_evidence_chain E2 = true
    ∧ (∀ a b, last E1 = Some a → head E2 = Some b →
              default "" b.(prev_hash) = default "" a.(hash)).
Proof. apply verify_evidence_chain_app_iff. Qed.

Lemma init_raises (v : Value) (obs : list (string * string)) (ev : list EvidenceRecord) :
  ¬ Forall (fun ob => ob.1 ≠ "") obs →
  ChavaObject_init v obs ev = Raise (ValueError "Invalid obligation kind: ").
Proof.
  intros H. unfold ChavaObject_init.
  destruct (List.find _ obs) as [ob|] eqn:E.
  - apply find_some in E as [_ E]. apply String.eqb_eq in E. by rewrite E.
  - exfalso. apply H, Forall_forall. intros ob Hin Hk.
    apply list_elem_of_In in Hin. pose proof (find_none _ _ E ob Hin) as Hf.
    apply String.eqb_neq in Hf. done.
Qed.

Lemma copy_raises (o : ChavaObject) :
  ¬ well_formed o → copy o = Raise (ValueError "Invalid obligation kind: ").
Proof. intros H. unfold copy. rewrite map_pair_id. by apply init_raises. Qed.

Lemma discharge_absent (resolve_pointer : Value → string → option Value)
    (o : ChavaObject) (k s : string) (registry : gmap string Verifier)
    (id : string) (now : Number) :
  well_formed o → (k, s) ∉ o.(obligations) →
  discharge resolve_pointer o k s registry id now = Return o.
Proof.
  intros Hwf Hn. unfold discharge. rewrite (copy_well_formed o Hwf). simpl.
  by rewrite (bool_decide_eq_false_2 _ Hn).
Qed.

Lemma discharge_present (resolve_pointer : Value → string → option Value)
    (o : ChavaObject) (k s : string) (registry : gmap string Verifier)
    (verifier : Verifier) (id : string) (now : Number) :
  well_formed o → (k, s) ∈ o.(obligations) → registry !! k = Some verifier →
  ∃ obs',
    (if String.eqb (verifier (scoped_value resolve_pointer o s) s) "accept"
     then ∃ l1 l2, o.(obligations) = l1 ++ (k, s) :: l2 ∧ ((k, s) ∉ l1) ∧ obs' = l1 ++ l2
     else obs' = o.(obligations)) ∧
    discharge resolve_pointer o k s registry id now
    = Return {| value := o.(value); obligations := obs';
                evidence := o.(evidence)
                  ++ [discharge_record o k s
                        (verifier (scoped_value resolve_pointer o s) s) id now] |}.
Proof.
  intros Hwf Hin Hreg.
  unfold discharge. rewrite (copy_well_formed o Hwf). simpl.
  rewrite (bool_decide_eq_true_2 _ Hin). simpl.
  unfold get_verifier. rewrite Hreg. simpl.
  replace (match resolve_pointer (value o) s with Some v => v | None => VNull end)
    with (default VNull (resolve_pointer (value o) s))
    by (by destruct (resolve_pointer (value o) s)).
  fold (scoped_value resolve_pointer o s).
  destruct (String.eqb (verifier (scoped_value resolve_pointer o s) s) "accept").
  - destruct (list_remove_first _ _ Hin) as (l1 & l2 & Hl & Hn & Hrm).
    rewrite Hrm. simpl. exists (l1 ++ l2). split; [by exists l1, l2 | done].
  - simpl. by exists (obligations o).
Qed.

Lemma discharge_unregistered (resolve_pointer : Value → string → option Value)
    (o : ChavaObject) (k s : string) (registry : gmap string Verifier)
    (id : string) (now : Number) :
  well_formed o → (k, s) ∈ o.(obligations) → registry !! k = None →
  discharge resolve_pointer o k s registry id now
  = Raise (KeyError ("No verifier registered for kind: " +:+ k)).
Proof.
  intros Hwf Hin Hreg.
  unfold discharge. rewrite (copy_well_formed o Hwf). simpl.
  rewrite (bool_decide_eq_true_2 _ Hin). simpl.
  unfold get_verifier. by rewrite Hreg.
Qed.

(** What a returning [discharge] has done. *)
Lemma discharge_returns (resolve_pointer : Value → string → option Value)
    (o o' : ChavaObject) (k s : string) (registry : gmap string Verifier)
    (id : string) (now : Number) :
  discharge resolve_pointer o k s registry id now = Return o' →
  o' = o ∨
  ∃ verdict obs',
    o' = {| value := o.(value); obligations := obs';
            evidence := o.(evidence) ++ [discharge_record o k s verdict id now] |}.
Proof.
  intros H. destruct (decide (well_formed o)) as [Hwf|Hwf].
  2:{ unfold discharge in H. by rewrite (copy_raises o Hwf) in H. }
  destruct (decide ((k, s) ∈ o.(obligations))) as [Hin|Hn].
  2:{ rewrite discharge_absent in H by done. left. by injection H. }
  destruct (registry !! k) as [verifier|] eqn:Hreg.
  2:{ by rewrite discharge_unregistered in H. }
  destruct (discharge_present resolve_pointer o k s registry verifier id now
              Hwf Hin Hreg) as (obs' & _ & Hd).
  rewrite Hd in H. injection H as <-. right. by eexists _, _.
Qed.

(** X3. When the object does not hold the obligation [(k, s)], [discharge]
    returns the object as it is: no evidence is added, and the registry is
    not consulted, so this holds also when no verifier is registered for
    [k]. *)
Theorem discharge_without_obligation (resolve_pointer : Value → string → option Value)
    (o : ChavaObject) (k s : string) (registry : gmap string Verifier)
    (id : string) (now : Number) :
  well_formed o → (k, s) ∉ o.(obligations) →
  discharge resolve_pointer o k s registry id now = Return o.
Proof. apply discharge_absent. Qed.

Lemma discharge_without_obligation_witness :
  discharge member_pointer sample_pending "sql_safe" "" ∅ "sql_verifier" (Int 1700000000)
  = Return sample_pending.
Proof.
  apply (discharge_without_obligation member_pointer sample_pending "sql_safe" "" ∅).
  - by repeat constructor.
  - intros H. apply list_elem_of_singleton in H. discriminate.
Defined.

(** X4. The errors of [discharge]. An object with an empty kind among its
    obligations makes it raise [ValueError] (the copy it starts with runs the
    constructor's check), whatever the obligation asked for. For an object
    that holds [(k, s)], a registry without a verifier for [k] makes it raise
    [KeyError]; nothing is returned, so no evidence is recorded. *)
Theorem discharge_errors (resolve_pointer : Value → string → option Value)
    (o : ChavaObject) (k s : string) (registry : gmap string Verifier)
    (id : string) (now : Number) :
  (¬ well_formed o →
   discharge resolve_pointer o k s registry id now
   = Raise (ValueError "Invalid obligation kind: ")) ∧
  (well_formed o → (k, s) ∈ o.(obligations) → registry !! k = None →
   discharge resolve_pointer o k s registry id now
   = Raise (KeyError ("No verifier registered for kind: " +:+ k))).
Proof.
  split.
  - intros H. unfold discharge. by rewrite (copy_raises o H).
  - apply discharge_unregistered.
Qed.

Lemma discharge_errors_witness :
  discharge member_pointer sample_malformed "pii_clean" "/comment" sample_registry
            "pii_verifier" (Int 1700000000)
  = Raise (ValueError "Invalid obligation kind: ") ∧
  discharge member_pointer sample_pending "pii_clean" "/comment" ∅
            "pii_verifier" (Int 1700000000)
  = Raise (KeyError "No verifier registered for kind: pii_clean").
Proof.
  split.
  - apply (discharge_errors member_pointer sample_malformed).
    intros H. apply Forall_cons in H as [H _]. by apply H.
  - apply (discharge_errors member_pointer sample_pending "pii_clean" "/comment" ∅).
    + by repeat constructor.
    + apply list_elem_of_singleton. done.
    + done.
Defined.

(** X5. [discharge] keeps a valid chain valid: if the evidence of the object
    verifies, so does the evidence of the object returned, with or without
    a record added. *)
Theorem discharge_preserves_chain (resolve_pointer : Value → string → option Value)
    (o o' : ChavaObject) (k s : string) (registry : gmap string Verifier)
    (id : string) (now : Number) :
  discharge resolve_pointer o k s registry id now = Return o' →
  verify_evidence_chain o.(evidence) = true →
  verify_evidence_chain o'.(evidence) = true.
Proof.
  intros Hd Hv. apply discharge_returns in Hd as [->|(verdict & obs' & ->)]; [done|].
  simpl. apply verify_evidence_chain_app_iff. split; [done|]. split.
  - apply verify_chained. simpl. split_and!; try done.
  - intros a b Ha [= <-]. simpl. by rewrite Ha.
Qed.

Lemma discharge_preserves_chain_witness :
  ∃ o', discharge member_pointer sample_pending "pii_clean" "/comment" sample_registry
                  "pii_verifier" (Int 1700000000) = Return o' ∧
        verify_evidence_chain o'.(evidence) = true.
Proof.
  destruct (discharge member_pointer sample_pending "pii_clean" "/comment"
              sample_registry "pii_verifier" (Int 1700000000)) as [o'|e] eqn:Hd.
  - exists o'. split; [done|].
    apply (discharge_preserves_chain _ _ _ _ _ _ _ _ Hd). vm_compute. reflexivity.
  - vm_compute in Hd. discriminate.
Defined.

Lemma has_conflict_snoc (E : list EvidenceRecord) (a : EvidenceRecord) :
  has_conflict E = false →
  (∀ r, r ∈ E → r.(kind) = a.(kind) → r.(result) ≠ "reject") →
  has_conflict (E ++ [a]) = false.
Proof.
  intros Hc Hno. destruct (has_conflict (E ++ [a])) eqn:H; [|done].
  apply has_conflict_positions in H
    as (i & j & ri & rj & Hij & Hi & Hj & Hk & Hri & Hrj).
  apply lookup_snoc_Some in Hj as [[Hlt Hj]|[-> <-]].
  - assert (has_conflict E = true); [|congruence].
    apply has_conflict_positions. exists i, j, ri, rj. split_and!; try done.
    rewrite lookup_app_l in Hi by lia. done.
  - rewrite lookup_app_l in Hi by lia.
    exfalso. apply (Hno ri); [by eapply list_elem_of_lookup_2|done|done].
Qed.

(** X6. An accept after a reject blocks the object for good. If the evidence
    holds a reject of kind [k] and the verifier now accepts, [discharge]
    removes the obligation but the evidence returned has a conflict, and
    keeps it under whatever is appended later: [unwrap] raises and the KMS
    releases no key. *)
Theorem accept_after_reject_blocks (resolve_pointer : Value → string → option Value)
    (kms : KeyManagementService.t) (o : ChavaObject) (k s : string)
    (registry : gmap string Verifier) (verifier : Verifier) (id : string)
    (now : Number) (r : EvidenceRecord) :
  well_formed o → (k, s) ∈ o.(obligations) → registry !! k = Some verifier →
  verifier (scoped_value resolve_pointer o s) s = "accept" →
  r ∈ o.(evidence) → r.(kind) = Some k → r.(result) = "reject" →
  ∃ o', discharge resolve_pointer o k s registry id now = Return o' ∧
        (List.length o'.(obligations) < List.length o.(obligations))%nat ∧
        (∀ E', has_conflict (o'.(evidence) ++ E') = true) ∧
        (∃ kinds, unwrap o' = Raise (ObligationViolation kinds)) ∧
        verify_and_release_key kms o' = None.
Proof.
  intros Hwf Hin Hreg Hacc Hr Hk Hres.
  destruct (discharge_present resolve_pointer o k s registry verifier id now
              Hwf Hin Hreg) as (obs' & Hobs & Hd).
  rewrite Hacc in Hobs, Hd. simpl in Hobs. destruct Hobs as (l1 & l2 & Hl & _ & ->).
  eexists. split; [exact Hd|]. simpl.
  assert (Hc : ∀ E', has_conflict
            ((evidence o ++ [discharge_record o k s "accept" id now]) ++ E') = true).
  { intros E'. apply has_conflict_positions.
    apply list_elem_of_lookup in Hr as (i & Hi).
    exists i, (List.length (evidence o)), r, (discharge_record o k s "accept" id now).
    split_and!; try done.
    - by apply lookup_lt_Some in Hi.
    - rewrite <- app_assoc. by apply lookup_app_l_Some.
    - rewrite <- app_assoc. by apply list_lookup_middle. }
  split_and!.
  - rewrite Hl, !length_app. simpl. lia.
  - exact Hc.
  - eexists. apply unwrap_of_uncleared. unfold is_cleared. simpl.
    specialize (Hc []). rewrite app_nil_r in Hc. rewrite Hc.
    by destruct (_ =? _)%nat.
  - apply release_refused. right. right. simpl.
    specialize (Hc []). by rewrite app_nil_r in Hc.
Qed.

Lemma accept_after_reject_blocks_witness :
  ∃ o', discharge member_pointer sample_rejected "pii_clean" "/comment" sample_registry
                  "pii_verifier" (Int 1700000000) = Return o' ∧
        o'.(obligations) = [] ∧
        (∃ kinds, unwrap o' = Raise (ObligationViolation kinds)) ∧
        verify_and_release_key sample_kms o' = None.
Proof.
  destruct (accept_after_reject_blocks member_pointer sample_kms sample_rejected
              "pii_clean" "/comment" sample_registry accept_all "pii_verifier"
              (Int 1700000000) (verdict (Some "pii_clean") "reject"))
    as (o' & Hd & Hlen & _ & Hu & Hk); try done.
  - by repeat constructor.
  - by apply list_elem_of_singleton.
  - by apply list_elem_of_singleton.
  - exists o'. split_and!; try done.
    destruct (obligations o'); [done|]. simpl in Hlen. lia.
Defined.

(** X7. The last obligation discharged with an accept clears the object. If
    [(k, s)] is the only obligation, the evidence has no conflict and no
    reject of kind [k], and the verifier accepts, then [unwrap] of the
    object returned gives the value; if moreover the chain verified, the
    KMS releases the cleared key for it. *)
Theorem discharge_clears (resolve_pointer : Value → string → option Value)
    (kms : KeyManagementService.t) (o : ChavaObject) (k s : string)
    (registry : gmap string Verifier) (verifier : Verifier) (id : string)
    (now : Number) :
  k ≠ "" → o.(obligations) = [(k, s)] → registry !! k = Some verifier →
  verifier (scoped_value resolve_pointer o s) s = "accept" →
  has_conflict o.(evidence) = false →
  (∀ r, r ∈ o.(evidence) → r.(kind) = Some k → r.(result) ≠ "reject") →
  ∃ o', discharge resolve_pointer o k s registry id now = Return o' ∧
        unwrap o' = Return o.(value) ∧
        (verify_evidence_chain o.(evidence) = true →
         verify_and_release_key kms o'
         = Some (derive_key kms [] kms.(server_secret))).
Proof.
  intros Hk Hobs Hreg Hacc Hc Hno.
  assert (Hwf : well_formed o).
  { unfold well_formed. rewrite Hobs. by repeat constructor. }
  assert (Hin : (k, s) ∈ o.(obligations)).
  { rewrite Hobs. by apply list_elem_of_singleton. }
  destruct (discharge_present resolve_pointer o k s registry verifier id now
              Hwf Hin Hreg) as (obs' & Hobs' & Hd).
  rewrite Hacc in Hobs', Hd. simpl in Hobs'.
  destruct Hobs' as (l1 & l2 & Hl & Hn & ->). rewrite Hobs in Hl.
  assert (l1 = [] ∧ l2 = []) as [-> ->].
  { destruct l1 as [|x l1]; simpl in Hl; [by injection Hl as <-|].
    injection Hl as _ Hl. by destruct l1. }
  assert (Hc' : has_conflict (evidence o ++ [discharge_record o k s "accept" id now])
                = false) by (by apply has_conflict_snoc).
  eexists. split; [exact Hd|]. split.
  - rewrite unwrap_of_cleared; [done|]. unfold is_cleared. simpl. by rewrite Hc'.
  - intros Hv. apply release_granted; simpl; [done| |done].
    apply verify_evidence_chain_app_iff. split; [done|]. split.
    + apply verify_chained. simpl. split_and!; try done.
    + intros a b Ha [= <-]. simpl. by rewrite Ha.
Qed.

Lemma discharge_clears_witness :
  ∃ o', discharge member_pointer sample_pending "pii_clean" "/comment" sample_registry
                  "pii_verifier" (Int 1700000000) = Return o' ∧
        unwrap o' = Return sample_value ∧
        verify_and_release_key sample_kms o'
        = Some (derive_key sample_kms [] (encode "test_secret")).
Proof.
  destruct (discharge_clears member_pointer sample_kms sample_pending
              "pii_clean" "/comment" sample_registry accept_all "pii_verifier"
              (Int 1700000000))
    as (o' & Hd & Hu & Hk); try done.
  - intros r Hr. apply list_elem_of_singleton in Hr as ->. discriminate.
  - exists o'. split_and!; try done. apply Hk. vm_compute. reflexivity.
Defined.

Lemma verify_evidence_chain_links_witness :
  sample_chained.(hash) = Some (compute_evidence_hash sample_chained).
Proof.
  apply (proj1 (verify_evidence_chain_links [sample_chained])).
  - vm_compute. reflexivity.
  - by apply list_elem_of_singleton.
Defined.

Lemma verify_evidence_chain_app_witness :
  verify_evidence_chain ([sample_chained] ++ [sample_chained]) ≠ true.
Proof.
  intros H.
  apply (proj1 (verify_evidence_chain_app [sample_chained] [sample_chained])) in H
    as (_ & _ & H).
  specialize (H sample_chained sample_chained eq_refl eq_refl). discriminate H.
Defined.

(* ===================================================================== *)
(** * Further properties of relscope, project and merge *)
(* ===================================================================== *)

Lemma lstrip_slash_shape (s : string) :
  lstrip_slash s = "" ∨ ∃ c t, lstrip_slash s = String c t ∧ c ≠ "/"%char.
Proof.
  induction s as [|c s IH]; simpl; [by left|].
  destruct (Ascii.eqb_spec c "/") as [->|Hne]; [done|]. right. by exists c, s.
Qed.

Lemma relscope_shape (scope path : string) : pointer_shaped (relscope scope path).
Proof.
  unfold relscope, pointer_shaped.
  destruct (String.eqb scope ""); [by left|].
  destruct (startswith _ _); [|by left].
  destruct (lstrip_slash_shape
              (drop_chars (String.length (lstrip_slash path)) (lstrip_slash scope)))
    as [->|(c & t & -> & Hc)]; [by left|].
  right. by exists c, t.
Qed.

Lemma project_resolved (resolve_pointer : Value → string → option Value)
    (o : ChavaObject) (p : string) (v' : Value) :
  well_formed o → resolve_pointer o.(value) p = Some v' →
  project resolve_pointer o p
  = Return {| value := v';
              obligations := omap (rewrite_as_specified p) o.(obligations);
              evidence := o.(evidence) |}.
Proof.
  intros Hwf Hr. unfold project. rewrite Hr, project_loop_rewrites. simpl.
  apply init_well_formed. apply Forall_forall. intros ob' Hin.
  apply list_elem_of_omap in Hin as (ob & Hin & Hrw).
  rewrite (rewrite_keeps_kind _ _ _ Hrw).
  unfold well_formed in Hwf. rewrite Forall_forall in Hwf. by apply Hwf.
Qed.

Lemma project_unresolved (resolve_pointer : Value → string → option Value)
    (o : ChavaObject) (p : string) :
  well_formed o → resolve_pointer o.(value) p = None →
  project resolve_pointer o p
  = Return {| value := VNull;
              obligations := o.(obligations) ++ [("invalid_path", "")];
              evidence := o.(evidence) |}.
Proof.
  intros Hwf Hr. unfold project. rewrite Hr. apply init_well_formed.
  apply Forall_app. split; [done|]. by repeat constructor.
Qed.

Lemma rewrite_shape (p : string) (ob ob' : string * string) :
  rewrite_as_specified p ob = Some ob' → pointer_shaped ob'.2.
Proof.
  unfold rewrite_as_specified. repeat case_decide; intros Hrw; simplify_eq; simpl.
  - apply relscope_shape.
  - by left.
Qed.

Lemma omap_kinds_sublist (p : string) (obs : list (string * string)) :
  List.map fst (omap (rewrite_as_specified p) obs) `sublist_of` List.map fst obs.
Proof.
  induction obs as [|ob obs IH]; simpl; [done|].
  destruct (rewrite_as_specified p ob) as [ob'|] eqn:E; simpl.
  - rewrite (rewrite_keeps_kind _ _ _ E). by apply sublist_skip.
  - by apply sublist_cons.
Qed.

(** X8. A projection that resolves never invents or renames an obligation:
    the kinds of the object returned are a subsequence of the kinds of [o];
    every scope it returns is the empty scope or a slash followed by a
    non-empty first segment; the evidence is that of [o]; and a cleared
    object stays cleared. *)
Theorem project_keeps_kinds (resolve_pointer : Value → string → option Value)
    (o : ChavaObject) (p : string) (v' : Value) :
  well_formed o → resolve_pointer o.(value) p = Some v' →
  ∃ o', project resolve_pointer o p = Return o' ∧
        o'.(value) = v' ∧ o'.(evidence) = o.(evidence) ∧
        List.map fst o'.(obligations) `sublist_of` List.map fst o.(obligations) ∧
        Forall (fun ob => pointer_shaped ob.2) o'.(obligations) ∧
        (is_cleared o = true → is_cleared o' = true).
Proof.
  intros Hwf Hr. eexists. split; [by apply project_resolved|]. simpl.
  split_and!; try done.
  - apply omap_kinds_sublist.
  - apply Forall_forall. intros ob' Hin.
    apply list_elem_of_omap in Hin as (ob & _ & Hrw). by eapply rewrite_shape.
  - intros Hc. apply is_cleared_iff in Hc as [Ho Hc].
    apply is_cleared_iff. simpl. by rewrite Ho.
Qed.

Lemma project_keeps_kinds_witness :
  ∃ o', project member_pointer sample_scoped "/comment" = Return o' ∧
        List.map fst o'.(obligations)
          `sublist_of` ["schema_ok"; "pii_clean"; "sql_safe"; "other_check"; "lang_ok"].
Proof.
  destruct (project_keeps_kinds member_pointer sample_scoped "/comment"
              (VDict [("text", VStr "Call me at 555-1234"); ("lang", VStr "en")]))
    as (o' & Hp & _ & _ & Hs & _).
  - by repeat constructor.
  - reflexivity.
  - by exists o'.
Defined.

(** X9. A projection that does not resolve leaves an object that is not
    cleared, whatever [o] was: [project] returns the null value under the
    obligations of [o] and [("invalid_path", "")], so [unwrap] raises with
    [invalid_path] among the kinds left and the KMS releases no key. *)
Theorem project_unresolved_blocks (resolve_pointer : Value → string → option Value)
    (kms : KeyManagementService.t) (o : ChavaObject) (p : string) :
  well_formed o → resolve_pointer o.(value) p = None →
  ∃ o' kinds,
    project resolve_pointer o p = Return o' ∧
    o'.(value) = VNull ∧
    unwrap o' = Raise (ObligationViolation kinds) ∧ "invalid_path" ∈ kinds ∧
    verify_and_release_key kms o' = None.
Proof.
  intros Hwf Hr. eexists _, _. split; [by apply project_unresolved|].
  split; [done|]. split; [|split].
  - apply unwrap_of_uncleared. unfold is_cleared. simpl.
    rewrite length_app. simpl. by rewrite Nat.add_1_r.
  - simpl. apply elem_of_list_to_set, list_elem_of_fmap.
    exists ("invalid_path", ""). split; [done|].
    apply elem_of_app. right. by apply list_elem_of_singleton.
  - apply release_refused. left. simpl. by destruct (obligations o).
Qed.

Lemma project_unresolved_blocks_witness :
  ∃ o' kinds,
    project member_pointer
      {| value := sample_value; obligations := []; evidence := [] |} "/nonexistent"
    = Return o' ∧
    unwrap o' = Raise (ObligationViolation kinds) ∧ "invalid_path" ∈ kinds.
Proof.
  destruct (project_unresolved_blocks member_pointer sample_kms
              {| value := sample_value; obligations := []; evidence := [] |}
              "/nonexistent")
    as (o' & kinds & Hp & _ & Hu & Hin & _).
  - constructor.
  - reflexivity.
  - by exists o', kinds.
Defined.

Lemma rewrite_at_root (k s : string) :
  pointer_shaped s → rewrite_as_specified "" (k, s) = Some (k, s).
Proof.
  unfold rewrite_as_specified. intros [->|(c & t & -> & Hc)]; cbn [fst snd].
  - by rewrite decide_True by auto.
  - rewrite decide_True by (right; right; reflexivity). unfold relscope. simpl.
    apply Ascii.eqb_neq in Hc. rewrite Hc. simpl. by rewrite Hc.
Qed.

(** X10. Projection at the root. When the empty pointer resolves to the
    whole value, [project o ""] returns [o] itself provided every scope is
    empty or a slash followed by a non-empty first segment; an obligation
    whose scope does not begin with a slash is dropped by it. *)
Theorem project_at_root (resolve_pointer : Value → string → option Value)
    (o : ChavaObject) :
  well_formed o → resolve_pointer o.(value) "" = Some o.(value) →
  (Forall (fun ob => pointer_shaped ob.2) o.(obligations) →
   project resolve_pointer o "" = Return o) ∧
  (∀ o' k c t, c ≠ "/"%char → project resolve_pointer o "" = Return o' →
               (k, String c t) ∉ o'.(obligations)) .
Proof.
  intros Hwf Hr. rewrite (project_resolved _ _ _ _ Hwf Hr). split.
  - intros Hs. destruct o as [v obs ev]. simpl in *. do 2 f_equal.
    clear Hwf Hr. induction Hs as [|[k s] obs Hk Hs IH]; simpl; [done|].
    rewrite (rewrite_at_root k s Hk). simpl. by f_equal.
  - intros o' k c t Hc [= <-]. simpl. intros Hin.
    apply list_elem_of_omap in Hin as (ob & _ & Hrw).
    apply rewrite_shape in Hrw as [H|(c' & t' & H & Hc')]; simpl in H; [done|].
    by injection H as -> ->.
Qed.

Lemma project_at_root_witness :
  project member_pointer sample_scoped "" = Return sample_scoped ∧
  project member_pointer
    {| value := sample_value; obligations := [("pii_clean", "comment")];
       evidence := [] |} ""
  = Return {| value := sample_value; obligations := []; evidence := [] |}.
Proof.
  split.
  - apply (project_at_root member_pointer sample_scoped).
    + by repeat constructor.
    + reflexivity.
    + apply Forall_cons; split; [by left|].
      repeat (apply Forall_cons; split; [right; eexists _, _; by split|]).
      constructor.
  - reflexivity.
Defined.

Lemma append_empty_r (s : string) : s +:+ "" = s.
Proof.
  induction s as [|c s IH]; [done|].
  change (String c (s +:+ "") = String c s). by rewrite IH.
Qed.

Lemma merge_loop (prefix : string) (obs acc : list (string * string)) :
  fold_left (merge_step prefix) obs acc
  = acc ++ List.map (fun o => (o.1, prefix +:+ o.2)) obs.
Proof.
  revert acc. induction obs as [|[k s] obs IH]; intros acc; simpl.
  - by rewrite app_nil_r.
  - rewrite IH. unfold merge_step. simpl. rewrite <- app_assoc. simpl.
    destruct (String.eqb_spec s "") as [->|]; [|done]. by rewrite append_empty_r.
Qed.

Lemma merge_well_formed (a b : ChavaObject) :
  well_formed a → well_formed b →
  merge a b
  = Return {| value := VList [a.(value); b.(value)];
              obligations :=
                List.map (fun o => (o.1, "/0" +:+ o.2)) a.(obligations)
                ++ List.map (fun o => (o.1, "/1" +:+ o.2)) b.(obligations);
              evidence := a.(evidence) ++ b.(evidence) |}.
Proof.
  intros Ha Hb. unfold merge. rewrite !merge_loop. simpl.
  apply init_well_formed. apply Forall_app. split.
  - apply Forall_fmap. by apply (Forall_impl _ _ _ Ha).
  - apply Forall_fmap. by apply (Forall_impl _ _ _ Hb).
Qed.

Lemma has_conflict_app (E1 E2 : list EvidenceRecord) :
  has_conflict (E1 ++ E2) = true
  ↔ has_conflict E1 = true ∨ has_conflict E2 = true
    ∨ ∃ r1 r2, r1 ∈ E1 ∧ r2 ∈ E2 ∧ r1.(kind) = r2.(kind)
               ∧ r1.(result) = "reject" ∧ r2.(result) = "accept".
Proof.
  rewrite !has_conflict_positions. split.
  - intros (i & j & ri & rj & Hij & Hi & Hj & Hk & Hri & Hrj).
    apply lookup_app_Some in Hi as [Hi|[Hil Hi]];
      apply lookup_app_Some in Hj as [Hj|[Hjl Hj]].
    + left. by exists i, j, ri, rj.
    + right. right. exists ri, rj.
      split_and!; try done; by eapply list_elem_of_lookup_2.
    + apply lookup_lt_Some in Hj. lia.
    + right. left. exists (i - List.length E1)%nat, (j - List.length E1)%nat, ri, rj.
      split_and!; try done. lia.
  - intros [(i & j & ri & rj & Hij & Hi & Hj & H)
           |[(i & j & ri & rj & Hij & Hi & Hj & H)
            |(r1 & r2 & H1 & H2 & H)]].
    + exists i, j, ri, rj.
      split; [done|]. split; [by apply lookup_app_l_Some|].
      split; [by apply lookup_app_l_Some|done].
    + exists (List.length E1 + i)%nat, (List.length E1 + j)%nat, ri, rj.
      split; [lia|]. split; [|split; [|done]].
      * rewrite lookup_app_r by lia. rewrite <- Hi. f_equal. lia.
      * rewrite lookup_app_r by lia. rewrite <- Hj. f_equal. lia.
    + apply list_elem_of_lookup in H1 as (i & Hi), H2 as (j & Hj).
      exists i, (List.length E1 + j)%nat, r1, r2.
      split; [apply lookup_lt_Some in Hi; lia|].
      split; [by apply lookup_app_l_Some|]. split; [|done].
      rewrite lookup_app_r by lia. rewrite <- Hj. f_equal. lia.
Qed.

Lemma merge_raises (a b : ChavaObject) :
  ¬ well_formed a ∨ ¬ well_formed b →
  merge a b = Raise (ValueError "Invalid obligation kind: ").
Proof.
  intros H. unfold merge. rewrite !merge_loop. simpl. apply init_raises.
  rewrite Forall_app, !Forall_fmap. intros [Ha Hb].
  destruct H as [H|H]; apply H.
  - by apply (Forall_impl _ _ _ Ha).
  - by apply (Forall_impl _ _ _ Hb).
Qed.

(** X11. [merge] loses no obligation and invents none: for objects as the
    constructor builds them it returns the two values in a list, the
    evidence of the first followed by that of the second, and every
    obligation of the first under [/0] and of the second under [/1], in
    order; an empty kind in either object makes it raise [ValueError]. *)
Theorem merge_obligations (a b : ChavaObject) :
  (well_formed a → well_formed b →
   ∃ m, merge a b = Return m ∧
        m.(value) = VList [a.(value); b.(value)] ∧
        m.(evidence) = a.(evidence) ++ b.(evidence) ∧
        m.(obligations)
        = List.map (fun o => (o.1, "/0" +:+ o.2)) a.(obligations)
          ++ List.map (fun o => (o.1, "/1" +:+ o.2)) b.(obligations) ∧
        (∀ k s, (k, s) ∈ a.(obligations) → (k, "/0" +:+ s) ∈ m.(obligations)) ∧
        (∀ k s, (k, s) ∈ b.(obligations) → (k, "/1" +:+ s) ∈ m.(obligations))) ∧
  (¬ well_formed a ∨ ¬ well_formed b →
   merge a b = Raise (ValueError "Invalid obligation kind: ")).
Proof.
  split.
  - intros Ha Hb. eexists. split; [by apply merge_well_formed|]. simpl.
    split_and!; try done.
    + intros k s Hin. apply elem_of_app. left.
      apply list_elem_of_fmap. by exists (k, s).
    + intros k s Hin. apply elem_of_app. right.
      apply list_elem_of_fmap. by exists (k, s).
  - apply merge_raises.
Qed.

Lemma merge_obligations_witness :
  ∃ m, merge sample_pending sample_object = Return m ∧
       m.(obligations)
       = [("pii_clean", "/0/comment"); ("pii_clean", "/1/comment"); ("sql_safe", "/1");
          ("pii_clean", "/1/comment")].
Proof.
  destruct (proj1 (merge_obligations sample_pending sample_object))
    as (m & Hm & _ & _ & Ho & _).
  - by repeat constructor.
  - by repeat constructor.
  - by exists m.
Defined.

(** X12. A merged object is cleared only if both objects were, and two
    cleared objects merge into a cleared one exactly when no kind has a
    reject in the first and an accept in the second. *)
Theorem merge_cleared (a b m : ChavaObject) :
  merge a b = Return m →
  (is_cleared m = true → is_cleared a = true ∧ is_cleared b = true) ∧
  (is_cleared a = true → is_cleared b = true →
   (is_cleared m = true
    ↔ ¬ ∃ r1 r2, r1 ∈ a.(evidence) ∧ r2 ∈ b.(evidence) ∧ r1.(kind) = r2.(kind)
                 ∧ r1.(result) = "reject" ∧ r2.(result) = "accept")).
Proof.
  intros Hm.
  destruct (decide (well_formed a)) as [Ha|Ha];
    [|by rewrite merge_raises in Hm by auto].
  destruct (decide (well_formed b)) as [Hb|Hb];
    [|by rewrite merge_raises in Hm by auto].
  rewrite merge_well_formed in Hm by done. injection Hm as <-.
  rewrite !is_cleared_iff. simpl. split.
  - intros [Ho Hc]. apply app_eq_nil in Ho as [Hoa Hob].
    apply fmap_nil_inv in Hoa, Hob.
    destruct (has_conflict (evidence a)) eqn:Hca.
    { rewrite (proj2 (has_conflict_app _ _)) in Hc by auto. done. }
    destruct (has_conflict (evidence b)) eqn:Hcb.
    { rewrite (proj2 (has_conflict_app _ _)) in Hc by auto. done. }
    done.
  - intros [-> Hca] [-> Hcb]. simpl. split.
    + intros [_ Hc] Hx. rewrite (proj2 (has_conflict_app _ _)) in Hc by auto. done.
    + intros Hx. split; [done|].
      destruct (has_conflict (evidence a ++ evidence b)) eqn:Hc; [|done].
      apply has_conflict_app in Hc as [?|[?|?]]; congruence || done.
Qed.

Lemma merge_cleared_witness :
  ∃ m, merge {| value := sample_value; obligations := [];
                evidence := [verdict (Some "sql_safe") "reject"] |}
             {| value := sample_value; obligations := [];
                evidence := [verdict (Some "sql_safe") "accept"] |}
       = Return m ∧ is_cleared m ≠ true.
Proof.
  destruct (merge {| value := sample_value; obligations := [];
                     evidence := [verdict (Some "sql_safe") "reject"] |}
                  {| value := sample_value; obligations := [];
                     evidence := [verdict (Some "sql_safe") "accept"] |})
    as [m|e] eqn:Hm; [|vm_compute in Hm; discriminate].
  exists m. split; [done|]. intros Hc.
  destruct (merge_cleared _ _ m Hm) as [_ H].
  apply (H eq_refl eq_refl) in Hc. apply Hc.
  exists (verdict (Some "sql_safe") "reject"), (verdict (Some "sql_safe") "accept").
  split_and!; try done; by apply list_elem_of_singleton.
Defined.

(* ===================================================================== *)
(** * Merged evidence and the hash chain *)
(* ===================================================================== *)

Lemma round_length (s : list Z) (kw : Z * Z) :
  List.length s = 8%nat → List.length (SHA256.round s kw) = 8%nat.
Proof.
  intros H. unfold SHA256.round.
  do 9 (destruct s as [|? s]; try done).
Qed.

Lemma fold_round_length (kws : list (Z * Z)) (s : list Z) :
  List.length s = 8%nat → List.length (fold_left SHA256.round kws s) = 8%nat.
Proof.
  revert s. induction kws as [|kw kws IH]; intros s H; [done|].
  simpl. apply IH. by apply round_length.
Qed.

Lemma compress_length (h : list Z) (block : bytes) :
  List.length h = 8%nat → List.length (SHA256.compress h block) = 8%nat.
Proof.
  intros H. unfold SHA256.compress.
  rewrite length_map, length_combine, fold_round_length, H by done. done.
Qed.

Lemma blocks_length (n : nat) (h : list Z) (b : bytes) :
  List.length h = 8%nat → List.length (SHA256.blocks n h b) = 8%nat.
Proof.
  revert h b. induction n as [|n IH]; intros h b H; [done|].
  simpl. apply IH. by apply compress_length.
Qed.

Lemma flat_map_be_bytes_length (l : list Z) :
  List.length (flat_map (SHA256.be_bytes 4) l) = (4 * List.length l)%nat.
Proof.
  induction l as [|x l IH]; [done|].
  cbn [flat_map]. rewrite length_app, IH. simpl. lia.
Qed.

Lemma digest_length (msg : bytes) : List.length (SHA256.digest msg) = 32%nat.
Proof.
  unfold SHA256.digest. rewrite flat_map_be_bytes_length, blocks_length; done.
Qed.

Lemma hexlify_length (b : bytes) :
  String.length (hexlify b) = (2 * List.length b)%nat.
Proof.
  induction b as [|x b IH]; [done|].
  change (S (S (String.length (hexlify b))) = (2 * S (List.length b))%nat).
  rewrite IH. lia.
Qed.

Lemma compute_evidence_hash_length (r : EvidenceRecord) :
  String.length (compute_evidence_hash r) = 64%nat.
Proof.
  unfold compute_evidence_hash, SHA256.hexdigest.
  by rewrite hexlify_length, digest_length.
Qed.

Lemma compute_evidence_hash_nonempty (r : EvidenceRecord) :
  compute_evidence_hash r ≠ "".
Proof.
  intros H. pose proof (compute_evidence_hash_length r) as Hl.
  rewrite H in Hl. done.
Qed.

(** X13. Merging concatenates two evidence logs without re-linking them:
    when both objects carry evidence and the second log starts a chain of
    its own (an empty previous hash, as [discharge] writes on an empty log),
    the chain of the merged object does not verify, nor does that of any
    object whose evidence extends it, and the key service releases no key
    for them. *)
Theorem merge_breaks_chain (kms : KeyManagementService.t) (a b m m' : ChavaObject)
    (ra rb : EvidenceRecord) (E' : list EvidenceRecord) :
  merge a b = Return m →
  last a.(evidence) = Some ra → head b.(evidence) = Some rb →
  default "" rb.(prev_hash) = "" →
  m'.(evidence) = m.(evidence) ++ E' →
  verify_evidence_chain m'.(evidence) = false ∧
  verify_and_release_key kms m' = None.
Proof.
  intros Hm Hra Hrb Hprev HE.
  assert (Hev : m.(evidence) = a.(evidence) ++ b.(evidence)).
  { unfold merge, ChavaObject_init in Hm.
    destruct (List.find _ _); [discriminate Hm|].
    by injection Hm as <-. }
  assert (Hv : verify_evidence_chain m'.(evidence) = false).
  { destruct (verify_evidence_chain (evidence m')) eqn:Hc; [|done]. exfalso.
    rewrite HE, Hev in Hc.
    apply verify_evidence_chain_app_iff in Hc as (Hc & _ & _).
    apply verify_evidence_chain_app_iff in Hc as (Ha & _ & Hl).
    specialize (Hl ra rb Hra Hrb). rewrite Hprev in Hl.
    apply verify_chained, chained_positions in Ha as (Hok & _ & _).
    rewrite Forall_forall in Hok.
    assert (Hin : ra ∈ a.(evidence)).
    { apply last_Some in Hra as (l' & ->). apply elem_of_app. right.
      by apply list_elem_of_singleton. }
    specialize (Hok ra Hin). unfold record_ok in Hok. rewrite Hok in Hl.
    by apply (compute_evidence_hash_nonempty ra). }
  split; [done|]. apply release_refused. auto.
Qed.

Lemma merge_breaks_chain_witness :
  ∃ m, merge {| value := sample_value; obligations := []; evidence := [sample_chained] |}
             {| value := sample_value; obligations := []; evidence := [sample_chained] |}
       = Return m ∧
       m.(obligations) = [] ∧
       verify_evidence_chain m.(evidence) = false ∧
       verify_and_release_key sample_kms m = None.
Proof.
  destruct (merge {| value := sample_value; obligations := []; evidence := [sample_chained] |}
                  {| value := sample_value; obligations := []; evidence := [sample_chained] |})
    as [m|e] eqn:Hm; [|vm_compute in Hm; discriminate].
  exists m. split; [done|]. split.
  - vm_compute in Hm. by injection Hm as <-.
  - apply (merge_breaks_chain sample_kms _ _ m m sample_chained sample_chained [] Hm).
    + reflexivity.
    + reflexivity.
    + reflexivity.
    + by rewrite app_nil_r.
Defined.

(* ===================================================================== *)
(** * Projecting a merged object *)
(* ===================================================================== *)

Lemma rewrite_under_0 (k s : string) :
  pointer_shaped s → rewrite_as_specified "/0" (k, "/0" +:+ s) = Some (k, s).
Proof.
  unfold rewrite_as_specified. intros [->|(c & t & -> & Hc)]; cbn [fst snd].
  - by rewrite decide_True by (right; left; reflexivity).
  - rewrite decide_True by (right; right; reflexivity).
    unfold relscope. simpl. apply Ascii.eqb_neq in Hc. by rewrite Hc.
Qed.

Lemma rewrite_under_1 (k s : string) :
  pointer_shaped s → rewrite_as_specified "/1" (k, "/1" +:+ s) = Some (k, s).
Proof.
  unfold rewrite_as_specified. intros [->|(c & t & -> & Hc)]; cbn [fst snd].
  - by rewrite decide_True by (right; left; reflexivity).
  - rewrite decide_True by (right; right; reflexivity).
    unfold relscope. simpl. apply Ascii.eqb_neq in Hc. by rewrite Hc.
Qed.

Lemma rewrite_beside_0 (k s : string) :
  rewrite_as_specified "/0" (k, "/1" +:+ s) = None.
Proof.
  unfold rewrite_as_specified. cbn [fst snd].
  rewrite decide_False; [by rewrite decide_False|].
  intros [H|[H|H]]; discriminate H.
Qed.

Lemma rewrite_beside_1 (k s : string) :
  rewrite_as_specified "/1" (k, "/0" +:+ s) = None.
Proof.
  unfold rewrite_as_specified. cbn [fst snd].
  rewrite decide_False; [by rewrite decide_False|].
  intros [H|[H|H]]; discriminate H.
Qed.

Lemma omap_rewrite_all (f : string * string → option (string * string))
    (g : string * string → string * string) (obs : list (string * string)) :
  Forall (fun ob => f (g ob) = Some ob) obs → omap f (List.map g obs) = obs.
Proof.
  induction 1 as [|ob obs H _ IH]; [done|]. simpl. rewrite H. simpl. f_equal. exact IH.
Qed.

Lemma omap_rewrite_none (f : string * string → option (string * string))
    (g : string * string → string * string) (obs : list (string * string)) :
  (∀ ob, f (g ob) = None) → omap f (List.map g obs) = [].
Proof.
  intros H. induction obs as [|ob obs IH]; [done|]. simpl. rewrite H. exact IH.
Qed.

(** X14. [project] undoes [merge]: projecting the merged object at [/0]
    gives back the value and the obligations of the first object, at [/1]
    those of the second, each with the evidence of both, provided the scopes
    of that object are pointers (empty, or a slash followed by a non-empty
    first segment) and the resolver finds the two positions of the list. *)
Theorem project_merge (resolve_pointer : Value → string → option Value)
    (a b : ChavaObject) :
  well_formed a → well_formed b →
  ∃ m, merge a b = Return m ∧
    (Forall (fun ob => pointer_shaped ob.2) a.(obligations) →
     resolve_pointer m.(value) "/0" = Some a.(value) →
     project resolve_pointer m "/0"
     = Return {| value := a.(value); obligations := a.(obligations);
                 evidence := a.(evidence) ++ b.(evidence) |}) ∧
    (Forall (fun ob => pointer_shaped ob.2) b.(obligations) →
     resolve_pointer m.(value) "/1" = Some b.(value) →
     project resolve_pointer m "/1"
     = Return {| value := b.(value); obligations := b.(obligations);
                 evidence := a.(evidence) ++ b.(evidence) |}).
Proof.
  intros Ha Hb. eexists. split; [by apply merge_well_formed|].
  assert (Hwf : well_formed
            {| value := VList [a.(value); b.(value)];
               obligations :=
                 List.map (fun o => (o.1, "/0" +:+ o.2)) a.(obligations)
                 ++ List.map (fun o => (o.1, "/1" +:+ o.2)) b.(obligations);
               evidence := a.(evidence) ++ b.(evidence) |}).
  { unfold well_formed. simpl. rewrite Forall_app, !Forall_fmap. split.
    - by apply (Forall_impl _ _ _ Ha).
    - by apply (Forall_impl _ _ _ Hb). }
  split; intros Hs Hr; rewrite (project_resolved _ _ _ _ Hwf Hr); simpl;
    rewrite omap_app.
  - rewrite (omap_rewrite_all _ _ a.(obligations)), omap_rewrite_none.
    + by rewrite app_nil_r.
    + intros [k s]. apply rewrite_beside_0.
    + apply (Forall_impl _ _ _ Hs). intros [k s] Hp. by apply rewrite_under_0.
  - rewrite (omap_rewrite_all _ _ b.(obligations)), omap_rewrite_none.
    + done.
    + intros [k s]. apply rewrite_beside_1.
    + apply (Forall_impl _ _ _ Hs). intros [k s] Hp. by apply rewrite_under_1.
Qed.

Lemma project_merge_witness :
  ∃ m, merge sample_pending sample_scoped = Return m ∧
       project position_pointer m "/0"
       = Return {| value := sample_value;
                   obligations := [("pii_clean", "/comment")];
                   evidence := [sample_chained; sample_chained] |} ∧
       project position_pointer m "/1"
       = Return {| value := sample_nested;
                   obligations := sample_scoped.(obligations);
                   evidence := [sample_chained; sample_chained] |}.
Proof.
  destruct (project_merge position_pointer sample_pending sample_scoped)
    as (m & Hm & H0 & H1).
  - by repeat constructor.
  - by repeat constructor.
  - exists m. split; [done|].
    assert (Hv : m.(value) = VList [sample_value; sample_nested]).
    { vm_compute in Hm. by injection Hm as <-. }
    split.
    + apply H0; [|by rewrite Hv].
      repeat (apply Forall_cons; split; [right; eexists _, _; by split|]). constructor.
    + apply H1; [|by rewrite Hv].
      apply Forall_cons; split; [by left|].
      repeat (apply Forall_cons; split; [right; eexists _, _; by split|]). constructor.
Defined.

(* ===================================================================== *)
(** * The inverted index *)
(* ===================================================================== *)

Section InvertedIndex.
Import InvertedObligationIndex.

Lemma inverted_add_bucket (self : InvertedObligationIndex.t) (obj_id : string)
    (obligations : list (string * string)) (k x : string) :
  x ∈ default ∅ (index (InvertedObligationIndex.add self obj_id obligations) !! k)
  ↔ x ∈ default ∅ (index self !! k) ∨ (x = obj_id ∧ k ∈ obligations.*1).
Proof.
  unfold InvertedObligationIndex.add. revert self.
  induction obligations as [|[k0 s0] obs IH]; intros self.
  - simpl. split; [by left|]. intros [?|[_ H]]; [done|]. by apply elem_of_nil in H.
  - cbn [fold_left]. rewrite IH. cbn [index fst fmap list_fmap].
    rewrite elem_of_cons. destruct (decide (k = k0)) as [->|Hne].
    + rewrite lookup_insert_eq.
      change (default ∅ (Some ?a)) with a.
      rewrite elem_of_union, elem_of_singleton. tauto.
    + rewrite lookup_insert_ne by done. tauto.
Qed.

Lemma inverted_remove_bucket (self : InvertedObligationIndex.t) (obj_id k s k' : string) :
  default ∅ (index (InvertedObligationIndex.remove_obligation self obj_id k s) !! k')
  = if decide (k' = k) then default ∅ (index self !! k') ∖ {[obj_id]}
    else default ∅ (index self !! k').
Proof.
  unfold InvertedObligationIndex.remove_obligation.
  destruct (index self !! k) as [ids|] eqn:E.
  - destruct (decide (obj_id ∈ ids)) as [Hin|Hin].
    + destruct (decide (ids ∖ {[obj_id]} = ∅)) as [He|He]; simpl.
      * destruct (decide (k' = k)) as [->|Hne].
        -- rewrite lookup_delete_eq, E. simpl. by rewrite He.
        -- by rewrite lookup_delete_ne.
      * destruct (decide (k' = k)) as [->|Hne].
        -- by rewrite lookup_insert_eq, E.
        -- by rewrite lookup_insert_ne.
    + destruct (decide (k' = k)) as [->|Hne]; [|done].
      rewrite E. simpl. apply set_eq. intros y.
      rewrite elem_of_difference, elem_of_singleton. split; [|tauto].
      intros Hy. split; [done|]. by intros ->.
  - destruct (decide (k' = k)) as [->|Hne]; [|done].
    rewrite E. simpl. apply set_eq. intros y.
    rewrite elem_of_difference, elem_of_singleton. split; [|tauto].
    intros Hy. by apply elem_of_empty in Hy.
Qed.

Lemma no_empty_bucket_add (self : InvertedObligationIndex.t) (obj_id : string)
    (obligations : list (string * string)) :
  no_empty_bucket self →
  no_empty_bucket (InvertedObligationIndex.add self obj_id obligations).
Proof.
  unfold InvertedObligationIndex.add. revert self.
  induction obligations as [|[k0 s0] obs IH]; intros self Hn; simpl; [done|].
  apply IH. intros k ids. simpl. destruct (decide (k = k0)) as [->|Hne].
  - rewrite lookup_insert_eq. intros [= <-] He.
    apply (not_elem_of_empty (C := gset string) obj_id). rewrite <- He.
    apply elem_of_union. right. by apply elem_of_singleton.
  - rewrite lookup_insert_ne by done. apply Hn.
Qed.

Lemma no_empty_bucket_remove (self : InvertedObligationIndex.t) (obj_id k s : string) :
  no_empty_bucket self →
  no_empty_bucket (InvertedObligationIndex.remove_obligation self obj_id k s).
Proof.
  intros Hn. unfold InvertedObligationIndex.remove_obligation.
  destruct (index self !! k) as [ids|] eqn:E; [|done].
  destruct (decide (obj_id ∈ ids)); [|done].
  destruct (decide (ids ∖ {[obj_id]} = ∅)) as [He|He]; intros k' ids'; simpl.
  - destruct (decide (k' = k)) as [->|Hne].
    + by rewrite lookup_delete_eq.
    + rewrite lookup_delete_ne by done. apply Hn.
  - destruct (decide (k' = k)) as [->|Hne].
    + rewrite lookup_insert_eq. by intros [= <-].
    + rewrite lookup_insert_ne by done. apply Hn.
Qed.

End InvertedIndex.

(** X15. The inverted index lists an object under a kind exactly when some
    [add] gave it an obligation of that kind: after [add], the ids under a
    kind are those listed before, and the added id if the kind is among its
    obligations; no id is listed twice. *)
Theorem inverted_add_lists (self : InvertedObligationIndex.t) (obj_id : string)
    (obligations : list (string * string)) (k x : string) :
  (x ∈ InvertedObligationIndex.get_objects_with_kind
         (InvertedObligationIndex.add self obj_id obligations) k
   ↔ x ∈ InvertedObligationIndex.get_objects_with_kind self k
     ∨ (x = obj_id ∧ ∃ s, (k, s) ∈ obligations)) ∧
  NoDup (InvertedObligationIndex.get_objects_with_kind
           (InvertedObligationIndex.add self obj_id obligations) k).
Proof.
  unfold InvertedObligationIndex.get_objects_with_kind. split; [|apply NoDup_elements].
  rewrite !elem_of_elements, inverted_add_bucket, list_elem_of_fmap.
  split; (intros [?|[-> H]]; [by left|right; split; [done|]]).
  - destruct H as ([k' s] & -> & Hin). by exists s.
  - destruct H as (s & Hin). by exists (k, s).
Qed.

(** X16. [remove_obligation] of the inverted index does not look at the
    scope: it takes the object out of the list of the kind, whatever other
    obligations of that kind the object was added with, and leaves every
    other id and kind as listed. *)
Theorem inverted_remove_ignores_scope (self : InvertedObligationIndex.t)
    (obj_id k s : string) :
  (∀ k' x,
     x ∈ InvertedObligationIndex.get_objects_with_kind
           (InvertedObligationIndex.remove_obligation self obj_id k s) k'
     ↔ x ∈ InvertedObligationIndex.get_objects_with_kind self k'
       ∧ ¬ (x = obj_id ∧ k' = k)) ∧
  (∀ obligations,
     obj_id ∉ InvertedObligationIndex.get_objects_with_kind
                (InvertedObligationIndex.remove_obligation
                   (InvertedObligationIndex.add self obj_id obligations) obj_id k s) k).
Proof.
  assert (H : ∀ self k' x,
     x ∈ InvertedObligationIndex.get_objects_with_kind
           (InvertedObligationIndex.remove_obligation self obj_id k s) k'
     ↔ x ∈ InvertedObligationIndex.get_objects_with_kind self k'
       ∧ ¬ (x = obj_id ∧ k' = k)).
  { intros self' k' x. unfold InvertedObligationIndex.get_objects_with_kind.
    rewrite !elem_of_elements, inverted_remove_bucket.
    destruct (decide (k' = k)) as [->|Hne].
    - rewrite elem_of_difference, elem_of_singleton. tauto.
    - tauto. }
  split; [apply H|]. intros obs Hin. apply H in Hin as [_ Hin]. by apply Hin.
Qed.

(** X17. Adding one obligation of an object that the inverted index does
    not list under that kind, and removing it again, gives back the index
    as it was, when no kind of the index has an empty set; the index after
    the [add] has none either. *)
Theorem inverted_add_remove (self : InvertedObligationIndex.t)
    (obj_id k s s' : string) :
  InvertedObligationIndex.no_empty_bucket self →
  obj_id ∉ InvertedObligationIndex.get_objects_with_kind self k →
  InvertedObligationIndex.remove_obligation
    (InvertedObligationIndex.add self obj_id [(k, s)]) obj_id k s' = self ∧
  InvertedObligationIndex.no_empty_bucket
    (InvertedObligationIndex.add self obj_id [(k, s)]).
Proof.
  intros Hn Hin. split; [|by apply no_empty_bucket_add].
  unfold InvertedObligationIndex.get_objects_with_kind in Hin.
  rewrite elem_of_elements in Hin.
  destruct self as [idx]. unfold InvertedObligationIndex.remove_obligation. simpl in *.
  rewrite lookup_insert_eq.
  rewrite decide_True by (apply elem_of_union; right; by apply elem_of_singleton).
  assert (Hd : (default ∅ (idx !! k) ∪ {[obj_id]}) ∖ {[obj_id]} = default ∅ (idx !! k)).
  { apply set_eq. intros y.
    rewrite elem_of_difference, elem_of_union, elem_of_singleton. split; [tauto|].
    intros Hy. split; [by left|]. by intros ->. }
  rewrite Hd. destruct (idx !! k) as [ids|] eqn:E; simpl.
  - rewrite decide_False by by apply (Hn k).
    f_equal. rewrite insert_insert_eq. by apply insert_id.
  - rewrite decide_True by done. f_equal. rewrite delete_insert_eq. by apply delete_id.
Qed.

Lemma inverted_add_remove_witness :
  InvertedObligationIndex.remove_obligation
    (InvertedObligationIndex.add
       (InvertedObligationIndex.add InvertedObligationIndex.init "obj1"
          [("pii_clean", "/comment")])
       "obj2" [("pii_clean", "/email")])
    "obj2" "pii_clean" "/email"
  = InvertedObligationIndex.add InvertedObligationIndex.init "obj1"
      [("pii_clean", "/comment")].
Proof.
  destruct (inverted_add_remove
              (InvertedObligationIndex.add InvertedObligationIndex.init "obj1"
                 [("pii_clean", "/comment")]) "obj2" "pii_clean" "/email" "/email")
    as [Hrt _]; [| |exact Hrt].
  - apply no_empty_bucket_add. intros k ids H.
    unfold InvertedObligationIndex.init in H. cbn [InvertedObligationIndex.index] in H.
    by rewrite lookup_empty in H.
  - unfold InvertedObligationIndex.get_objects_with_kind. rewrite elem_of_elements.
    intros H. apply inverted_add_bucket in H as [H|[H _]]; [|discriminate H].
    by apply elem_of_empty in H.
Defined.

(* ===================================================================== *)
(** * Removing from the pointer index *)
(* ===================================================================== *)

Section PyDictDelFacts.
Context {K V : Type} `{EqDecision K}.
Implicit Types (d : list (K * V)) (k : K) (v : V).

Lemma dict_del_keys d k k' : k' ∈ (dict_del d k).*1 → k' ∈ d.*1.
Proof.
  induction d as [|[k0 v0] d IH]; simpl; [done|].
  destruct (decide (k0 = k)) as [->|Hne]; simpl.
  - intros Hin. apply elem_of_cons. by right.
  - intros Hin. apply elem_of_cons in Hin as [->|Hin]; apply elem_of_cons; auto.
Qed.

Lemma dict_del_NoDup d k : NoDup d.*1 → NoDup (dict_del d k).*1.
Proof.
  induction d as [|[k0 v0] d IH]; simpl; intros Hnd; [done|].
  apply NoDup_cons in Hnd as [Hn Hnd].
  destruct (decide (k0 = k)) as [->|Hne]; simpl; [done|].
  apply NoDup_cons. split; [|by apply IH].
  intros Hin. by apply dict_del_keys in Hin.
Qed.

Lemma dict_get_absent d k : k ∉ d.*1 → dict_get d k = None.
Proof.
  induction d as [|[k0 v0] d IH]; simpl; intros Hn; [done|].
  destruct (decide (k0 = k)) as [->|Hne].
  - exfalso. apply Hn, elem_of_cons. by left.
  - apply IH. intros Hin. apply Hn, elem_of_cons. by right.
Qed.

Lemma dict_get_del d k k' :
  NoDup d.*1 →
  dict_get (dict_del d k) k' = if decide (k' = k) then None else dict_get d k'.
Proof.
  induction d as [|[k0 v0] d IH]; simpl; intros Hnd.
  - by destruct (decide (k' = k)).
  - apply NoDup_cons in Hnd as [Hn Hnd].
    destruct (decide (k0 = k)) as [->|Hne]; simpl.
    + destruct (decide (k' = k)) as [->|Hne']; [by apply dict_get_absent|].
      by rewrite decide_False by congruence.
    + rewrite IH by done. destruct (decide (k0 = k')) as [->|Hne'].
      * by rewrite decide_False by congruence.
      * done.
Qed.

Lemma Forall_dict_del (P : K * V → Prop) d k : Forall P d → Forall P (dict_del d k).
Proof.
  induction 1 as [|[k0 v0] d H0 Hd IH]; simpl; [done|].
  destruct (decide (k0 = k)); [done|]. by constructor.
Qed.

Lemma dict_del_set_absent d k v :
  dict_get d k = None → dict_del (dict_set d k v) k = d.
Proof.
  induction d as [|[k0 v0] d IH]; simpl.
  - by rewrite decide_True.
  - destruct (decide (k0 = k)) as [->|Hne]; [done|]. intros Hg. simpl.
    rewrite decide_False by done. by rewrite IH.
Qed.

Lemma dict_set_set d k v v' : dict_set (dict_set d k v) k v' = dict_set d k v'.
Proof.
  induction d as [|[k0 v0] d IH]; simpl.
  - by rewrite decide_True.
  - destruct (decide (k0 = k)) as [->|Hne]; simpl.
    + by rewrite decide_True.
    + rewrite decide_False by done. by rewrite IH.
Qed.

Lemma dict_set_same d k v : dict_get d k = Some v → dict_set d k v = d.
Proof.
  induction d as [|[k0 v0] d IH]; simpl; [done|].
  destruct (decide (k0 = k)) as [->|Hne].
  - by intros [= ->].
  - intros Hg. by rewrite IH.
Qed.

Lemma dict_set_nonempty d k v : dict_set d k v ≠ [].
Proof.
  destruct d as [|[k0 v0] d]; simpl; [done|]. by destruct (decide (k0 = k)).
Qed.

End PyDictDelFacts.

Section PointerIndexRemovalFacts.
Import PointerIndexRemoval.

Lemma is_empty_node_ids (n : TrieNode) (q : list string) :
  is_empty_node n = true → default ∅ (ids_at q n) = ∅.
Proof.
  unfold is_empty_node, ids_at. intros H. apply andb_true_iff in H as [Hi Hc].
  apply bool_decide_eq_true in Hi. destruct n as [c ids]. simpl in *.
  destruct c; [|done]. destruct q as [|k q]; simpl; done.
Qed.

Lemma ids_at_remove (obj_id : string) (p : list string) (n : TrieNode)
    (q : list string) :
  distinct_keys n →
  default ∅ (ids_at q (_remove_from_path obj_id p n))
  = if decide (q = p) then default ∅ (ids_at q n) ∖ {[obj_id]}
    else default ∅ (ids_at q n).
Proof.
  unfold ids_at. revert n q. induction p as [|comp rest IH]; intros n q Hn.
  - destruct q as [|k q]; simpl; done.
  - destruct Hn as [c ids Hnd Hall]. cbn [_remove_from_path children object_ids].
    destruct (dict_get c comp) as [child|] eqn:E.
    + assert (Hchild : distinct_keys child).
      { apply dict_get_elem in E. rewrite Forall_forall in Hall. apply (Hall _ E). }
      destruct (is_empty_node (_remove_from_path obj_id rest child)) eqn:Hem.
      * destruct q as [|k q]; [done|]. cbn [walk children].
        rewrite dict_get_del by done.
        destruct (decide (k = comp)) as [->|Hne].
        -- rewrite E. simpl.
           pose proof (IH child q Hchild) as Hq.
           pose proof (is_empty_node_ids _ q Hem) as He. unfold ids_at in He.
           rewrite He in Hq. clear He.
           destruct (decide (q = rest)) as [->|Hq'].
           ++ by rewrite decide_True.
           ++ by rewrite decide_False by congruence.
        -- by rewrite decide_False by congruence.
      * destruct q as [|k q]; [done|]. cbn [walk children].
        rewrite dict_get_set.
        destruct (decide (k = comp)) as [->|Hne].
        -- rewrite E. simpl. rewrite (IH child q Hchild).
           destruct (decide (q = rest)) as [->|Hq'].
           ++ by rewrite decide_True.
           ++ by rewrite decide_False by congruence.
        -- by rewrite decide_False by congruence.
    + destruct (decide (q = comp :: rest)) as [->|Hne]; [|done].
      simpl. rewrite E. simpl. apply set_eq. intros y.
      rewrite elem_of_difference. split; [|tauto]. intros Hy. by apply elem_of_empty in Hy.
Qed.

Lemma distinct_keys_remove (obj_id : string) (p : list string) (n : TrieNode) :
  distinct_keys n → distinct_keys (_remove_from_path obj_id p n).
Proof.
  revert n. induction p as [|comp rest IH]; intros n Hn.
  - destruct Hn as [c ids Hnd Hall]. by constructor.
  - destruct Hn as [c ids Hnd Hall]. cbn [_remove_from_path children object_ids].
    destruct (dict_get c comp) as [child|] eqn:E; [|by constructor].
    assert (Hchild : distinct_keys child).
    { apply dict_get_elem in E. rewrite Forall_forall in Hall. apply (Hall _ E). }
    destruct (is_empty_node _); constructor.
    + by apply dict_del_NoDup.
    + by apply Forall_dict_del.
    + by apply dict_set_NoDup.
    + apply Forall_dict_set; [done|]. by apply IH.
Qed.

Lemma add_at_not_empty (p : list string) (obj_id : string) (n : TrieNode) :
  is_empty_node (add_at p obj_id n) = false.
Proof.
  unfold is_empty_node. destruct p as [|comp rest]; cbn [add_at children object_ids].
  - rewrite bool_decide_eq_false_2; [done|]. intros He.
    apply (not_elem_of_empty (C := gset string) obj_id). rewrite <- He.
    apply elem_of_union. right. by apply elem_of_singleton.
  - apply andb_false_iff. right.
    match goal with |- match ?d with _ => _ end = _ => destruct d eqn:Hd end; [|done].
    by apply dict_set_nonempty in Hd.
Qed.

Lemma pruned_init : pruned TrieNode_init.
Proof. by constructor. Qed.

Lemma pruned_add_at (p : list string) (obj_id : string) (n : TrieNode) :
  pruned n → pruned (add_at p obj_id n).
Proof.
  revert n. induction p as [|comp rest IH]; intros n Hn.
  - destruct Hn as [c ids Hall]. by constructor.
  - destruct Hn as [c ids Hall]. cbn [add_at children object_ids].
    constructor. destruct (dict_get c comp) as [child|] eqn:E.
    + rewrite E. simpl. apply Forall_dict_set; [done|]. simpl.
      split; [apply add_at_not_empty|]. apply IH.
      apply dict_get_elem in E. rewrite Forall_forall in Hall. by apply (Hall _ E).
    + rewrite dict_get_set, decide_True by done. simpl. rewrite dict_set_set.
      apply Forall_dict_set; [done|]. simpl.
      split; [apply add_at_not_empty|]. apply IH, pruned_init.
Qed.

Lemma pruned_remove (obj_id : string) (p : list string) (n : TrieNode) :
  pruned n → pruned (_remove_from_path obj_id p n).
Proof.
  revert n. induction p as [|comp rest IH]; intros n Hn.
  - destruct Hn as [c ids Hall]. by constructor.
  - destruct Hn as [c ids Hall]. cbn [_remove_from_path children object_ids].
    destruct (dict_get c comp) as [child|] eqn:E; [|by constructor].
    assert (Hchild : pruned child).
    { apply dict_get_elem in E. rewrite Forall_forall in Hall. by apply (Hall _ E). }
    destruct (is_empty_node _) eqn:Hem; constructor.
    + by apply Forall_dict_del.
    + apply Forall_dict_set; [done|]. simpl. split; [done|]. by apply IH.
Qed.

Lemma remove_obligation_root (self : HierarchicalPointerIndex.t) (obj_id scope : string) :
  root (remove_obligation self obj_id scope)
  = _remove_from_path obj_id (_split_path scope) (root self).
Proof.
  unfold remove_obligation, _split_path.
  destruct (String.eqb_spec scope "") as [->|]; done.
Qed.

Lemma reachable_invariants (self : HierarchicalPointerIndex.t) :
  reachable self → distinct_keys (root self) ∧ pruned (root self).
Proof.
  induction 1 as [|self obj_id obligations _ [IHd IHp]|self obj_id scope _ [IHd IHp]].
  - split; [apply distinct_keys_init | apply pruned_init].
  - rewrite add_steps. revert IHd IHp. generalize (root self).
    induction obligations as [|o obs IH]; intros n Hd Hp; simpl; [done|].
    apply IH; [by apply distinct_keys_add_at | by apply pruned_add_at].
  - rewrite remove_obligation_root.
    split; [by apply distinct_keys_remove | by apply pruned_remove].
Qed.

Lemma remove_add_at (obj_id : string) (p : list string) (n : TrieNode) :
  pruned n → obj_id ∉ default ∅ (ids_at p n) →
  _remove_from_path obj_id p (add_at p obj_id n) = n.
Proof.
  unfold ids_at. revert n. induction p as [|comp rest IH]; intros n Hn Hid.
  - destruct n as [c ids]. simpl in *. f_equal. apply set_eq. intros y.
    rewrite elem_of_difference, elem_of_union, elem_of_singleton. split; [tauto|].
    intros Hy. split; [by left|]. by intros ->.
  - destruct Hn as [c ids Hall]. cbn [add_at children object_ids]. simpl in Hid.
    destruct (dict_get c comp) as [child|] eqn:E.
    + rewrite E. simpl in *. rewrite dict_get_set, decide_True by done.
      assert (Hchild : is_empty_node child = false ∧ pruned child).
      { apply dict_get_elem in E. rewrite Forall_forall in Hall. by apply (Hall _ E). }
      destruct Hchild as [Hne Hp]. rewrite (IH child Hp Hid), Hne.
      by rewrite dict_set_set, dict_set_same.
    + rewrite dict_get_set, decide_True by done. simpl.
      rewrite dict_set_set. simpl. rewrite dict_get_set, decide_True by done.
      rewrite (IH TrieNode_init pruned_init).
      * simpl. by rewrite dict_del_set_absent.
      * destruct rest; simpl; apply not_elem_of_empty.
Qed.

(** X18. [remove_obligation] of the pointer index takes the object out of
    the set recorded at the node of the scope and changes the set of no
    other path; whether the object has other obligations at that scope does
    not matter. *)
Theorem remove_obligation_stored (self : HierarchicalPointerIndex.t)
    (obj_id scope : string) (q : list string) :
  reachable self →
  stored (remove_obligation self obj_id scope) q
  = if decide (q = _split_path scope) then stored self q ∖ {[obj_id]}
    else stored self q.
Proof.
  intros Hr. unfold stored. rewrite remove_obligation_root.
  apply ids_at_remove. by apply reachable_invariants.
Qed.

Lemma remove_obligation_stored_witness :
  stored (remove_obligation sample_index "obj2" "/user/profile/email")
         ["user"; "profile"; "email"] = ∅ ∧
  stored (remove_obligation sample_index "obj2" "/user/profile/email")
         ["user"; "comment"] = {[ "obj1" ]}.
Proof.
  assert (Hr : reachable sample_index) by (repeat constructor).
  split.
  - rewrite (remove_obligation_stored sample_index "obj2" "/user/profile/email"
               ["user"; "profile"; "email"] Hr).
    vm_compute. reflexivity.
  - rewrite (remove_obligation_stored sample_index "obj2" "/user/profile/email"
               ["user"; "comment"] Hr).
    vm_compute. reflexivity.
Defined.

(** X19. Adding one obligation of an object that is not recorded at the
    node of its scope, and removing it again, gives back the pointer index
    as it was: the nodes the [add] made are deleted again, and no other
    node is. *)
Theorem add_remove_obligation (self : HierarchicalPointerIndex.t)
    (obj_id kind scope : string) :
  reachable self → obj_id ∉ stored self (_split_path scope) →
  remove_obligation (HierarchicalPointerIndex.add self obj_id [(kind, scope)])
    obj_id scope = self.
Proof.
  intros Hr Hid. apply reachable_invariants in Hr as [_ Hp].
  destruct self as [n]. unfold stored in Hid. simpl in *.
  assert (Hroot : root (remove_obligation
                          (HierarchicalPointerIndex.add {| root := n |} obj_id
                             [(kind, scope)]) obj_id scope) = n).
  { rewrite remove_obligation_root, add_steps. simpl. by apply remove_add_at. }
  destruct (remove_obligation _ _ _) as [n']. simpl in Hroot. by rewrite Hroot.
Qed.

Lemma add_remove_obligation_witness :
  remove_obligation
    (HierarchicalPointerIndex.add sample_index "obj4" [("pii_clean", "/user/address/zip")])
    "obj4" "/user/address/zip"
  = sample_index.
Proof.
  apply (add_remove_obligation sample_index "obj4" "pii_clean" "/user/address/zip").
  - repeat constructor.
  - vm_compute. intros H. discriminate H.
Defined.

End PointerIndexRemovalFacts.

(* ===================================================================== *)
(** * The default verifiers and the operators *)
(* ===================================================================== *)

Lemma default_registry_lookup (re_search : string → string → bool) (k : string) :
  get_default_registry re_search !! k
  = if decide (k = "schema_ok") then Some schema_validator
    else if decide (k = "pii_clean") then Some (pii_clean_verifier re_search)
    else if decide (k = "sql_safe") then Some (sql_safe_verifier re_search)
    else None.
Proof.
  unfold get_default_registry, register.
  destruct (decide (k = "schema_ok")) as [->|H1]; [by rewrite lookup_insert_eq|].
  rewrite lookup_insert_ne by done.
  destruct (decide (k = "pii_clean")) as [->|H2]; [by rewrite lookup_insert_eq|].
  rewrite lookup_insert_ne by done.
  destruct (decide (k = "sql_safe")) as [->|H3]; [by rewrite lookup_insert_eq|].
  rewrite lookup_insert_ne by done. apply lookup_empty.
Qed.

(** X20. With the default registry, a scope that does not resolve in the
    value is judged on [None]: the personal-data verifier accepts it, so
    [discharge] removes the obligation and records an accept, while the SQL
    and the schema verifiers reject it, so the obligation stays and a reject
    is recorded. *)
Theorem discharge_unresolved_scope (resolve_pointer : Value → string → option Value)
    (re_search : string → string → bool) (o : ChavaObject) (k s : string)
    (id : string) (now : Number) :
  well_formed o → (k, s) ∈ o.(obligations) →
  s ≠ "" → resolve_pointer o.(value) s = None →
  (k = "pii_clean" →
   ∃ l1 l2, o.(obligations) = l1 ++ (k, s) :: l2 ∧ ((k, s) ∉ l1) ∧
     discharge resolve_pointer o k s (get_default_registry re_search) id now
     = Return {| value := o.(value); obligations := l1 ++ l2;
                 evidence := o.(evidence) ++ [discharge_record o k s "accept" id now] |}) ∧
  (k = "sql_safe" ∨ k = "schema_ok" →
   discharge resolve_pointer o k s (get_default_registry re_search) id now
   = Return {| value := o.(value); obligations := o.(obligations);
               evidence := o.(evidence) ++ [discharge_record o k s "reject" id now] |}).
Proof.
  intros Hwf Hin Hs Hr.
  assert (Hv : scoped_value resolve_pointer o s = VNull).
  { unfold scoped_value. apply String.eqb_neq in Hs. by rewrite Hs, Hr. }
  split.
  - intros ->.
    destruct (discharge_present resolve_pointer o "pii_clean" s
                (get_default_registry re_search) (pii_clean_verifier re_search) id now
                Hwf Hin) as (obs' & Hobs & Hd).
    { by rewrite default_registry_lookup. }
    rewrite Hv in Hobs, Hd. simpl in Hobs, Hd.
    destruct Hobs as (l1 & l2 & Hl & Hn & ->). by exists l1, l2.
  - intros [->| ->].
    + destruct (discharge_present resolve_pointer o "sql_safe" s
                  (get_default_registry re_search) (sql_safe_verifier re_search) id now
                  Hwf Hin) as (obs' & Hobs & Hd).
      { by rewrite default_registry_lookup. }
      rewrite Hv in Hobs, Hd. simpl in Hobs, Hd. by rewrite <- Hobs.
    + destruct (discharge_present resolve_pointer o "schema_ok" s
                  (get_default_registry re_search) schema_validator id now
                  Hwf Hin) as (obs' & Hobs & Hd).
      { by rewrite default_registry_lookup. }
      rewrite Hv in Hobs, Hd. simpl in Hobs, Hd. by rewrite <- Hobs.
Qed.

Lemma discharge_unresolved_scope_witness :
  discharge member_pointer
    {| value := sample_value; obligations := [("pii_clean", "/missing")]; evidence := [] |}
    "pii_clean" "/missing" (get_default_registry no_match) "pii_verifier" (Int 1700000000)
  = Return {| value := sample_value; obligations := [];
              evidence :=
                [discharge_record
                   {| value := sample_value; obligations := [("pii_clean", "/missing")];
                      evidence := [] |}
                   "pii_clean" "/missing" "accept" "pii_verifier" (Int 1700000000)] |}.
Proof.
  destruct (discharge_unresolved_scope member_pointer no_match
              {| value := sample_value; obligations := [("pii_clean", "/missing")];
                 evidence := [] |}
              "pii_clean" "/missing" "pii_verifier" (Int 1700000000))
    as [H _].
  - by repeat constructor.
  - by apply list_elem_of_singleton.
  - discriminate.
  - reflexivity.
  - destruct (H eq_refl) as (l1 & l2 & Hl & Hn & Hd). rewrite Hd. simpl in Hl.
    destruct l1 as [|x l1].
    + injection Hl as <-. reflexivity.
    + injection Hl as <- Hl. by destruct l1.
Defined.

(** X21. The obligation [invalid_path] cannot be discharged with the
    default registry: [discharge] on it raises [KeyError], and whatever else
    is discharged, an object that holds it keeps it and so stays
    uncleared. *)
Theorem invalid_path_stays (resolve_pointer : Value → string → option Value)
    (re_search : string → string → bool) (o : ChavaObject) :
  well_formed o → ("invalid_path", "") ∈ o.(obligations) →
  (∀ id now,
     discharge resolve_pointer o "invalid_path" "" (get_default_registry re_search) id now
     = Raise (KeyError "No verifier registered for kind: invalid_path")) ∧
  (∀ k s id now o',
     discharge resolve_pointer o k s (get_default_registry re_search) id now = Return o' →
     well_formed o' ∧ ("invalid_path", "") ∈ o'.(obligations) ∧ is_cleared o' = false).
Proof.
  intros Hwf Hin. split.
  - intros id now. by apply discharge_unregistered.
  - intros k s id now o' Hd.
    assert (Hnc : ∀ o'', ("invalid_path", "") ∈ o''.(obligations) → is_cleared o'' = false).
    { intros o'' Ho. unfold is_cleared. by destruct (obligations o''); [apply elem_of_nil in Ho|]. }
    destruct (decide ((k, s) ∈ o.(obligations))) as [Hks|Hks].
    2:{ rewrite discharge_absent in Hd by done. injection Hd as <-. auto. }
    destruct (get_default_registry re_search !! k) as [verifier|] eqn:Hreg.
    2:{ by rewrite discharge_unregistered in Hd. }
    assert (Hk : k ≠ "invalid_path").
    { intros ->. by rewrite default_registry_lookup in Hreg. }
    destruct (discharge_present resolve_pointer o k s _ verifier id now Hwf Hks Hreg)
      as (obs' & Hobs & Hd').
    rewrite Hd' in Hd. injection Hd as <-. simpl.
    assert (Hsub : ∀ x, x ∈ obs' → x ∈ o.(obligations)).
    { destruct (String.eqb _ _); [|by subst].
      destruct Hobs as (l1 & l2 & -> & _ & ->). intros x Hx.
      apply elem_of_app in Hx as [Hx|Hx]; apply elem_of_app; [by left|right].
      apply elem_of_cons. by right. }
    assert (Hkeep : ("invalid_path", "") ∈ obs').
    { destruct (String.eqb _ _); [|by subst].
      destruct Hobs as (l1 & l2 & Hl & _ & ->). rewrite Hl in Hin.
      apply elem_of_app in Hin as [Hx|Hx]; apply elem_of_app; [by left|right].
      apply elem_of_cons in Hx as [[= <- _]|Hx]; done. }
    split_and!.
    + unfold well_formed in *. simpl. rewrite Forall_forall in *. intros x Hx.
      by apply Hwf, Hsub.
    + done.
    + by apply Hnc.
Qed.

Lemma invalid_path_stays_witness :
  ∃ o', project member_pointer
          {| value := sample_value; obligations := []; evidence := [] |} "/nonexistent"
        = Return o' ∧
        discharge member_pointer o' "invalid_path" "" (get_default_registry no_match)
          "v" (Int 1700000000)
        = Raise (KeyError "No verifier registered for kind: invalid_path").
Proof.
  eexists. split; [reflexivity|].
  apply (invalid_path_stays member_pointer no_match).
  - by repeat constructor.
  - by apply list_elem_of_singleton.
Defined.

Lemma has_kind_spec (o : ChavaObject) (kind : string) :
  existsb (fun ob => String.eqb ob.1 kind) o.(obligations) = true
  ↔ ∃ s, (kind, s) ∈ o.(obligations).
Proof.
  rewrite existsb_exists. split.
  - intros ([k s] & Hin & He). apply String.eqb_eq in He. simpl in He. subst.
    exists s. by apply list_elem_of_In.
  - intros (s & Hin). exists (kind, s). split; [by apply list_elem_of_In|].
    apply String.eqb_refl.
Qed.

Lemma inject_loop_unchanged (resolve_pointer : Value → string → option Value)
    (objects : list ChavaObject) (kind : string) (registry : gmap string Verifier)
    (verifier_id : string) (now : nat → Number) (i : nat) (results : list ChavaObject) :
  Forall well_formed objects →
  Forall (fun o => (kind, "") ∉ o.(obligations)) objects →
  inject_loop resolve_pointer objects kind registry verifier_id now i results
  = Return (results ++ objects).
Proof.
  revert i results. induction objects as [|o objs IH]; intros i results Hwf Hno; simpl.
  - by rewrite app_nil_r.
  - apply Forall_cons in Hwf as [Ho Hwf]. apply Forall_cons in Hno as [Hn Hno].
    destruct (existsb _ _).
    + rewrite discharge_absent by done. simpl.
      rewrite IH by done. by rewrite <- app_assoc.
    + rewrite IH by done. by rewrite <- app_assoc.
Qed.

Lemma inject_loop_unregistered (resolve_pointer : Value → string → option Value)
    (objects : list ChavaObject) (kind : string) (registry : gmap string Verifier)
    (verifier_id : string) (now : nat → Number) (i : nat) (results : list ChavaObject) :
  Forall well_formed objects → registry !! kind = None →
  Exists (fun o => (kind, "") ∈ o.(obligations)) objects →
  inject_loop resolve_pointer objects kind registry verifier_id now i results
  = Raise (KeyError ("No verifier registered for kind: " +:+ kind)).
Proof.
  intros Hwf Hreg Hex. revert i results.
  induction objects as [|o objs IH]; intros i results; [by apply Exists_nil in Hex|].
  apply Forall_cons in Hwf as [Ho Hwf]. simpl.
  destruct (decide ((kind, "") ∈ o.(obligations))) as [Hin|Hn].
  - rewrite (proj2 (has_kind_spec o kind)) by eauto.
    by rewrite discharge_unregistered.
  - apply Exists_cons in Hex as [?|Hex]; [done|].
    destruct (existsb _ _).
    + rewrite discharge_absent by done. simpl. by apply IH.
    + by apply IH.
Qed.

(** X22. [inject_verification] discharges at the whole-value scope only:
    when no object holds the obligation of the kind at the empty scope, the
    objects come back as they are, also those that hold obligations of the
    kind under a scope; no verifier is run and the registry is not
    consulted. *)
Theorem inject_verification_skips_scoped
    (resolve_pointer : Value → string → option Value) (objects : list ChavaObject)
    (kind : string) (registry : gmap string Verifier) (verifier_id : string)
    (now : nat → Number) :
  Forall well_formed objects →
  Forall (fun o => (kind, "") ∉ o.(obligations)) objects →
  inject_verification resolve_pointer objects kind registry verifier_id now
  = Return objects.
Proof. intros Hwf Hno. unfold inject_verification. by rewrite inject_loop_unchanged. Qed.

Lemma inject_verification_skips_scoped_witness :
  inject_verification member_pointer [sample_all_scoped; sample_pending] "pii_clean"
    sample_registry "pii_verifier" (fun _ => Int 1700000000)
  = Return [sample_all_scoped; sample_pending].
Proof.
  apply (inject_verification_skips_scoped member_pointer
           [sample_all_scoped; sample_pending] "pii_clean").
  - repeat constructor; done.
  - repeat (apply Forall_cons; split); [| |constructor].
    + intros H. repeat (apply elem_of_cons in H as [H|H]; [discriminate H|]).
      by apply elem_of_nil in H.
    + intros H. repeat (apply elem_of_cons in H as [H|H]; [discriminate H|]).
      by apply elem_of_nil in H.
Defined.

(** X23. [inject_verification] gives no partial result: with no verifier
    registered for the kind, it raises [KeyError] as soon as one object
    holds the obligation of the kind at the empty scope, and the objects
    before it are not returned. *)
Theorem inject_verification_unregistered
    (resolve_pointer : Value → string → option Value) (objects : list ChavaObject)
    (kind : string) (registry : gmap string Verifier) (verifier_id : string)
    (now : nat → Number) :
  Forall well_formed objects → registry !! kind = None →
  Exists (fun o => (kind, "") ∈ o.(obligations)) objects →
  inject_verification resolve_pointer objects kind registry verifier_id now
  = Raise (KeyError ("No verifier registered for kind: " +:+ kind)).
Proof. intros Hwf Hreg Hex. unfold inject_verification. by apply inject_loop_unregistered. Qed.

Lemma inject_verification_unregistered_witness :
  inject_verification member_pointer [sample_pending; sample_object] "sql_safe"
    ∅ "sql_verifier" (fun _ => Int 1700000000)
  = Raise (KeyError "No verifier registered for kind: sql_safe").
Proof.
  apply (inject_verification_unregistered member_pointer
           [sample_pending; sample_object] "sql_safe" ∅).
  - repeat constructor; done.
  - apply lookup_empty.
  - apply Exists_cons. right. apply Exists_cons. left.
    apply elem_of_cons. right. apply elem_of_cons. by left.
Defined.

(** X24. What [filter_cleared] lets through can be unwrapped and consumed:
    an object is in the result exactly when it is in the input and [unwrap]
    returns its value; [safe_consume] then returns the consumer's result on
    that value, and raises [ObligationViolation] on every object left
    out. *)
Theorem filter_cleared_unwraps (objects : list ChavaObject) (o : ChavaObject) :
  (o ∈ filter_cleared objects ↔ o ∈ objects ∧ unwrap o = Return o.(value)) ∧
  (o ∈ filter_cleared objects →
   ∀ (A : Type) (consumer_fn : Value → A),
     safe_consume o consumer_fn = Return (consumer_fn o.(value))) ∧
  (o ∈ objects → o ∉ filter_cleared objects →
   ∃ kinds, ∀ (A : Type) (consumer_fn : Value → A),
     safe_consume o consumer_fn = Raise (ObligationViolation kinds)).
Proof.
  unfold filter_cleared.
  assert (Hin : o ∈ List.filter is_cleared objects ↔ o ∈ objects ∧ is_cleared o = true).
  { rewrite !list_elem_of_In. apply filter_In. }
  split_and!.
  - rewrite Hin. split; intros [Ho Hc]; (split; [done|]).
    + by apply unwrap_of_cleared.
    + unfold unwrap in Hc. by destruct (is_cleared o).
  - intros Ho A f. apply Hin in Ho as [_ Hc]. unfold safe_consume.
    by rewrite unwrap_of_cleared.
  - intros Ho Hn. destruct (is_cleared o) eqn:Hc; [exfalso; apply Hn, Hin; auto|].
    eexists. intros A f. unfold safe_consume, unwrap. rewrite Hc. simpl. reflexivity.
Qed.

(** X25. [schema_validator] accepts exactly the dictionaries that have an
    [id] that is an integer or a boolean ([bool] being an [int] to
    [isinstance]) and a [name] that is a string; further fields and the
    scope play no part, and every other value is rejected. *)
Theorem schema_validator_accepts (v : Value) (s : string) :
  (schema_validator v s = "accept"
   ↔ ∃ items id name,
       v = VDict items ∧ dict_get items "id" = Some id ∧
       dict_get items "name" = Some name ∧
       ((∃ z, id = VNum (Int z)) ∨ (∃ b, id = VBool b)) ∧ (∃ t, name = VStr t)) ∧
  (schema_validator v s = "accept" ∨ schema_validator v s = "reject").
Proof.
  split; [split|].
  - destruct v as [| | | | |items]; try done. simpl.
    destruct (dict_get items "id") as [id|] eqn:Eid; [|done].
    destruct (isinstance_int id) eqn:Hid; [|done]. simpl.
    destruct (dict_get items "name") as [name|] eqn:En; [|done].
    destruct (isinstance_str name) eqn:Hn; [|done]. intros _.
    exists items, id, name. split_and!; try done.
    + destruct id as [|b|[z|r]| | |]; try done; [right|left]; eauto.
    + destruct name; try done; eauto.
  - intros (items & id & name & -> & Hid & Hn & Hi & [t ->]). simpl.
    rewrite Hid. destruct Hi as [[z ->]|[b ->]]; simpl; by rewrite Hn.
  - destruct v as [| | | | |items]; simpl; auto.
    destruct (dict_get items "id") as [id|]; [|auto].
    destruct (isinstance_int id); simpl; [|auto].
    destruct (dict_get items "name") as [name|]; [|auto].
    destruct (isinstance_str name); simpl; auto.
Qed.

(* ===================================================================== *)
(** * The obligation-keyed storage *)
(* ===================================================================== *)


Lemma xor_bytes_length (a b : bytes) :
  List.length (xor_bytes a b) = (List.length a `min` List.length b)%nat.
Proof. unfold xor_bytes. by rewrite length_map, length_combine. Qed.

Lemma hmac_sha256_length (key msg : bytes) : List.length (hmac_sha256 key msg) = 32%nat.
Proof. unfold hmac_sha256. apply digest_length. Qed.

Lemma pbkdf2_block_length (password salt : bytes) (iterations : N) (i : Z) :
  List.length (pbkdf2_block password salt iterations i) = 32%nat.
Proof.
  unfold pbkdf2_block.
  apply (N.iter_invariant (iterations - 1) (bytes * bytes)
           (fun st => let u := hmac_sha256 password st.1 in (u, xor_bytes st.2 u))
           (fun st => List.length st.2 = 32%nat)).
  - intros st Hst. simpl. rewrite xor_bytes_length, Hst, hmac_sha256_length. done.
  - simpl. apply hmac_sha256_length.
Qed.

Lemma derive_key_32 (kms : KeyManagementService.t) (obligations : list (string * string))
    (server_secret : bytes) :
  List.length (KeyManagementService.derive_key kms obligations server_secret) = 32%nat.
Proof.
  unfold KeyManagementService.derive_key, PBKDF2HMAC.
  change ((32 + 31) / 32)%nat with 1%nat. cbn [List.seq flat_map].
  rewrite app_nil_r, firstn_all2; [apply pbkdf2_block_length|].
  by rewrite pbkdf2_block_length.
Qed.

Section Storage.
Import ObligationKeyedStorage.

Variable AESGCM_encrypt : bytes → bytes → bytes → bytes.
Variable AESGCM_decrypt : bytes → bytes → bytes → option bytes.

Lemma retrieve_stored (self : ObligationKeyedStorage.t) (obj_id : string)
    (obj : ChavaObject) (nonce : bytes) :
  dict_get (storage (store AESGCM_encrypt self obj_id obj nonce)) obj_id
  = Some (nonce ++ AESGCM_encrypt
                     (derive_key self.(kms) obj.(obligations) self.(kms).(server_secret))
                     nonce (encode (py_str obj.(value))),
          obj.(obligations), obj.(evidence)).
Proof. unfold store. simpl. by rewrite dict_get_set, decide_True. Qed.

(** X26. The storage gives back nothing of an object that is not cleared:
    after [store] of an object with an obligation left, or a chain that does
    not verify, or a conflict in its evidence, [retrieve] raises
    [CryptographicException] before any decryption, whatever the cipher; an
    object with an empty kind makes it raise [ValueError]. *)
Theorem retrieve_refuses_uncleared (self : ObligationKeyedStorage.t) (obj_id : string)
    (obj : ChavaObject) (nonce : bytes) :
  (well_formed obj →
   obj.(obligations) ≠ [] ∨ verify_evidence_chain obj.(evidence) = false
   ∨ has_conflict obj.(evidence) = true →
   retrieve AESGCM_decrypt (store AESGCM_encrypt self obj_id obj nonce) obj_id
   = inl (CryptographicException
            ("Cannot decrypt object " +:+ obj_id
             +:+ ": not cleared or verification failed"))) ∧
  (¬ well_formed obj →
   retrieve AESGCM_decrypt (store AESGCM_encrypt self obj_id obj nonce) obj_id
   = inl (Core (ValueError "Invalid obligation kind: "))).
Proof.
  split.
  - intros Hwf Hun. unfold retrieve. rewrite retrieve_stored.
    rewrite init_well_formed by done.
    by rewrite release_refused.
  - intros Hwf. unfold retrieve. rewrite retrieve_stored.
    by rewrite init_raises.
Qed.


(** X28. [retrieve] of an id that was never stored raises [KeyError], and
    [store] under one id changes nothing of what [retrieve] gives for
    another. *)
Theorem retrieve_other_ids (self : ObligationKeyedStorage.t) (obj_id other : string)
    (obj : ChavaObject) (nonce : bytes) :
  retrieve AESGCM_decrypt (init self.(kms)) other
  = inl (Core (KeyError ("Object " +:+ other +:+ " not found"))) ∧
  (other ≠ obj_id →
   retrieve AESGCM_decrypt (store AESGCM_encrypt self obj_id obj nonce) other
   = retrieve AESGCM_decrypt self other).
Proof.
  split; [done|]. intros Hne. unfold retrieve, store. simpl.
  by rewrite dict_get_set, decide_False.
Qed.

End Storage.

Lemma retrieve_refuses_uncleared_witness :
  ObligationKeyedStorage.retrieve sample_decrypt
    (ObligationKeyedStorage.store sample_encrypt (ObligationKeyedStorage.init sample_kms)
       "obj1" sample_pending sample_nonce) "obj1"
  = inl (CryptographicException
           "Cannot decrypt object obj1: not cleared or verification failed").
Proof.
  apply (retrieve_refuses_uncleared sample_encrypt sample_decrypt
           (ObligationKeyedStorage.init sample_kms) "obj1" sample_pending sample_nonce).
  - by repeat constructor.
  - by left.
Defined.


(** X29. Every key [derive_key] returns has 32 bytes, the length of an
    AES-256 key, whatever the obligations and the secret. *)
Theorem derive_key_length (kms : KeyManagementService.t)
    (obligations : list (string * string)) (server_secret : bytes) :
  List.length (KeyManagementService.derive_key kms obligations server_secret) = 32%nat.
Proof. apply derive_key_32. Qed.

(** X30. The hash of an evidence record has 64 characters, so a chain
    verifies only when each of its records carries a [hash] field of 64
    characters; a record without the field, or with an empty one, makes
    [verify_evidence_chain] return [False]. *)
Theorem verify_evidence_chain_hashes (E : list EvidenceRecord) (r : EvidenceRecord) :
  String.length (compute_evidence_hash r) = 64%nat ∧
  (verify_evidence_chain E = true → r ∈ E →
   ∃ h, r.(hash) = Some h ∧ String.length h = 64%nat) ∧
  (r ∈ E → default "" r.(hash) = "" → verify_evidence_chain E = false).
Proof.
  assert (Hv : verify_evidence_chain E = true → r ∈ E →
               r.(hash) = Some (compute_evidence_hash r)).
  { intros HE Hin. apply verify_chained, chained_positions in HE as (Hok & _ & _).
    rewrite Forall_forall in Hok. by apply Hok. }
  split_and!.
  - apply compute_evidence_hash_length.
  - intros HE Hin. eexists. split; [by apply Hv|]. apply compute_evidence_hash_length.
  - intros Hin He. destruct (verify_evidence_chain E) eqn:HE; [|done].
    rewrite (Hv eq_refl Hin) in He. simpl in He.
    by apply compute_evidence_hash_nonempty in He.
Qed.
